(** * NULL-ID: the email-header circuit, its input builder and the identity registry

    A shallow embedding of three pieces of the repository:

    - [WEB/circuit/circuits/eml_receiver.circom]: the constraint system
      ([EmailHeaderVerifier] and the templates it instantiates), as
      predicates over signal assignments in the scalar field of BN254;
    - the email page's [buildCircuitInput] with its helpers [pack31LE],
      [strBytesAscii] and [oneHot], as functions over JavaScript numbers
      (integers) and arrays (lists);
    - the registry contract ([createIdentity], [updateIdentity],
      [updateField], [updateNumericField] and the view functions), as
      functions over an explicit contract storage, with the storages
      reached from deployment by sequences of transactions.

    Numbers are [Z] throughout (JavaScript numbers and BigInts, circom
    variables, Solidity [uint8] with its checked arithmetic written out);
    arrays are lists indexed from 0. *)

From Stdlib Require Import ZArith Lia List Bool String Ascii.
From Stdlib Require Import Strings.Byte.
From Stdlib Require Import Zdivisibility DecimalString DecimalZ.
From Stdlib Require Import Zmod.ZmodDef Zmod.ZmodBase Zmod.ZmodInv.
From Stdlib Require Import Zmod.ZstarDef Zmod.ZstarBase.
From Bignums Require Import BigN.
From stdpp Require Import base list gmap strings.

Local Open Scope Z_scope.

(* ================================================================== *)
(** * Part I: definitions *)
(* ================================================================== *)

(** ** Arrays and counted loops *)

(** [a[i]] for an array held as a list.  Every index the modelled code
    reads is inside the array; the value returned elsewhere is 0. *)
Definition sig (a : list Z) (i : Z) : Z := nth (Z.to_nat i) a 0.

(** The indices [0, 1, ..., n-1] visited by [for (var t = 0; t < n; t++)]. *)
Definition range (n : Z) : list Z := map Z.of_nat (seq 0 (Z.to_nat n)).

(** A JavaScript [for (let i = i0; cond(i); i = incr(i)) body] loop over a
    state [s], run with a bound on the number of iterations. *)
Fixpoint for_loop {St : Type} (fuel : nat) (cond : Z -> bool) (incr : Z -> Z)
    (body : Z -> St -> St) (i : Z) (s : St) : St :=
  match fuel with
  | O => s
  | S fuel' =>
      if cond i then for_loop fuel' cond incr body (incr i) (body i s) else s
  end.

(** A JavaScript [while (cond(s)) body] loop over a state [s], run with a
    bound on the number of iterations. *)
Fixpoint while_loop {St : Type} (fuel : nat) (cond : St -> bool)
    (body : St -> St) (s : St) : St :=
  match fuel with
  | O => s
  | S fuel' => if cond s then while_loop fuel' cond body (body s) else s
  end.

(** [l.slice(start, end)] for [0 <= start <= end]. *)
Definition slice (l : list Z) (start end_ : Z) : list Z :=
  take (Z.to_nat (end_ - start)) (drop (Z.to_nat start) l).

(** [f 0 + f 1 + ... + f (n-1)] *)
Definition sum_range (f : Z -> Z) (n : Z) : Z :=
  fold_left (fun s i => s + f i) (range n) 0.

(** ** Primality certificates

    The constraint system lives in a prime field; that its modulus is
    prime is established by a Pratt certificate checked with Lucas'
    test.  Modular powers are evaluated on machine words. *)
Module Primality.

Fixpoint powmod_pos (a : Z) (e : positive) (m : Z) : Z :=
  match e with
  | xH => a mod m
  | xO e' => let r := powmod_pos a e' m in (r * r) mod m
  | xI e' => let r := powmod_pos a e' m in ((r * r) mod m * a) mod m
  end.

Definition powmod (a e m : Z) : Z :=
  match e with
  | Zpos e' => powmod_pos a e' m
  | _ => 1 mod m
  end.

Fixpoint bpowmod_pos (a : bigN) (e : positive) (m : bigN) : bigN :=
  match e with
  | xH => BigN.modulo a m
  | xO e' => let r := bpowmod_pos a e' m in BigN.modulo (BigN.mul r r) m
  | xI e' => let r := bpowmod_pos a e' m in
             BigN.modulo (BigN.mul (BigN.modulo (BigN.mul r r) m) a) m
  end.

Definition fast_powmod (a e m : Z) : Z :=
  match e with
  | Zpos e' =>
      BigN.to_Z (bpowmod_pos (BigN.of_N (Z.to_N a)) e' (BigN.of_N (Z.to_N m)))
  | _ => 1 mod m
  end.

Definition zprod (qs : list Z) : Z := fold_right Z.mul 1 qs.

(** Lucas' test for [N] with base [a], given the prime factors [qs]
    of [N - 1] (with multiplicity). *)
Definition lucas_check (N a : Z) (qs : list Z) : bool :=
  (1 <? N) && (0 <=? a) && (zprod qs =? N - 1)
  && (fast_powmod a (N - 1) N =? 1)
  && forallb (fun q => negb (fast_powmod a ((N - 1) / q) N =? 1)) qs.

(** A certificate is a list of Lucas tests, each using only primes
    certified before it; the result lists the certified primes. *)
Fixpoint pratt_check (known : list Z) (certs : list (Z * Z * list Z)) : list Z :=
  match certs with
  | [] => known
  | (N, a, qs) :: rest =>
      if forallb (fun q => existsb (Z.eqb q) known) qs && lucas_check N a qs
      then pratt_check (N :: known) rest
      else []
  end.

End Primality.

(** ** The scalar field *)
Module Field.

(** Modelled from the spec: the native field of the constraint system is
    fixed by the circom compiler and by circomlibjs' [buildPoseidon],
    neither of which is under the repository's sources; for both it is the
    scalar field of BN254, whose modulus this is. *)
Definition p : Z :=
  21888242871839275222246405745257275088548364400416034343698204186575808495617.

Definition p_certificate : list (Z * Z * list Z) :=
  [ (3, 2, [2]); (5, 2, [2; 2]); (19, 2, [2; 3; 3]); (37, 2, [2; 2; 3; 3]);
    (223, 3, [2; 3; 37]); (11, 2, [2; 5]); (23, 5, [2; 11]); (47, 5, [2; 23]);
    (20963, 2, [2; 47; 223]); (41927, 5, [2; 20963]);
    (1593227, 2, [2; 19; 41927]); (17, 3, [2; 2; 2; 2]);
    (409, 21, [2; 2; 2; 3; 17]); (1637, 2, [2; 2; 409]); (7, 3, [2; 3]);
    (71, 7, [2; 5; 7]); (853, 2, [2; 2; 3; 71]); (229, 6, [2; 2; 3; 19]);
    (639533339, 2, [2; 229; 853; 1637]); (41, 6, [2; 2; 2; 5]);
    (83, 2, [2; 41]); (379, 2, [2; 3; 3; 3; 7]);
    (65865678001877903, 5, [2; 83; 379; 1637; 639533339]);
    (137, 3, [2; 2; 2; 17]); (823, 3, [2; 3; 137]);
    (13818364434197438864469338081, 3,
      [2; 2; 2; 2; 2; 5; 823; 1593227; 65865678001877903]);
    (13, 2, [2; 2; 3]); (449, 3, [2; 2; 2; 2; 2; 2; 7]);
    (237073, 15, [2; 2; 2; 2; 3; 11; 449]); (53, 2, [2; 2; 13]);
    (107, 2, [2; 53]); (31, 3, [2; 3; 5]);
    (93001, 14, [2; 2; 2; 3; 5; 5; 5; 31]); (661, 2, [2; 2; 3; 5; 11]);
    (12048837557, 2, [2; 2; 7; 7; 661; 93001]);
    (5156902474397, 2, [2; 2; 107; 12048837557]);
    (1670836401704629, 2, [2; 2; 3; 3; 3; 3; 5156902474397]);
    (491, 2, [2; 5; 7; 7]); (983, 5, [2; 491]);
    (5501, 2, [2; 2; 5; 5; 5; 11]); (11003, 2, [2; 5501]);
    (29, 2, [2; 2; 7]); (3691, 2, [2; 3; 3; 5; 41]);
    (4999, 3, [2; 3; 7; 7; 17]); (405928799, 22, [2; 11; 3691; 4999]);
    (p, 5,
      [2; 2; 2; 2; 2; 2; 2; 2; 2; 2; 2; 2; 2; 2; 2; 2; 2; 2; 2; 2; 2; 2;
       2; 2; 2; 2; 2; 2; 3; 3; 13; 29; 983; 11003; 237073; 405928799;
       1670836401704629; 13818364434197438864469338081]) ].

(** [a === b]: the two sides denote the same field element. *)
Definition ceq (a b : Z) : Prop := a mod p = b mod p.

(** [F.e(x)]: the field element of an integer, by its canonical
    representative in [0, p). *)
Definition F_e (x : Z) : Z := x mod p.

End Field.

Notation "a === b" := (Field.ceq a b) (at level 70, no associativity).

(** ** The constraint system ([eml_receiver.circom])

    A template is a predicate over the values of its signals: it holds
    when every constraint the template generates holds.  Intermediate
    signals of sub-components are existentially quantified.  circom
    variables hold field elements; a constraint compares its two sides as
    field elements ([===]), so linear combinations are written over the
    integers and reduced by the comparison. *)
Module Circuit.
Section Templates.

(** The two-input Poseidon hash of circomlib ([poseidon.circom]) and of
    circomlibjs, on canonical representatives.  It is not part of the
    repository: the development is parametric in it. *)
Variable Poseidon : Z -> Z -> Z.

(** [Poseidon(2)]: [out] is determined by [inputs[0]] and [inputs[1]]. *)
Definition PoseidonComponent (in0 in1 out : Z) : Prop :=
  out === Poseidon (Field.F_e in0) (Field.F_e in1).

Definition BooleanConstraint (value result : Z) : Prop :=
  result === value /\ result * (result - 1) === 0.

(** Modelled from the spec: [Num2Bits(n)] comes from circomlib's
    [bitify.circom], which is not under the repository's sources.  The
    spec asks that each byte be constrained to its 8-bit decomposition:
    the [out[i]] are boolean and [sum_i out[i] * 2^i === in], accumulated
    as circomlib does with [lc1 += out[i] * e2; e2 = e2 + e2]. *)
Definition Num2Bits (n : Z) (inp : Z) (out : list Z) : Prop :=
  let lc1 :=
    fst (fold_left (fun '(lc1, e2) i => (lc1 + sig out i * e2, e2 + e2))
                   (range n) (0, 1)) in
  (forall i, 0 <= i < n -> sig out i * (sig out i - 1) === 0) /\
  lc1 === inp.

Definition ValidateByteRange (byte_value is_valid : Z) : Prop :=
  (exists bit_converter_out, Num2Bits 8 byte_value bit_converter_out) /\
  is_valid === 1.

Definition EncodeBytesToField (byte_array : list Z) (field_element : Z) : Prop :=
  let accumulator :=
    fst (fold_left (fun '(accumulator, multiplier) j =>
                      (accumulator + sig byte_array j * multiplier,
                       multiplier * 256))
                   (range 31) (0, 1)) in
  (forall i, 0 <= i < 31 ->
     exists is_valid, ValidateByteRange (sig byte_array i) is_valid) /\
  field_element === accumulator.

(** The value wired to [field_encoders[c].byte_array[k]]. *)
Definition block_byte (maxLength : Z) (email_data : list Z) (c k : Z) : Z :=
  let data_index := c * 31 + k in
  if data_index <? maxLength then sig email_data data_index else 0.

(** [field_element] and [out] hold the output signals of the
    [field_encoders] and of the [hash_components]. *)
Definition SequentialPoseidonHash (maxLength chunkCount : Z)
    (email_data : list Z) (hash_result : Z) : Prop :=
  exists field_element out : list Z,
    (forall c, 0 <= c < chunkCount ->
       EncodeBytesToField (map (block_byte maxLength email_data c) (range 31))
                          (sig field_element c)) /\
    (forall i2, 0 <= i2 < chunkCount ->
       PoseidonComponent (if i2 =? 0 then 0 else sig out (i2 - 1))
                         (sig field_element i2) (sig out i2)) /\
    hash_result === sig out (chunkCount - 1).

Definition PatternMatcher (MAX_EMAIL_LEN PATTERN_LEN : Z)
    (email_data pattern selector : list Z) (match_found : Z) : Prop :=
  let VALID_POSITIONS := MAX_EMAIL_LEN - PATTERN_LEN + 1 in
  let selector_sum :=
    fold_left (fun selector_sum t => selector_sum + sig selector t)
              (range VALID_POSITIONS) 0 in
  (forall t, 0 <= t < VALID_POSITIONS ->
     sig selector t * (sig selector t - 1) === 0) /\
  selector_sum === 1 /\
  (forall u, VALID_POSITIONS <= u < MAX_EMAIL_LEN -> sig selector u === 0) /\
  (forall i t2, 0 <= i < PATTERN_LEN -> 0 <= t2 < VALID_POSITIONS ->
     sig selector t2 * (sig email_data (t2 + i) - sig pattern i) === 0) /\
  match_found === 1.

(** Step 1 of [EmailHeaderVerifier]: the hashing template on the buffer,
    its result constrained to the public [email_hash]. *)
Definition HashVerification (MAX_EMAIL_LEN : Z) (email_data : list Z)
    (email_hash : Z) : Prop :=
  exists hash_result,
    SequentialPoseidonHash MAX_EMAIL_LEN 265 email_data hash_result /\
    hash_result === email_hash.

(** Steps 2 to 4: a pattern matcher whose [match_found] is constrained
    to 1. *)
Definition PatternMatch (MAX_EMAIL_LEN PATTERN_LEN : Z)
    (email_data pattern selector : list Z) : Prop :=
  exists match_found,
    PatternMatcher MAX_EMAIL_LEN PATTERN_LEN email_data pattern selector
                   match_found /\
    match_found === 1.

Definition EmailHeaderVerifier (MAX_EMAIL_LEN : Z) (email_hash : Z)
    (email_data from_header_bytes to_header_bytes gmail_domain_bytes
     from_selector to_selector domain_selector : list Z) : Prop :=
  HashVerification MAX_EMAIL_LEN email_data email_hash /\
  PatternMatch MAX_EMAIL_LEN 5 email_data from_header_bytes from_selector /\
  PatternMatch MAX_EMAIL_LEN 3 email_data to_header_bytes to_selector /\
  PatternMatch MAX_EMAIL_LEN 10 email_data gmail_domain_bytes domain_selector.

(** [component main { public [ email_hash ] } = EmailHeaderVerifier(8192)] *)
Definition main := EmailHeaderVerifier 8192.

(** The integer that block [c] packs, and the hash chained over the first
    [n] blocks, as functions of the data (used to state what the hashing
    template forces). *)
Definition block_value (maxLength : Z) (email_data : list Z) (c : Z) : Z :=
  sum_range (fun k => block_byte maxLength email_data c k * 256 ^ k) 31.

Definition chain (maxLength : Z) (email_data : list Z) (n : Z) : Z :=
  fold_left (fun h c =>
               Poseidon (Field.F_e h)
                        (Field.F_e (block_value maxLength email_data c))
               mod Field.p)
            (range n) 0.

End Templates.
End Circuit.

(** ** The commitment and the selectors as the specification words them *)
Module Spec.
Section Commitment.
Variable Poseidon : Z -> Z -> Z.

Definition MAX_LEN : Z := 8192.

(** [CHUNK_COUNT = ceil(MAX_LEN / 31)] *)
Definition CHUNK_COUNT : Z := (MAX_LEN + 30) / 31.

(** The [i]-th 31-byte slice of the buffer, the last one zero-padded. *)
Definition chunk (buffer : list Z) (i : Z) : list Z :=
  map (fun k => if 31 * i + k <? MAX_LEN then sig buffer (31 * i + k) else 0)
      (range 31).

(** Little-endian positional weighting: byte [i] contributes
    [byte[i] * 256^i]. *)
Definition encode (bytes : list Z) : Z :=
  sum_range (fun i => sig bytes i * 256 ^ i) 31.

(** The two-input hash on field elements. *)
Definition Hash (h c : Z) : Z :=
  Poseidon (Field.F_e h) (Field.F_e c) mod Field.p.

(** [h_0 = 0], [h_{i+1} = Hash(h_i, chunk_i)], commitment [= h_{CHUNK_COUNT}]. *)
Definition fold_commitment (buffer : list Z) : Z :=
  fold_left (fun h i => Hash h (encode (chunk buffer i))) (range CHUNK_COUNT) 0.

(** A collision of the hash: two different pairs of canonical field
    elements on which it takes the same value. *)
Definition collision : Prop :=
  exists h1 c1 h2 c2,
    (0 <= h1 < Field.p /\ 0 <= c1 < Field.p) /\
    (0 <= h2 < Field.p /\ 0 <= c2 < Field.p) /\
    (h1, c1) <> (h2, c2) /\
    Poseidon h1 c1 mod Field.p = Poseidon h2 c2 mod Field.p.

End Commitment.

(** A selector that is one-hot within the valid window
    [0, MAX_LEN - PATTERN_LEN]: boolean at every index, the entries of the
    window summing to exactly 1, every entry past the window 0. *)
Definition one_hot_in_window (MAX_LEN PATTERN_LEN : Z) (selector : list Z) : Prop :=
  (forall t, 0 <= t < MAX_LEN ->
     Field.F_e (sig selector t) = 0 \/ Field.F_e (sig selector t) = 1) /\
  sum_range (fun t => Field.F_e (sig selector t)) (MAX_LEN - PATTERN_LEN + 1) = 1 /\
  (forall u, MAX_LEN - PATTERN_LEN < u < MAX_LEN -> Field.F_e (sig selector u) = 0).

(** [selector[t] * (buffer[t + i] - pattern[i]) == 0] for every pattern
    position [i] and every candidate start [t] of the window. *)
Definition products_vanish (MAX_LEN PATTERN_LEN : Z)
    (buffer pattern selector : list Z) : Prop :=
  forall i t, 0 <= i < PATTERN_LEN -> 0 <= t <= MAX_LEN - PATTERN_LEN ->
    sig selector t * (sig buffer (t + i) - sig pattern i) === 0.

(** The selector points at a single offset of the window, and the buffer
    holds the pattern there. *)
Definition selected_offset_matches (MAX_LEN PATTERN_LEN : Z)
    (buffer pattern selector : list Z) : Prop :=
  exists offset, 0 <= offset <= MAX_LEN - PATTERN_LEN /\
    (forall t, 0 <= t < MAX_LEN ->
       Field.F_e (sig selector t) = if t =? offset then 1 else 0) /\
    (forall i, 0 <= i < PATTERN_LEN -> sig buffer (offset + i) === sig pattern i).

End Spec.

(** ** The input builder (the email page's [buildCircuitInput]) *)
Module Builder.

(** [new Error(message)] *)
Inductive BuildError : Type := Error (message : string).

(** The input object handed to the witness calculator. *)
Record CircuitInput : Type := {
  eml_commitment : string;
  eml : list string;
  from_bytes : list string;
  to_bytes : list string;
  atg_bytes : list string;
  sel_from : list string;
  sel_to : list string;
  sel_atg : list string
}.

(** [n.toString()] of an integer: its decimal numeral. *)
Definition toString (n : Z) : string := NilZero.string_of_int (Z.to_int n).

(** The integer a decimal numeral denotes (what the witness calculator
    reads back from the strings of the input object). *)
Definition fromString (s : string) : Z :=
  match NilZero.int_of_string s with
  | Some d => Z.of_int d
  | None => 0
  end.

Definition MAX : Z := 8192.
Definition fromStr : string := "From:".
Definition toStr : string := "To:".
Definition atgStr : string := "@gmail.com".
Definition literals_not_found : string :=
  "Required literals not found in .eml (need From:, To:, and @gmail.com)".

(** The number held by an element of a [Uint8Array]. *)
Definition byte_value (b : byte) : Z := Z.of_N (Byte.to_N b).

(** [const eml = Array.from(bytes.slice(0, MAX));
     while (eml.length < MAX) eml.push(0);] *)
Definition padded (bytes : list byte) : list Z :=
  let eml := map byte_value (take (Z.to_nat MAX) bytes) in
  while_loop (Z.to_nat MAX)
             (fun eml => Z.of_nat (length eml) <? MAX)
             (fun eml => eml ++ [0])
             eml.

(** [Buffer.from(array)]: each entry is truncated to a byte. *)
Definition Buffer_from (a : list Z) : list Z := map (fun x => x mod 256) a.

(** [Buffer.from(s, 'ascii')]: the low eight bits of each character code. *)
Definition Buffer_from_ascii (s : string) : list Z :=
  map (fun c => Z.of_N (N_of_ascii c) mod 256) (list_ascii_of_string s).

(** [buf.indexOf(value)] is a primitive of Node's [Buffer]: the index of
    the first occurrence of [value] in [buf], or -1.  It is written here
    as a scan from the left that tests [value] at each offset. *)
Fixpoint starts_with (value buf : list Z) : bool :=
  match value, buf with
  | [], _ => true
  | _ :: _, [] => false
  | v :: value', b :: buf' => (v =? b) && starts_with value' buf'
  end.

Fixpoint indexOf_from (buf value : list Z) (i : Z) : Z :=
  if starts_with value buf then i
  else match buf with
       | [] => -1
       | _ :: rest => indexOf_from rest value (i + 1)
       end.

Definition indexOf (buf value : list Z) : Z := indexOf_from buf value 0.

(** [value] occurs in [buf] at offset [k]; [k] is its first occurrence;
    [value] occurs somewhere in [buf]. *)
Definition occurs_at (buf value : list Z) (k : nat) : Prop :=
  take (length value) (drop k buf) = value.

Definition first_occurrence (buf value : list Z) (k : nat) : Prop :=
  occurs_at buf value k /\ forall j, (j < k)%nat -> ~ occurs_at buf value j.

Definition contains (buf value : list Z) : Prop := exists k, occurs_at buf value k.

Definition is_byte (b : Z) : Prop := 0 <= b <= 255.

Definition pack31LE (bytes : list Z) : Z :=
  fst (for_loop 31 (fun i => i <? 31) (fun i => i + 1)
         (fun i '(acc, mul) =>
            let b := default 0 (bytes !! Z.to_nat i) in   (* bytes[i] || 0 *)
            (acc + b * mul, mul * 256))
         0 (0, 1)).

(** [Array.from(Buffer.from(s, 'ascii'))] *)
Definition strBytesAscii (s : string) : list Z := Buffer_from_ascii s.

(** [new Array(length).fill(0)], then [arr[pos] = 1] under the guard.
    [new Array(length)] takes a length that is a non-negative integer
    below 2^32 and throws a [RangeError] otherwise; the builder calls
    [oneHot] with [MAX] only, and the definition is meant for such a
    length. *)
Definition oneHot (length pos : Z) : list Z :=
  let arr := replicate (Z.to_nat length) 0 in
  if (0 <=? pos) && (pos <? length) then <[Z.to_nat pos := 1]> arr else arr.

Section WithPoseidon.
Variable Poseidon : Z -> Z -> Z.

(** The body of the hashing loop:
    [const chunk = pack31LE(eml.slice(off, off + 31));
     const out = poseidon([F.e(h), F.e(chunk)]);
     h = BigInt(F.toString(out));]
    where [F.toString] prints the canonical representative. *)
Definition hash_body (eml : list Z) (off : Z) (h : Z) : Z :=
  let chunk := pack31LE (slice eml off (off + 31)) in
  let out := Poseidon (Field.F_e h) (Field.F_e chunk) in
  out mod Field.p.

(** [let h = 0n; for (let off = 0; off < MAX; off += 31) { ... }] *)
Definition commitment (eml : list Z) : Z :=
  for_loop (Z.to_nat MAX) (fun off => off <? MAX) (fun off => off + 31)
           (hash_body eml) 0 0.

(** [buildCircuitInput] from the test of the three offsets on: the
    [throw], the hashing loop and the input object. *)
Definition assemble (eml : list Z) (idx_from idx_to idx_atg : Z)
    : BuildError + CircuitInput :=
  if (idx_from <? 0) || (idx_to <? 0) || (idx_atg <? 0)
  then inl (Error literals_not_found)
  else
    let h := commitment eml in
    inr {| eml_commitment := toString h;
           eml := map toString eml;
           from_bytes := map toString (strBytesAscii fromStr);
           to_bytes := map toString (strBytesAscii toStr);
           atg_bytes := map toString (strBytesAscii atgStr);
           sel_from := map toString (oneHot MAX idx_from);
           sel_to := map toString (oneHot MAX idx_to);
           sel_atg := map toString (oneHot MAX idx_atg) |}.

Definition buildCircuitInput (bytes : list byte) : BuildError + CircuitInput :=
  let eml := padded bytes in
  let buf := Buffer_from eml in
  let idx_from := indexOf buf (Buffer_from_ascii fromStr) in
  let idx_to := indexOf buf (Buffer_from_ascii toStr) in
  let idx_atg := indexOf buf (Buffer_from_ascii atgStr) in
  assemble eml idx_from idx_to idx_atg.

End WithPoseidon.

(** What the specification asks of an emitted selector: it has [MAX]
    entries, a single "1" at the offset of the pattern's first occurrence
    in the padded buffer and "0" everywhere else, and the emitted buffer
    holds the emitted pattern at that offset. *)
Definition marks_first_occurrence (buf pattern : list Z)
    (emitted_buf emitted_pattern selector : list string) : Prop :=
  exists offset : nat,
    first_occurrence buf pattern offset /\
    length selector = Z.to_nat MAX /\
    (forall i, (i < Z.to_nat MAX)%nat ->
       selector !! i = Some (if Nat.eqb i offset then "1" else "0")%string) /\
    take (length emitted_pattern) (drop offset emitted_buf) = emitted_pattern.

(** What the circuit asks of the selector of a pattern: the offset lies
    in the valid window, the selector read back as numbers is one-hot in
    that window, and the pattern matcher is satisfied. *)
Definition fits_window (idx : Z) (emitted_buf emitted_pattern selector : list string)
    : Prop :=
  let PATTERN_LEN := Z.of_nat (length emitted_pattern) in
  0 <= idx <= MAX - PATTERN_LEN /\
  sig (map fromString selector) idx = 1 /\
  (forall u, MAX - PATTERN_LEN + 1 <= u < MAX -> sig (map fromString selector) u = 0) /\
  Spec.one_hot_in_window MAX PATTERN_LEN (map fromString selector) /\
  Circuit.PatternMatch MAX PATTERN_LEN (map fromString emitted_buf)
    (map fromString emitted_pattern) (map fromString selector).

End Builder.

(** ** The identity registry ([NULLIDRegistry]) *)
Module Registry.

Record IdentityData : Type := {
  mainENSId : string;
  connectedEmail : string;
  organization : string;
  isHuman : bool;
  age : Z;            (* uint8 *)
  ofacStatus : Z;     (* uint8 *)
  publicInput : string;
  proof : string;
  timestamp : Z;      (* uint256 *)
  exists_ : bool
}.

(** The value of a mapping slot that was never written. *)
Definition no_identity : IdentityData :=
  {| mainENSId := ""; connectedEmail := ""; organization := "";
     isHuman := false; age := 0; ofacStatus := 0; publicInput := "";
     proof := ""; timestamp := 0; exists_ := false |}.

Record Storage : Type := {
  identities : gmap string IdentityData;
  ensToIdentifier : gmap string string;
  allIdentifiers : list string
}.

(** [identities[identifier]] *)
Definition identity_at (st : Storage) (identifier : string) : IdentityData :=
  default no_identity (identities st !! identifier).

(** A call either reverts, leaving the storage as it was, or returns
    the new storage and the event it emitted. *)
Inductive Revert : Type :=
  | RequireFailed (reason : string)
  | Panic (code : Z).

Inductive Event : Type :=
  | DataFieldUpdated (identifier fieldName newValue : string).

Definition Outcome : Type := Revert + Storage * Event.

(** [keccak256(bytes(a)) == keccak256(bytes(b))], the contract's test
    for equal strings (keccak256 taken as collision-free). *)
Definition same_string (a b : string) : bool := String.eqb a b.

(** Checked [uint8] subtraction of Solidity 0.8: underflow panics. *)
Definition uint8_sub (a b : Z) : Revert + Z :=
  if a <? b then inl (Panic 17) else inr (a - b).

(** [uint8(bytes(s)[0])] *)
Definition first_byte (s : string) : Revert + Z :=
  match s with
  | String c _ => inr (Z.of_N (N_of_ascii c))
  | EmptyString => inl (Panic 50)
  end.

Definition set_mainENSId (v : string) (d : IdentityData) : IdentityData :=
  {| mainENSId := v; connectedEmail := connectedEmail d;
     organization := organization d; isHuman := isHuman d; age := age d;
     ofacStatus := ofacStatus d; publicInput := publicInput d;
     proof := proof d; timestamp := timestamp d; exists_ := exists_ d |}.
Definition set_connectedEmail (v : string) (d : IdentityData) : IdentityData :=
  {| mainENSId := mainENSId d; connectedEmail := v;
     organization := organization d; isHuman := isHuman d; age := age d;
     ofacStatus := ofacStatus d; publicInput := publicInput d;
     proof := proof d; timestamp := timestamp d; exists_ := exists_ d |}.
Definition set_organization (v : string) (d : IdentityData) : IdentityData :=
  {| mainENSId := mainENSId d; connectedEmail := connectedEmail d;
     organization := v; isHuman := isHuman d; age := age d;
     ofacStatus := ofacStatus d; publicInput := publicInput d;
     proof := proof d; timestamp := timestamp d; exists_ := exists_ d |}.
Definition set_isHuman (v : bool) (d : IdentityData) : IdentityData :=
  {| mainENSId := mainENSId d; connectedEmail := connectedEmail d;
     organization := organization d; isHuman := v; age := age d;
     ofacStatus := ofacStatus d; publicInput := publicInput d;
     proof := proof d; timestamp := timestamp d; exists_ := exists_ d |}.
Definition set_age (v : Z) (d : IdentityData) : IdentityData :=
  {| mainENSId := mainENSId d; connectedEmail := connectedEmail d;
     organization := organization d; isHuman := isHuman d; age := v;
     ofacStatus := ofacStatus d; publicInput := publicInput d;
     proof := proof d; timestamp := timestamp d; exists_ := exists_ d |}.
Definition set_ofacStatus (v : Z) (d : IdentityData) : IdentityData :=
  {| mainENSId := mainENSId d; connectedEmail := connectedEmail d;
     organization := organization d; isHuman := isHuman d; age := age d;
     ofacStatus := v; publicInput := publicInput d;
     proof := proof d; timestamp := timestamp d; exists_ := exists_ d |}.
Definition set_publicInput (v : string) (d : IdentityData) : IdentityData :=
  {| mainENSId := mainENSId d; connectedEmail := connectedEmail d;
     organization := organization d; isHuman := isHuman d; age := age d;
     ofacStatus := ofacStatus d; publicInput := v;
     proof := proof d; timestamp := timestamp d; exists_ := exists_ d |}.
Definition set_proof (v : string) (d : IdentityData) : IdentityData :=
  {| mainENSId := mainENSId d; connectedEmail := connectedEmail d;
     organization := organization d; isHuman := isHuman d; age := age d;
     ofacStatus := ofacStatus d; publicInput := publicInput d;
     proof := v; timestamp := timestamp d; exists_ := exists_ d |}.
Definition set_timestamp (v : Z) (d : IdentityData) : IdentityData :=
  {| mainENSId := mainENSId d; connectedEmail := connectedEmail d;
     organization := organization d; isHuman := isHuman d; age := age d;
     ofacStatus := ofacStatus d; publicInput := publicInput d;
     proof := proof d; timestamp := v; exists_ := exists_ d |}.

(** The tail shared by every branch that does not revert:
    [identity.timestamp = block.timestamp; emit DataFieldUpdated(...)],
    with [identity] written back to [identities[identifier]]. *)
Definition finish (st : Storage) (ens : gmap string string)
    (block_timestamp : Z) (identifier fieldName newValue : string)
    (identity : IdentityData) : Outcome :=
  inr ({| identities :=
            <[identifier := set_timestamp block_timestamp identity]>
              (identities st);
          ensToIdentifier := ens;
          allIdentifiers := allIdentifiers st |},
       DataFieldUpdated identifier fieldName newValue).

(** The decoding shared by the [age] and [ofacStatus] branches:
    [require(bytes(newValue).length == 1, lengthReason)],
    [uint8 v = uint8(bytes(newValue)[0]) - 48],
    [require(v == 0 || v == 1, rangeReason)]. *)
Definition decode_flag (newValue lengthReason rangeReason : string)
    : Revert + Z :=
  if negb (Nat.eqb (String.length newValue) 1)
  then inl (RequireFailed lengthReason)
  else
    match first_byte newValue with
    | inl r => inl r
    | inr c =>
        match uint8_sub c 48 with
        | inl r => inl r
        | inr v =>
            if (v =? 0) || (v =? 1) then inr v
            else inl (RequireFailed rangeReason)
        end
    end.

Definition updateField (st : Storage) (block_timestamp : Z)
    (identifier fieldName newValue : string) : Outcome :=
  (* modifier onlyIdentityOwner *)
  if negb (exists_ (identity_at st identifier))
  then inl (RequireFailed "Identity does not exist")
  else
    let identity := identity_at st identifier in
    let ens := ensToIdentifier st in
    let commit := finish st ens block_timestamp identifier fieldName newValue in
    if same_string fieldName "mainENSId" then
      finish st (<[newValue := identifier]> (delete (mainENSId identity) ens))
             block_timestamp identifier fieldName newValue
             (set_mainENSId newValue identity)
    else if same_string fieldName "connectedEmail" then
      commit (set_connectedEmail newValue identity)
    else if same_string fieldName "organization" then
      commit (set_organization newValue identity)
    else if same_string fieldName "isHuman" then
      commit (set_isHuman (same_string newValue "true") identity)
    else if same_string fieldName "age" then
      match decode_flag newValue "Age value must be single character"
                        "Age must be 0 or 1" with
      | inl r => inl r
      | inr ageValue => commit (set_age ageValue identity)
      end
    else if same_string fieldName "ofacStatus" then
      match decode_flag newValue "OFAC value must be single character"
                        "OFAC status must be 0 or 1" with
      | inl r => inl r
      | inr ofacValue => commit (set_ofacStatus ofacValue identity)
      end
    else if same_string fieldName "publicInput" then
      commit (set_publicInput newValue identity)
    else if same_string fieldName "proof" then
      commit (set_proof newValue identity)
    else inl (RequireFailed "Invalid field name").

(** The stored flag a numeric field name denotes. *)
Definition flag (fieldName : string) (d : IdentityData) : Z :=
  if same_string fieldName "age" then age d else ofacStatus d.

(** The storage after a call: a revert rolls every write back. *)
Definition storage_after (st : Storage) (o : Outcome) : Storage :=
  match o with
  | inl _ => st
  | inr (st', _) => st'
  end.

(** [ensToIdentifier[ensId]]: a slot never written, or deleted, reads as
    the empty string. *)
Definition ensToIdentifier_at (st : Storage) (ensId : string) : string :=
  default EmptyString (ensToIdentifier st !! ensId).

(** [bytes(s).length] *)
Definition bytes_length (s : string) : Z := Z.of_nat (String.length s).

(** [require(condition, reason); rest] *)
Definition require {A : Type} (condition : bool) (reason : string)
    (rest : Revert + A) : Revert + A :=
  if condition then rest else inl (RequireFailed reason).

(** The three modifiers, each wrapping the body it guards ([_;]).
    [onlyIdentityOwner] tests that the identity exists and nothing else:
    it does not read [msg.sender]. *)
Definition onlyIdentityOwner {A : Type} (st : Storage) (identifier : string)
    (body : Revert + A) : Revert + A :=
  require (exists_ (identity_at st identifier)) "Identity does not exist" body.

Definition validAge {A : Type} (age : Z) (body : Revert + A) : Revert + A :=
  require ((age =? 0) || (age =? 1)) "Age must be 0 or 1" body.

Definition validOFAC {A : Type} (ofac : Z) (body : Revert + A) : Revert + A :=
  require ((ofac =? 0) || (ofac =? 1)) "OFAC status must be 0 or 1" body.

(** The events of [createIdentity] and [updateIdentity]; an [address] is
    held as a number. *)
Inductive IdentityEvent : Type :=
  | IdentityCreated (identifier ensId email : string) (creator : Z)
  | IdentityUpdated (identifier ensId : string) (updater : Z).

Definition createIdentity (st : Storage) (msg_sender block_timestamp : Z)
    (identifier ensId email organization : string) (isHuman : bool)
    (age ofacStatus : Z) (publicInput proof : string)
    : Revert + Storage * IdentityEvent :=
  validAge age (validOFAC ofacStatus (
    require (negb (exists_ (identity_at st identifier)))
            "Identity already exists" (
    require (0 <? bytes_length identifier) "Identifier cannot be empty" (
    require (0 <? bytes_length ensId) "ENS ID cannot be empty" (
      inr ({| identities :=
                <[identifier := {| mainENSId := ensId;
                                   connectedEmail := email;
                                   organization := organization;
                                   isHuman := isHuman;
                                   age := age;
                                   ofacStatus := ofacStatus;
                                   publicInput := publicInput;
                                   proof := proof;
                                   timestamp := block_timestamp;
                                   exists_ := true |}]>
                  (identities st);
              ensToIdentifier := <[ensId := identifier]> (ensToIdentifier st);
              allIdentifiers := allIdentifiers st ++ [identifier] |},
           IdentityCreated identifier ensId email msg_sender)))))).

Definition updateIdentity (st : Storage) (msg_sender block_timestamp : Z)
    (identifier ensId email organization : string) (isHuman : bool)
    (age ofacStatus : Z) (publicInput proof : string)
    : Revert + Storage * IdentityEvent :=
  validAge age (validOFAC ofacStatus (onlyIdentityOwner st identifier (
    let identity := identity_at st identifier in
    (* Update old ENS mapping if ENS ID changed *)
    let ens :=
      if negb (same_string (mainENSId identity) ensId)
      then <[ensId := identifier]>
             (delete (mainENSId identity) (ensToIdentifier st))
      else ensToIdentifier st in
    let identity := set_mainENSId ensId identity in
    let identity := set_connectedEmail email identity in
    let identity := set_organization organization identity in
    let identity := set_isHuman isHuman identity in
    let identity := set_age age identity in
    let identity := set_ofacStatus ofacStatus identity in
    let identity := set_publicInput publicInput identity in
    let identity := set_proof proof identity in
    let identity := set_timestamp block_timestamp identity in
    inr ({| identities := <[identifier := identity]> (identities st);
            ensToIdentifier := ens;
            allIdentifiers := allIdentifiers st |},
         IdentityUpdated identifier ensId msg_sender)))).

(** [string(abi.encodePacked(newValue))] for a [uint8]: the one-byte
    string whose byte is the number itself. *)
Definition encodePacked_uint8 (v : Z) : string :=
  String (ascii_of_N (Z.to_N v)) EmptyString.

Definition updateNumericField (st : Storage) (block_timestamp : Z)
    (identifier fieldName : string) (newValue : Z) : Outcome :=
  onlyIdentityOwner st identifier (
    require ((newValue =? 0) || (newValue =? 1)) "Value must be 0 or 1" (
      let identity := identity_at st identifier in
      let commit :=
        finish st (ensToIdentifier st) block_timestamp identifier fieldName
               (encodePacked_uint8 newValue) in
      if same_string fieldName "age" then
        commit (set_age newValue identity)
      else if same_string fieldName "ofacStatus" then
        commit (set_ofacStatus newValue identity)
      else inl (RequireFailed "Invalid numeric field name"))).

(** The view functions. *)
Definition getIdentity (st : Storage) (identifier : string)
    : Revert + IdentityData :=
  require (exists_ (identity_at st identifier)) "Identity does not exist"
          (inr (identity_at st identifier)).

Definition getIdentityByENS (st : Storage) (ensId : string)
    : Revert + IdentityData :=
  let identifier := ensToIdentifier_at st ensId in
  require (0 <? bytes_length identifier) "No identity found for this ENS"
          (inr (identity_at st identifier)).

Definition getAllIdentifiers (st : Storage) : list string := allIdentifiers st.

Definition getTotalIdentities (st : Storage) : Z :=
  Z.of_nat (length (allIdentifiers st)).

Definition identityExists (st : Storage) (identifier : string) : bool :=
  exists_ (identity_at st identifier).

Definition ensIsRegistered (st : Storage) (ensId : string) : bool :=
  0 <? bytes_length (ensToIdentifier_at st ensId).

Definition getIdentifierByENS (st : Storage) (ensId : string) : string :=
  ensToIdentifier_at st ensId.

(** *** Transactions

    The state-changing entry points of the contract, and the storage
    reached from deployment by a sequence of transactions.  A transaction
    that reverts leaves the storage as it was.  A [uint8] argument is a
    number here; one outside 0..255 does not decode, so that the call
    reverts before it starts, and here it fails the check of the flag,
    which reverts likewise.  (The functions inherited from [Ownable] do
    not touch the registry's storage.) *)
Inductive Call : Type :=
  | CreateIdentity (identifier ensId email organization : string)
      (isHuman : bool) (age ofacStatus : Z) (publicInput proof : string)
  | UpdateIdentity (identifier ensId email organization : string)
      (isHuman : bool) (age ofacStatus : Z) (publicInput proof : string)
  | UpdateField (identifier fieldName newValue : string)
  | UpdateNumericField (identifier fieldName : string) (newValue : Z).

Record Transaction : Type := {
  tx_sender : Z;       (* msg.sender *)
  tx_timestamp : Z;    (* block.timestamp *)
  tx_call : Call
}.

Definition committed {E : Type} (st : Storage) (o : Revert + Storage * E)
    : Storage :=
  match o with
  | inl _ => st
  | inr (st', _) => st'
  end.

Definition execute (st : Storage) (tx : Transaction) : Storage :=
  match tx_call tx with
  | CreateIdentity identifier ensId email organization isHuman age ofacStatus
                   publicInput proof =>
      committed st
        (createIdentity st (tx_sender tx) (tx_timestamp tx) identifier ensId
           email organization isHuman age ofacStatus publicInput proof)
  | UpdateIdentity identifier ensId email organization isHuman age ofacStatus
                   publicInput proof =>
      committed st
        (updateIdentity st (tx_sender tx) (tx_timestamp tx) identifier ensId
           email organization isHuman age ofacStatus publicInput proof)
  | UpdateField identifier fieldName newValue =>
      committed st (updateField st (tx_timestamp tx) identifier fieldName newValue)
  | UpdateNumericField identifier fieldName newValue =>
      committed st
        (updateNumericField st (tx_timestamp tx) identifier fieldName newValue)
  end.

(** The storage of a freshly deployed contract. *)
Definition deployed : Storage :=
  {| identities := empty; ensToIdentifier := empty; allIdentifiers := [] |}.

Definition run (txs : list Transaction) : Storage := fold_left execute txs deployed.

Definition reachable (st : Storage) : Prop := exists txs, st = run txs.

(** *** Consistency of the storage

    The flags of an identity are 0 or 1. *)
Definition binary_flags (d : IdentityData) : Prop :=
  (age d = 0 \/ age d = 1) /\ (ofacStatus d = 0 \/ ofacStatus d = 1).

(** What holds of every storage the contract can reach: the existing
    identities are exactly the listed identifiers, each listed once and
    none empty; a slot that was never created is blank; every flag is 0
    or 1; and a registered ENS name leads to an existing identity that
    carries this name. *)
Record consistent (st : Storage) : Prop := {
  listed_exists : forall identifier,
    exists_ (identity_at st identifier) = true <-> In identifier (allIdentifiers st);
  listed_once : List.NoDup (allIdentifiers st);
  listed_nonempty : forall identifier,
    In identifier (allIdentifiers st) -> identifier <> EmptyString;
  unlisted_blank : forall identifier,
    exists_ (identity_at st identifier) = false ->
    identities st !! identifier = None;
  flags_binary : forall identifier, binary_flags (identity_at st identifier);
  ens_sound : forall ensId identifier,
    ensToIdentifier st !! ensId = Some identifier ->
    identifier <> EmptyString ->
    exists_ (identity_at st identifier) = true /\
    mainENSId (identity_at st identifier) = ensId
}.

(** The identifier a call names. *)
Definition call_identifier (c : Call) : string :=
  match c with
  | CreateIdentity identifier _ _ _ _ _ _ _ _ => identifier
  | UpdateIdentity identifier _ _ _ _ _ _ _ _ => identifier
  | UpdateField identifier _ _ => identifier
  | UpdateNumericField identifier _ _ => identifier
  end.

(** The three ways a transaction that does not revert changes the
    storage, at the identifier it names: it creates an identity, it
    rewrites one together with its ENS name, or it rewrites one and leaves
    the ENS names alone. *)
Inductive step (st : Storage) (identifier : string) : Storage -> Prop :=
  | step_create d :
      exists_ (identity_at st identifier) = false ->
      identifier <> EmptyString ->
      exists_ d = true -> binary_flags d ->
      step st identifier
           {| identities := <[identifier := d]> (identities st);
              ensToIdentifier :=
                <[mainENSId d := identifier]> (ensToIdentifier st);
              allIdentifiers := allIdentifiers st ++ [identifier] |}
  | step_rename d :
      exists_ (identity_at st identifier) = true ->
      exists_ d = true ->
      (binary_flags (identity_at st identifier) -> binary_flags d) ->
      step st identifier
           {| identities := <[identifier := d]> (identities st);
              ensToIdentifier :=
                <[mainENSId d := identifier]>
                  (delete (mainENSId (identity_at st identifier))
                          (ensToIdentifier st));
              allIdentifiers := allIdentifiers st |}
  | step_write d :
      exists_ (identity_at st identifier) = true ->
      exists_ d = true ->
      mainENSId d = mainENSId (identity_at st identifier) ->
      (binary_flags (identity_at st identifier) -> binary_flags d) ->
      step st identifier
           {| identities := <[identifier := d]> (identities st);
              ensToIdentifier := ensToIdentifier st;
              allIdentifiers := allIdentifiers st |}.

(** What the branches of [updateField] other than [mainENSId] write to
    the identity, by field name. *)
Inductive field_written (fieldName newValue : string) (d : IdentityData)
    : IdentityData -> Prop :=
  | write_connectedEmail : fieldName = "connectedEmail"%string ->
      field_written fieldName newValue d (set_connectedEmail newValue d)
  | write_organization : fieldName = "organization"%string ->
      field_written fieldName newValue d (set_organization newValue d)
  | write_isHuman : fieldName = "isHuman"%string ->
      field_written fieldName newValue d
        (set_isHuman (same_string newValue "true") d)
  | write_age v : fieldName = "age"%string ->
      (newValue = "0"%string /\ v = 0 \/ newValue = "1"%string /\ v = 1) ->
      field_written fieldName newValue d (set_age v d)
  | write_ofacStatus v : fieldName = "ofacStatus"%string ->
      (newValue = "0"%string /\ v = 0 \/ newValue = "1"%string /\ v = 1) ->
      field_written fieldName newValue d (set_ofacStatus v d)
  | write_publicInput : fieldName = "publicInput"%string ->
      field_written fieldName newValue d (set_publicInput newValue d)
  | write_proof : fieldName = "proof"%string ->
      field_written fieldName newValue d (set_proof newValue d).

(** The text a field name denotes in an identity (the five [string]
    members of the struct). *)
Definition text_field (fieldName : string) (d : IdentityData) : string :=
  if same_string fieldName "mainENSId" then mainENSId d
  else if same_string fieldName "connectedEmail" then connectedEmail d
  else if same_string fieldName "organization" then organization d
  else if same_string fieldName "publicInput" then publicInput d
  else if same_string fieldName "proof" then proof d
  else EmptyString.

(** The digit that writes a flag through [updateField]. *)
Definition flag_digit (v : Z) : string := if v =? 0 then "0" else "1".

End Registry.

(** ** Concrete inputs used to run the definitions *)
Module Samples.

Definition crlf : string :=
  String (ascii_of_nat 13) (String (ascii_of_nat 10) EmptyString).

Definition bytes_of (s : string) : list byte := list_byte_of_string s.

(** The scenario email of the specification. *)
Definition email : list byte :=
  bytes_of ("From: a@x.com" ++ crlf ++ "To: b@x.com" ++ crlf
            ++ "some@gmail.com body")%string.

(** The same email written out byte by byte. *)
Definition email_bytes : list byte :=
  [x46; x72; x6f; x6d; x3a; x20; x61; x40; x78; x2e;
   x63; x6f; x6d; x0d; x0a; x54; x6f; x3a; x20; x62;
   x40; x78; x2e; x63; x6f; x6d; x0d; x0a; x73; x6f;
   x6d; x65; x40; x67; x6d; x61; x69; x6c; x2e; x63;
   x6f; x6d; x20; x62; x6f; x64; x79].

(** Emails that lack exactly one of the literals. *)
Definition email_without_To : list byte :=
  bytes_of ("From: a@x.com" ++ crlf ++ "some@gmail.com body")%string.
Definition email_without_From : list byte :=
  bytes_of ("To: b@x.com" ++ crlf ++ "some@gmail.com body")%string.

(** A stand-in for the hash, to evaluate the builder on concrete
    inputs; no theorem depends on it. *)
Definition stand_in_hash (a b : Z) : Z := a * 31 + b + 7.

(** A second stand-in: another function on the integers that yields the
    same field elements. *)
Definition shifted_hash (a b : Z) : Z := stand_in_hash a b + Field.p.

Definition alice : Registry.IdentityData :=
  {| Registry.mainENSId := "alice.eth";
     Registry.connectedEmail := "alice@gmail.com";
     Registry.organization := "NULL";
     Registry.isHuman := true;
     Registry.age := 1;
     Registry.ofacStatus := 0;
     Registry.publicInput := "";
     Registry.proof := "";
     Registry.timestamp := 1700000000;
     Registry.exists_ := true |}.

Definition registry : Registry.Storage :=
  {| Registry.identities := {[ "id-1"%string := alice ]};
     Registry.ensToIdentifier := {[ "alice.eth"%string := "id-1"%string ]};
     Registry.allIdentifiers := ["id-1"%string] |}.

End Samples.

(* ================================================================== *)
(** * Part II: properties *)
(* ================================================================== *)

(** ** Soundness of the primality certificates *)
Module PrimalityFacts.
Import Primality.

Lemma powmod_pos_spec a e m : powmod_pos a e m = a ^ Zpos e mod m.
Proof.
  induction e as [e IH|e IH|]; simpl powmod_pos.
  - rewrite IH, Pos2Z.inj_xI.
    replace (2 * Z.pos e + 1) with (Z.pos e + Z.pos e + 1) by lia.
    rewrite !Z.pow_add_r, Z.pow_1_r by lia.
    rewrite <- Zmult_mod.
    now rewrite Zmult_mod_idemp_l.
  - rewrite IH, Pos2Z.inj_xO.
    replace (2 * Z.pos e) with (Z.pos e + Z.pos e) by lia.
    rewrite Z.pow_add_r by lia. now rewrite <- Zmult_mod.
  - now rewrite Z.pow_1_r.
Qed.

Lemma powmod_spec a e m : 0 <= e -> powmod a e m = a ^ e mod m.
Proof.
  destruct e as [|e|e]; intros He; try lia; simpl powmod.
  - reflexivity.
  - apply powmod_pos_spec.
Qed.

Lemma bpowmod_pos_spec a e m :
  BigN.to_Z (bpowmod_pos a e m) = powmod_pos (BigN.to_Z a) e (BigN.to_Z m).
Proof.
  induction e as [e IH|e IH|]; simpl.
  - now rewrite BigN.spec_modulo, BigN.spec_mul, BigN.spec_modulo,
      BigN.spec_mul, IH.
  - now rewrite BigN.spec_modulo, BigN.spec_mul, IH.
  - now rewrite BigN.spec_modulo.
Qed.

Lemma fast_powmod_spec a e m :
  0 <= a -> 0 <= m -> fast_powmod a e m = powmod a e m.
Proof.
  intros Ha Hm. destruct e as [|e|e]; simpl; try reflexivity.
  rewrite bpowmod_pos_spec, !BigN.spec_of_N, !Z2N.id by assumption.
  reflexivity.
Qed.

Lemma zprod_pos qs : List.Forall Z.prime qs -> 0 < zprod qs.
Proof.
  induction 1 as [|q qs Hq _ IH]; simpl; [lia|].
  apply Z.prime_ge_2 in Hq. nia.
Qed.

Lemma zprod_divide q qs : In q qs -> (q | zprod qs).
Proof.
  induction qs as [|r qs IH]; simpl; [tauto|].
  intros [->|Hin].
  - apply Z.divide_factor_l.
  - apply Z.divide_mul_r; auto.
Qed.

(** A proper divisor of a product of primes already divides the
    product with one of the primes removed. *)
Lemma divisor_misses_factor qs :
  List.Forall Z.prime qs ->
  forall d, 0 < d -> (d | zprod qs) -> d <> zprod qs ->
  exists q, In q qs /\ (d | zprod qs / q).
Proof.
  induction 1 as [|q qs Hq Hqs IH]; intros d Hd Hdiv Hne; simpl in *.
  - exfalso. apply Hne. apply Z.divide_1_r_nonneg in Hdiv; lia.
  - pose proof (Z.prime_ge_2 _ Hq) as Hq2.
    pose proof (zprod_pos _ Hqs) as HR.
    destruct (Z.BoolSpec_divide q d) as [Hqd|Hqd].
    + destruct Hqd as [d' ->].
      assert (Hd' : 0 < d') by nia.
      assert (Hdiv' : (d' | zprod qs)).
      { destruct Hdiv as [k Hk]. exists k. nia. }
      assert (Hne' : d' <> zprod qs) by (intros ->; apply Hne; lia).
      destruct (IH d' Hd' Hdiv' Hne') as (q' & Hin & [k Hk]).
      exists q'. split; [now right|].
      pose proof (zprod_divide _ _ Hin) as [c Hc].
      assert (Hq' : q' <> 0).
      { intros ->. rewrite Z.mul_0_r in Hc. lia. }
      rewrite Hc in Hk |- *. rewrite Z.div_mul in Hk by exact Hq'.
      replace (q * (c * q')) with (q * c * q') by ring.
      rewrite Z.div_mul by exact Hq'.
      exists k. rewrite Hk. ring.
    + exists q. split; [now left|].
      rewrite Z.mul_comm, Z.div_mul by lia.
      apply Z.gauss with (m := q); [exact Hdiv|].
      rewrite Z.gcd_comm. now apply Z.coprime_prime_l.
Qed.

Section Lucas.
Variables (N a : Z) (qs : list Z).
Hypothesis HN : 1 < N.
Hypothesis Hqs : List.Forall Z.prime qs.
Hypothesis Hprod : zprod qs = N - 1.
Hypothesis Hfermat : a ^ (N - 1) mod N = 1.
Hypothesis Hord : List.Forall (fun q => a ^ ((N - 1) / q) mod N <> 1) qs.

Let x : Zstar N := Zstar.of_Zmod (Zmod.of_Z N a).

Lemma lucas_coprime : Z.coprime (a mod N) N.
Proof using HN Hfermat.
  apply Z.coprime_mod_l_iff, Z.Bezout_coprime_iff.
  replace (N - 1) with (Z.succ (N - 2)) in Hfermat by lia.
  rewrite Z.pow_succ_r in Hfermat by lia.
  exists (a ^ (N - 2)), (- (a * a ^ (N - 2) / N)).
  pose proof (Z.div_mod (a * a ^ (N - 2)) N ltac:(lia)). lia.
Qed.

Lemma lucas_to_Z_pow e : 0 <= e ->
  Zmod.to_Z (Zstar.to_Zmod (Zstar.pow x e)) = a ^ e mod N.
Proof using HN Hfermat.
  intros He.
  rewrite Zstar.to_Zmod_pow, Zmod.unsigned_pow_nonneg_r by exact He.
  unfold x. rewrite Zstar.to_Zmod_of_Zmod.
  - rewrite Zmod.unsigned_of_Z. apply Z.mod_pow_l.
  - rewrite Zmod.unsigned_of_Z. apply lucas_coprime.
Qed.

Lemma lucas_pow_one e :
  0 <= e -> (Zstar.pow x e = Zstar.one <-> a ^ e mod N = 1).
Proof using HN Hfermat.
  intros He. rewrite <- lucas_to_Z_pow by exact He. split.
  - intros ->. rewrite Zstar.to_Zmod_1. apply Zmod.unsigned_1_pos. lia.
  - intros H. apply Zstar.to_Zmod_inj, Zmod.unsigned_inj.
  rewrite H, Zstar.to_Zmod_1. symmetry. apply Zmod.unsigned_1_pos. lia.
Qed.

Let phi : Z := Z.of_nat (length (Zstar.elements N)).

(** The order of [a] is [N - 1]; by Euler's theorem it divides the
    number of units. *)
Lemma lucas_order_divides_phi : (N - 1 | phi).
Proof using All.
  set (g := Z.gcd (N - 1) phi).
  assert (Hg : Zstar.pow x g = Zstar.one).
  { destruct (Z.gcd_bezout (N - 1) phi g eq_refl) as (u & v & Huv).
  rewrite <- Huv, Zstar.pow_add_r.
  rewrite (Z.mul_comm u), (Z.mul_comm v), !Zstar.pow_mul_r.
  unfold phi at 1. rewrite Zstar.euler.
  rewrite (proj2 (lucas_pow_one (N - 1) ltac:(lia)) Hfermat).
  now rewrite !Zstar.pow_1_l, Zstar.mul_1_l. }
  assert (Hg0 : 0 < g).
  { pose proof (Z.gcd_nonneg (N - 1) phi).
  assert (g <> 0); [|lia].
  unfold g. intros H0. apply Z.gcd_eq_0_l in H0. lia. }
  destruct (Z.eq_dec g (N - 1)) as [Heq|Hne].
  - rewrite <- Heq. apply Z.gcd_divide_r.
  - exfalso.
  destruct (divisor_misses_factor qs Hqs g Hg0) as (q & Hin & [k Hk]).
  + rewrite Hprod. apply Z.gcd_divide_l.
  + now rewrite Hprod.
  + rewrite Hprod in Hk.
    apply (proj1 (List.Forall_forall _ _) Hord q Hin).
    assert (Hq : 0 <= (N - 1) / q).
    { pose proof (Z.prime_ge_2 _ (proj1 (List.Forall_forall _ _) Hqs q Hin)).
      apply Z.div_pos; lia. }
    apply lucas_pow_one; [exact Hq|].
    rewrite Hk, Z.mul_comm, Zstar.pow_mul_r, Hg. apply Zstar.pow_1_l.
Qed.

Lemma lucas_phi_bounds : 0 < phi <= N - 1.
Proof using HN N a phi.
  unfold phi. split.
  - pose proof (Zstar.in_elements (@Zstar.one N)) as Hin.
  apply in_split in Hin as (l1 & l2 & ->).
  rewrite List.length_app. simpl. lia.
  - unfold Zstar.elements. destruct (Z.eqb_spec N 0); [lia|].
  rewrite List.length_map.
  set (f := fun x0 : Zmod N => Z.gcd (Zmod.to_Z x0) N =? 1).
  pose proof (List.filter_length f (Zmod.elements N)) as Hlen.
  rewrite Zmod.length_elements in Hlen.
  assert (1 <= length (List.filter (fun x0 => negb (f x0)) (Zmod.elements N)))%nat.
  { assert (Hin : In (Zmod.of_Z N 0)
                    (List.filter (fun x0 => negb (f x0)) (Zmod.elements N))).
    { apply List.filter_In. split; [apply Zmod.in_elements; lia|].
      unfold f. rewrite Zmod.unsigned_of_Z, Z.mod_0_l, Z.gcd_0_l by lia.
      destruct (Z.eqb_spec (Z.abs N) 1); [lia|reflexivity]. }
    apply in_split in Hin as (l1 & l2 & ->).
    rewrite List.length_app. simpl. lia. }
  lia.
Qed.

Lemma lucas_all_units n : 1 < n < N -> Z.coprime n N.
Proof using All.
  intros Hn.
  assert (Hphi : phi = N - 1).
  { pose proof lucas_phi_bounds as Hb.
  pose proof (Z.divide_pos_le _ _ (proj1 Hb) lucas_order_divides_phi). lia. }
  destruct (Z.BoolSpec_coprime n N) as [H|H]; [exact H|exfalso].
  unfold phi, Zstar.elements in Hphi. destruct (Z.eqb_spec N 0); [lia|].
  rewrite List.length_map in Hphi.
  set (f := fun x0 : Zmod N => Z.gcd (Zmod.to_Z x0) N =? 1) in Hphi.
  pose proof (List.filter_length f (Zmod.elements N)) as Hlen.
  rewrite Zmod.length_elements in Hlen.
  assert (2 <= length (List.filter (fun x0 => negb (f x0)) (Zmod.elements N)))%nat;
  [|lia].
  apply (List.NoDup_incl_length (l := [Zmod.of_Z N 0; Zmod.of_Z N n])).
  - constructor; [|constructor; [intros []|constructor]].
  intros [Heq|[]]. apply Zmod.of_Z_inj in Heq.
  rewrite Z.mod_0_l, Z.mod_small in Heq; lia.
  - intros y [<-|[<-|[]]]; apply List.filter_In;
    (split; [apply Zmod.in_elements; lia|]);
    unfold f; rewrite Zmod.unsigned_of_Z.
  + rewrite Z.mod_0_l, Z.gcd_0_l by lia.
    destruct (Z.eqb_spec (Z.abs N) 1); [lia|reflexivity].
  + rewrite Z.mod_small by lia.
    destruct (Z.eqb_spec (Z.gcd n N) 1); [contradiction|reflexivity].
Qed.

Theorem lucas_prime : Z.prime N.
Proof using All.
  split; [exact HN|]. intros n Hn [k Hk].
  pose proof (lucas_all_units n Hn) as Hc. unfold Z.coprime in Hc.
  assert (Z.gcd n N = n); [|lia].
  rewrite Hk at 1. rewrite (Z.mul_comm k n), Z.gcd_mul_diag_l; lia.
Qed.
End Lucas.

Lemma lucas_check_sound N a qs :
  List.Forall Z.prime qs -> lucas_check N a qs = true -> Z.prime N.
Proof.
  unfold lucas_check. intros Hqs H.
  apply andb_prop in H as [H Hord]. apply andb_prop in H as [H Hf].
  apply andb_prop in H as [H Hp]. apply andb_prop in H as [HN Ha].
  apply Z.ltb_lt in HN. apply Z.leb_le in Ha. apply Z.eqb_eq in Hp, Hf.
  rewrite fast_powmod_spec, powmod_spec in Hf by lia.
  apply (lucas_prime N a qs); auto.
  rewrite List.forallb_forall in Hord. apply List.Forall_forall. intros q Hq.
  specialize (Hord q Hq). apply negb_true_iff, Z.eqb_neq in Hord.
  rewrite fast_powmod_spec, powmod_spec in Hord; [exact Hord| |lia|lia].
  rewrite List.Forall_forall in Hqs. pose proof (Z.prime_ge_2 _ (Hqs q Hq)).
  apply Z.div_pos; lia.
Qed.

Lemma pratt_check_sound certs : forall known,
  List.Forall Z.prime known -> List.Forall Z.prime (pratt_check known certs).
Proof.
  induction certs as [|[[N a] qs] rest IH]; intros known Hk; simpl; [exact Hk|].
  destruct (forallb _ qs) eqn:Hin; simpl; [|constructor].
  destruct (lucas_check N a qs) eqn:Hl; [|constructor].
  apply IH. constructor; [|exact Hk].
  apply (lucas_check_sound N a qs); [|exact Hl].
  rewrite List.forallb_forall in Hin. apply List.Forall_forall. intros q Hq.
  specialize (Hin q Hq). apply List.existsb_exists in Hin as (r & Hr & Hqr).
  apply Z.eqb_eq in Hqr. subst r.
  rewrite List.Forall_forall in Hk. now apply Hk.
Qed.

End PrimalityFacts.

(** ** The field *)
Module FieldFacts.
Import Field.

Lemma p_certificate_ok :
  hd 0 (Primality.pratt_check [2] p_certificate) = p.
Proof. vm_compute. reflexivity. Qed.

Theorem p_prime : Z.prime p.
Proof.
  assert (H2 : List.Forall Z.prime [2]) by (repeat constructor; apply Z.prime_2).
  pose proof (PrimalityFacts.pratt_check_sound p_certificate [2] H2) as H.
  pose proof p_certificate_ok as E.
  destruct (Primality.pratt_check [2] p_certificate) as [|q l];
    [discriminate E|].
  simpl in E. subst q. now inversion H.
Qed.

Lemma p_pos : 0 < p.
Proof. reflexivity. Qed.

(** 31 bytes fit in a field element. *)
Lemma p_above_31_bytes : 256 ^ 31 < p.
Proof. reflexivity. Qed.

Lemma ceq_refl a : a === a.
Proof. reflexivity. Qed.

Lemma ceq_sym a b : a === b -> b === a.
Proof. unfold ceq. congruence. Qed.

Lemma ceq_trans a b c : a === b -> b === c -> a === c.
Proof. unfold ceq. congruence. Qed.

Lemma ceq_mod a : a mod p === a.
Proof. unfold ceq. apply Z.mod_mod. pose proof p_pos. lia. Qed.

Lemma ceq_small a b : 0 <= a < p -> 0 <= b < p -> a === b -> a = b.
Proof. unfold ceq. intros Ha Hb. now rewrite !Z.mod_small. Qed.

Lemma ceq_add a a' b b' : a === a' -> b === b' -> a + b === a' + b'.
Proof.
  unfold ceq. intros Ha Hb.
  rewrite (Zplus_mod a b), (Zplus_mod a' b'). now rewrite Ha, Hb.
Qed.

Lemma ceq_mul a a' b b' : a === a' -> b === b' -> a * b === a' * b'.
Proof.
  unfold ceq. intros Ha Hb.
  rewrite (Zmult_mod a b), (Zmult_mod a' b'). now rewrite Ha, Hb.
Qed.

Lemma ceq_sub a a' b b' : a === a' -> b === b' -> a - b === a' - b'.
Proof.
  unfold ceq. intros Ha Hb.
  rewrite (Zminus_mod a b), (Zminus_mod a' b'). now rewrite Ha, Hb.
Qed.

Lemma ceq_0_divide a : a === 0 <-> (p | a).
Proof.
  unfold ceq. rewrite Z.mod_0_l by (pose proof p_pos; lia).
  pose proof p_pos. split.
  - intros H0. apply Z.mod_divide; [lia|exact H0].
  - intros H0. apply Z.mod_divide in H0; [exact H0|lia].
Qed.

(** The field has no zero divisors. *)
Lemma ceq_mul_0 a b : a * b === 0 -> a === 0 \/ b === 0.
Proof.
  rewrite !ceq_0_divide. intros H.
  now apply (Z.divide_prime_mul a b p p_prime).
Qed.

Lemma ceq_1_mod a : a === 1 <-> a mod p = 1.
Proof.
  unfold ceq. rewrite (Z.mod_small 1) by (pose proof p_above_31_bytes; lia).
  reflexivity.
Qed.

Lemma ceq_0_mod a : a === 0 <-> a mod p = 0.
Proof. unfold ceq. now rewrite Z.mod_0_l by (pose proof p_pos; lia). Qed.

(** [x * (x - 1) === 0] forces [x] to be the field element 0 or 1. *)
Lemma ceq_boolean x : x * (x - 1) === 0 <-> x mod p = 0 \/ x mod p = 1.
Proof.
  split.
  - intros H. apply ceq_mul_0 in H as [H|H].
    + left. now apply ceq_0_mod.
    + right. apply ceq_1_mod.
      pose proof (ceq_add _ _ 1 1 H (ceq_refl 1)) as H1.
      replace (x - 1 + 1) with x in H1 by ring. exact H1.
  - intros [H|H].
    + replace 0 with (0 * (x - 1)) by ring.
      apply ceq_mul; [now apply ceq_0_mod|reflexivity].
    + replace 0 with (x * (1 - 1)) by ring.
      apply ceq_mul; [reflexivity|].
      apply ceq_sub; [now apply ceq_1_mod|reflexivity].
Qed.

End FieldFacts.

(** ** Arrays and loops *)
Module LoopFacts.

Lemma range_nonpos n : n <= 0 -> range n = [].
Proof. intros Hn. unfold range. now replace (Z.to_nat n) with 0%nat by lia. Qed.

Lemma range_succ n : 0 <= n -> range (n + 1) = range n ++ [n].
Proof.
  intros Hn. unfold range.
  replace (Z.to_nat (n + 1)) with (S (Z.to_nat n)) by lia.
  rewrite seq_S, map_app. simpl. now rewrite Z2Nat.id by lia.
Qed.

Lemma range_cons n : 0 < n -> range n = 0 :: map Z.succ (range (n - 1)).
Proof.
  intros Hn. unfold range.
  replace (Z.to_nat n) with (S (Z.to_nat (n - 1))) by lia.
  simpl. f_equal. rewrite <- seq_shift, !List.map_map.
  apply List.map_ext. intros k. lia.
Qed.

Lemma in_range i n : In i (range n) <-> 0 <= i < n.
Proof.
  unfold range. rewrite List.in_map_iff. split.
  - intros (k & <- & Hk). apply List.in_seq in Hk. lia.
  - intros Hi. exists (Z.to_nat i). split; [lia|]. apply List.in_seq. lia.
Qed.

Lemma length_range n : length (range n) = Z.to_nat n.
Proof. unfold range. now rewrite List.length_map, List.length_seq. Qed.

Lemma sig_range n i : 0 <= i < n -> sig (range n) i = i.
Proof.
  intros Hi. unfold sig, range.
  rewrite (nth_indep _ 0 (Z.of_nat 0)) by (rewrite List.length_map, List.length_seq; lia).
  rewrite List.map_nth, List.seq_nth by lia. lia.
Qed.

Lemma sig_map_range (f : Z -> Z) n i :
  0 <= i < n -> sig (map f (range n)) i = f i.
Proof.
  intros Hi. unfold sig.
  rewrite (nth_indep _ 0 (f 0)) by (rewrite List.length_map, length_range; lia).
  rewrite List.map_nth. f_equal. now apply sig_range.
Qed.

Lemma sig_lookup (a : list Z) i : 0 <= i -> sig a i = default 0 (a !! Z.to_nat i).
Proof. intros _. unfold sig. apply nth_lookup. Qed.

Lemma lookup_map {A B} (f : A -> B) (l : list A) (i : nat) :
  map f l !! i = f <$> (l !! i).
Proof. exact (list_lookup_fmap f l i). Qed.

Lemma fold_left_ext {A B} (f g : A -> B -> A) l a :
  (forall a b, In b l -> f a b = g a b) -> fold_left f l a = fold_left g l a.
Proof.
  revert a. induction l as [|b l IH]; intros a H; simpl; [reflexivity|].
  rewrite H by now left. apply IH. intros a' b' Hb. apply H. now right.
Qed.

Lemma fold_left_map {A B C} (f : A -> B -> A) (g : C -> B) l a :
  fold_left f (map g l) a = fold_left (fun a x => f a (g x)) l a.
Proof. revert a. induction l as [|x l IH]; intros a; simpl; auto. Qed.

(** A counting loop [for (i = lo; i < hi; i += step)] visits
    [lo, lo + step, ...]; with enough fuel it ends by its condition. *)
Lemma for_loop_count {St} fuel hi step (body : Z -> St -> St) : forall lo s,
  0 < step ->
  (Z.to_nat ((hi - lo + step - 1) / step) <= fuel)%nat ->
  for_loop fuel (fun i => i <? hi) (fun i => i + step) body lo s =
  fold_left (fun s k => body (lo + step * k) s)
            (range ((hi - lo + step - 1) / step)) s.
Proof.
  induction fuel as [|fuel IH]; intros lo s Hstep Hfuel.
  - rewrite range_nonpos by lia. reflexivity.
  - simpl. destruct (Z.ltb_spec lo hi) as [Hlt|Hge].
    + assert (Hn : (hi - lo + step - 1) / step
                   = (hi - (lo + step) + step - 1) / step + 1).
      { replace (hi - lo + step - 1) with (hi - (lo + step) + step - 1 + 1 * step)
          by ring.
        rewrite Z.div_add by lia. reflexivity. }
      assert (Hpos : 0 <= (hi - (lo + step) + step - 1) / step).
      { apply Z.div_pos; lia. }
      rewrite IH by lia. rewrite Hn.
      set (n := (hi - (lo + step) + step - 1) / step) in *.
      rewrite (range_cons (n + 1)) by lia.
      replace (n + 1 - 1) with n by ring.
      simpl. replace (lo + step * 0) with lo by ring.
      rewrite fold_left_map.
      apply fold_left_ext. intros a b _. f_equal. lia.
    + rewrite range_nonpos; [reflexivity|].
      apply Z.lt_succ_r. apply Z.div_lt_upper_bound; lia.
Qed.

Lemma for_loop_ext {St} fuel cond incr (body1 body2 : Z -> St -> St) :
  (forall i s, body1 i s = body2 i s) ->
  forall i s, for_loop fuel cond incr body1 i s = for_loop fuel cond incr body2 i s.
Proof.
  intros Hbody. induction fuel as [|fuel IH]; intros i s; simpl; [reflexivity|].
  destruct (cond i); [|reflexivity]. now rewrite Hbody, IH.
Qed.

Lemma sum_range_0 f : sum_range f 0 = 0.
Proof. reflexivity. Qed.

Lemma sum_range_succ f n : 0 <= n -> sum_range f (n + 1) = sum_range f n + f n.
Proof.
  intros Hn. unfold sum_range. rewrite range_succ by exact Hn.
  now rewrite List.fold_left_app.
Qed.

Lemma sum_range_ext f g n :
  (forall i, 0 <= i < n -> f i = g i) -> sum_range f n = sum_range g n.
Proof.
  intros H. unfold sum_range. apply fold_left_ext.
  intros a b Hb. apply in_range in Hb. now rewrite H.
Qed.

Lemma sum_range_bounds f n m :
  0 <= n -> (forall i, 0 <= i < n -> 0 <= f i <= m) ->
  0 <= sum_range f n <= n * m.
Proof.
  intros Hn. pattern n. apply natlike_ind; [|clear n Hn|exact Hn].
  - intros _. rewrite sum_range_0. lia.
  - intros k Hk IH H. unfold Z.succ. rewrite sum_range_succ by exact Hk.
    assert (0 <= sum_range f k <= k * m) by (apply IH; intros i Hi; apply H; lia).
    assert (0 <= f k <= m) by (apply H; lia). lia.
Qed.

Lemma sum_range_nonneg f n :
  (forall i, 0 <= i < n -> 0 <= f i) -> 0 <= sum_range f n.
Proof.
  destruct (Z.le_gt_cases 0 n) as [Hn|Hn].
  - pattern n. apply natlike_ind; [| |exact Hn].
    + intros _. rewrite sum_range_0. lia.
    + intros k Hk IH H. unfold Z.succ. rewrite sum_range_succ by exact Hk.
      assert (0 <= sum_range f k) by (apply IH; intros i Hi; apply H; lia).
      assert (0 <= f k) by (apply H; lia). lia.
  - intros _. unfold sum_range. rewrite range_nonpos by lia. simpl. lia.
Qed.

Lemma sum_range_zero f n :
  0 <= n -> (forall i, 0 <= i < n -> 0 <= f i) -> sum_range f n = 0 ->
  forall i, 0 <= i < n -> f i = 0.
Proof.
  intros Hn. pattern n. apply natlike_ind; [|clear n Hn|exact Hn].
  - intros _ _ i Hi. lia.
  - intros k Hk IH H Hsum i Hi. unfold Z.succ in *.
    rewrite sum_range_succ in Hsum by exact Hk.
    assert (0 <= f k) by (apply H; lia).
    assert (0 <= sum_range f k) by (apply sum_range_nonneg; intros j Hj; apply H; lia).
    destruct (Z.eq_dec i k) as [->|Hne]; [lia|].
    apply IH; [intros j Hj; apply H; lia|lia|lia].
Qed.

(** Booleans that sum to 1: exactly one of them is 1. *)
Lemma sum_range_one_hot f n :
  0 <= n -> (forall t, 0 <= t < n -> f t = 0 \/ f t = 1) -> sum_range f n = 1 ->
  exists off, 0 <= off < n /\ forall t, 0 <= t < n -> f t = if t =? off then 1 else 0.
Proof.
  intros Hn. pattern n. apply natlike_ind; [|clear n Hn|exact Hn].
  - intros _ H. rewrite sum_range_0 in H. lia.
  - intros k Hk IH Hb Hsum. unfold Z.succ in *.
    rewrite sum_range_succ in Hsum by exact Hk.
    destruct (Hb k ltac:(lia)) as [E|E]; rewrite E in Hsum.
    + destruct IH as (off & Hoff & Hall);
        [intros t Ht; apply Hb; lia|lia|].
      exists off. split; [lia|]. intros t Ht.
      destruct (Z.eq_dec t k) as [->|Hne].
      * rewrite E. destruct (Z.eqb_spec k off); [lia|reflexivity].
      * apply Hall. lia.
    + assert (Hz : forall i, 0 <= i < k -> f i = 0).
      { apply sum_range_zero; [exact Hk| |lia].
        intros i Hi. destruct (Hb i ltac:(lia)); lia. }
      exists k. split; [lia|]. intros t Ht.
      destruct (Z.eqb_spec t k) as [->|Hne]; [exact E|apply Hz; lia].
Qed.

Lemma sum_range_indicator off n :
  0 <= off < n -> sum_range (fun t => if t =? off then 1 else 0) n = 1.
Proof.
  intros Hoff.
  assert (H : forall m, 0 <= m -> m <= n ->
            sum_range (fun t => if t =? off then 1 else 0) m
            = if off <? m then 1 else 0).
  { intros m Hm. pattern m. apply natlike_ind; [| |exact Hm].
    - intros _. rewrite sum_range_0. destruct (Z.ltb_spec off 0); [lia|reflexivity].
    - intros k Hk IH Hkn. unfold Z.succ in *.
      rewrite sum_range_succ, IH by lia.
      destruct (Z.ltb_spec off k), (Z.eqb_spec k off), (Z.ltb_spec off (k + 1)); lia. }
  rewrite H by lia. destruct (Z.ltb_spec off n); [reflexivity|lia].
Qed.

(** The (accumulator, multiplier) loops compute a weighted sum. *)
Lemma weighted_fold (f : Z -> Z) (b n : Z) : 0 <= n ->
  fold_left (fun '(acc, mul) i => (acc + f i * mul, mul * b)) (range n) (0, 1)
  = (sum_range (fun i => f i * b ^ i) n, b ^ n).
Proof.
  intros Hn. pattern n. apply natlike_ind; [reflexivity| |exact Hn].
  intros m Hm IH. unfold Z.succ.
  rewrite range_succ, List.fold_left_app, IH by exact Hm. simpl.
  rewrite sum_range_succ by exact Hm.
  f_equal. rewrite Z.pow_add_r by lia. ring.
Qed.

End LoopFacts.

(** ** The constraint system *)
Module CircuitFacts.
Import Field FieldFacts LoopFacts Circuit.

Lemma sum_range_ceq f g n :
  0 <= n -> (forall i, 0 <= i < n -> f i === g i) ->
  sum_range f n === sum_range g n.
Proof.
  intros Hn. pattern n. apply natlike_ind; [reflexivity| |exact Hn].
  intros m Hm IH H. unfold Z.succ. rewrite !sum_range_succ by exact Hm.
  apply ceq_add; [apply IH; intros i Hi; apply H; lia|apply H; lia].
Qed.

(** A little-endian sum of digits below the base stays below the
    matching power of the base. *)
Lemma digits_bound (f : Z -> Z) (b n : Z) :
  1 < b -> 0 <= n -> (forall i, 0 <= i < n -> 0 <= f i < b) ->
  0 <= sum_range (fun i => f i * b ^ i) n < b ^ n.
Proof.
  intros Hb Hn. pattern n. apply natlike_ind; [|clear n Hn|exact Hn].
  - intros _. rewrite sum_range_0. simpl. lia.
  - intros m Hm IH H. unfold Z.succ. rewrite sum_range_succ by exact Hm.
    rewrite Z.pow_add_r, Z.pow_1_r by lia.
    assert (0 <= sum_range (fun i => f i * b ^ i) m < b ^ m)
      by (apply IH; intros i Hi; apply H; lia).
    assert (0 <= f m < b) by (apply H; lia).
    assert (0 < b ^ m) by (apply Z.pow_pos_nonneg; lia).
    nia.
Qed.

(** Binary digits recombine to the number. *)
Lemma bits_recombine w n :
  0 <= n -> sum_range (fun i => (w / 2 ^ i) mod 2 * 2 ^ i) n = w mod 2 ^ n.
Proof.
  intros Hn. pattern n. apply natlike_ind; [|clear n Hn|exact Hn].
  - rewrite sum_range_0. simpl. now rewrite Z.mod_1_r.
  - intros m Hm IH. unfold Z.succ. rewrite sum_range_succ, IH by exact Hm.
    rewrite Z.pow_add_r, Z.pow_1_r by lia.
    assert (0 < 2 ^ m) by (apply Z.pow_pos_nonneg; lia).
    rewrite Z.rem_mul_r by lia. ring.
Qed.

Lemma Num2Bits_lc1 n inp out :
  0 <= n ->
  Num2Bits n inp out <->
  (forall i, 0 <= i < n -> sig out i * (sig out i - 1) === 0) /\
  sum_range (fun i => sig out i * 2 ^ i) n === inp.
Proof.
  intros Hn. unfold Num2Bits.
  rewrite (fold_left_ext _ (fun '(acc, mul) i => (acc + sig out i * mul, mul * 2))).
  - now rewrite weighted_fold by exact Hn.
  - intros [lc1 e2] i _. f_equal. ring.
Qed.

(** The 8-bit decomposition exists exactly for the field elements
    0, ..., 255. *)
Lemma Num2Bits_8_range inp :
  (exists out, Num2Bits 8 inp out) <-> 0 <= inp mod p <= 255.
Proof.
  split.
  - intros (out & H). apply Num2Bits_lc1 in H as [Hbits Hsum]; [|lia].
    assert (Hcan : sum_range (fun i => sig out i * 2 ^ i) 8
                   === sum_range (fun i => (sig out i mod p) * 2 ^ i) 8).
    { apply sum_range_ceq; [lia|]. intros i Hi.
      apply ceq_mul; [apply ceq_sym, ceq_mod|reflexivity]. }
    assert (Hb : 0 <= sum_range (fun i => (sig out i mod p) * 2 ^ i) 8 < 2 ^ 8).
    { apply digits_bound; [lia|lia|]. intros i Hi.
      destruct (proj1 (ceq_boolean _) (Hbits i Hi)) as [-> | ->]; lia. }
    pose proof p_above_31_bytes as Hp.
    assert (E : inp mod p = sum_range (fun i => (sig out i mod p) * 2 ^ i) 8).
    { rewrite <- (Z.mod_small (sum_range _ 8) p) by (simpl in Hb |- *; lia).
      symmetry. exact (ceq_trans _ _ _ (ceq_sym _ _ Hcan) Hsum). }
    rewrite E. simpl in Hb. lia.
  - intros Hr. set (w := inp mod p) in *.
    exists (map (fun i => (w / 2 ^ i) mod 2) (range 8)).
    apply Num2Bits_lc1; [lia|]. split.
    + intros i Hi. rewrite sig_map_range by exact Hi.
      apply ceq_boolean.
      pose proof p_above_31_bytes.
      pose proof (Z.mod_pos_bound (w / 2 ^ i) 2 ltac:(lia)).
      rewrite Z.mod_small by lia. lia.
    + rewrite (sum_range_ext _ (fun i => (w / 2 ^ i) mod 2 * 2 ^ i))
        by (intros i Hi; now rewrite sig_map_range).
      rewrite bits_recombine by lia.
      change (2 ^ 8) with 256. rewrite Z.mod_small by lia.
      apply ceq_mod.
Qed.

Lemma ValidateByteRange_range byte_value :
  (exists is_valid, ValidateByteRange byte_value is_valid)
  <-> 0 <= byte_value mod p <= 255.
Proof.
  unfold ValidateByteRange. rewrite <- Num2Bits_8_range. split.
  - intros (_ & H & _). exact H.
  - intros H. exists 1. split; [exact H|reflexivity].
Qed.

Lemma EncodeBytesToField_spec byte_array field_element :
  EncodeBytesToField byte_array field_element <->
  (forall i, 0 <= i < 31 -> 0 <= sig byte_array i mod p <= 255) /\
  field_element === sum_range (fun j => sig byte_array j * 256 ^ j) 31.
Proof.
  unfold EncodeBytesToField. rewrite weighted_fold by lia. simpl fst.
  split; intros [Hr He]; (split; [|exact He]); intros i Hi;
    apply ValidateByteRange_range, Hr, Hi.
Qed.

(** *** The pattern matcher *)

Lemma selector_sum_canonical selector n :
  0 <= n < p ->
  (forall t, 0 <= t < n -> F_e (sig selector t) = 0 \/ F_e (sig selector t) = 1) ->
  (sum_range (sig selector) n === 1
   <-> sum_range (fun t => F_e (sig selector t)) n = 1).
Proof.
  intros Hn Hb.
  assert (Hc : sum_range (sig selector) n
               === sum_range (fun t => F_e (sig selector t)) n).
  { apply sum_range_ceq; [lia|]. intros t _. apply ceq_sym, ceq_mod. }
  assert (Hr : 0 <= sum_range (fun t => F_e (sig selector t)) n <= n * 1).
  { apply sum_range_bounds; [lia|]. intros t Ht. destruct (Hb t Ht) as [-> | ->]; lia. }
  rewrite ceq_1_mod. unfold ceq in Hc. rewrite Hc, Z.mod_small by lia.
  reflexivity.
Qed.

Lemma PatternMatcher_spec MAX_EMAIL_LEN PATTERN_LEN email_data pattern selector
    match_found :
  1 <= PATTERN_LEN <= MAX_EMAIL_LEN -> MAX_EMAIL_LEN < p ->
  PatternMatcher MAX_EMAIL_LEN PATTERN_LEN email_data pattern selector match_found
  <->
  F_e match_found = 1 /\
  Spec.one_hot_in_window MAX_EMAIL_LEN PATTERN_LEN selector /\
  Spec.products_vanish MAX_EMAIL_LEN PATTERN_LEN email_data pattern selector.
Proof.
  intros HPL Hp. unfold PatternMatcher, Spec.one_hot_in_window, Spec.products_vanish.
  fold (sum_range (sig selector) (MAX_EMAIL_LEN - PATTERN_LEN + 1)).
  set (V := MAX_EMAIL_LEN - PATTERN_LEN + 1).
  split.
  - intros (Hbool & Hsum & Hout & Hprod & Hmf).
    assert (Hb : forall t, 0 <= t < MAX_EMAIL_LEN ->
              F_e (sig selector t) = 0 \/ F_e (sig selector t) = 1).
    { intros t Ht. destruct (Z.lt_ge_cases t V) as [Hlt|Hge].
      - apply ceq_boolean, Hbool. lia.
      - left. apply ceq_0_mod, Hout. lia. }
    split; [now apply ceq_1_mod|]. split; [split; [exact Hb|split]|].
    + apply selector_sum_canonical; [unfold V; lia| |exact Hsum].
      intros t Ht. apply Hb. unfold V in Ht. lia.
    + intros u Hu. apply ceq_0_mod, Hout. unfold V. lia.
    + intros i t Hi Ht. apply Hprod; [exact Hi|unfold V; lia].
  - intros (Hmf & (Hb & Hsum & Hout) & Hprod).
    split; [|split; [|split; [|split]]].
    + intros t Ht. apply ceq_boolean, Hb. unfold V in Ht. lia.
    + apply selector_sum_canonical; [unfold V; lia| |exact Hsum].
      intros t Ht. apply Hb. unfold V in Ht. lia.
    + intros u Hu. apply ceq_0_mod, Hout. unfold V in Hu. lia.
    + intros i t Hi Ht. apply Hprod; [exact Hi|unfold V in Ht; lia].
    + now apply ceq_1_mod.
Qed.

(** With a one-hot selector the per-candidate products vanish exactly
    when the buffer holds the pattern at the selected offset. *)
Lemma one_hot_products_selected MAX_LEN PATTERN_LEN buffer pattern selector :
  1 <= PATTERN_LEN <= MAX_LEN ->
  Spec.one_hot_in_window MAX_LEN PATTERN_LEN selector /\
  Spec.products_vanish MAX_LEN PATTERN_LEN buffer pattern selector
  <-> Spec.selected_offset_matches MAX_LEN PATTERN_LEN buffer pattern selector.
Proof.
  intros HPL.
  unfold Spec.one_hot_in_window, Spec.products_vanish, Spec.selected_offset_matches.
  split.
  - intros ((Hb & Hsum & Hout) & Hprod).
    destruct (sum_range_one_hot (fun t => F_e (sig selector t))
                (MAX_LEN - PATTERN_LEN + 1)) as (off & Hoff & Hsel);
      [lia|intros t Ht; apply Hb; lia|exact Hsum|].
    exists off. split; [lia|]. split.
    + intros t Ht. destruct (Z.le_gt_cases t (MAX_LEN - PATTERN_LEN)) as [Hle|Hgt].
      * apply Hsel. lia.
      * rewrite Hout by lia. destruct (Z.eqb_spec t off); [lia|reflexivity].
    + intros i Hi. specialize (Hprod i off Hi ltac:(lia)).
      assert (H1 : sig selector off === 1).
      { apply ceq_1_mod. pose proof (Hsel off ltac:(lia)) as E.
        now rewrite Z.eqb_refl in E. }
      pose proof (ceq_mul _ _ (sig buffer (off + i) - sig pattern i)
                    (sig buffer (off + i) - sig pattern i) H1 (ceq_refl _)) as H2.
      rewrite Z.mul_1_l in H2.
      pose proof (ceq_trans _ _ _ (ceq_sym _ _ H2) Hprod) as H3.
      pose proof (ceq_add _ _ (sig pattern i) (sig pattern i) H3 (ceq_refl _)) as H4.
      now replace (sig buffer (off + i) - sig pattern i + sig pattern i)
        with (sig buffer (off + i)) in H4 by ring.
  - intros (off & Hoff & Hsel & Hmatch). split; [split; [|split]|].
    + intros t Ht. rewrite Hsel by exact Ht. destruct (t =? off); auto.
    + rewrite (sum_range_ext _ (fun t => if t =? off then 1 else 0))
        by (intros t Ht; apply Hsel; lia).
      apply sum_range_indicator. lia.
    + intros u Hu. rewrite Hsel by lia. destruct (Z.eqb_spec u off); [lia|reflexivity].
    + intros i t Hi Ht. destruct (Z.eq_dec t off) as [->|Hne].
      * replace 0 with (sig selector off * (sig pattern i - sig pattern i)) by ring.
        apply ceq_mul; [reflexivity|].
        apply ceq_sub; [now apply Hmatch|reflexivity].
      * replace 0 with (0 * (sig buffer (t + i) - sig pattern i)) by ring.
        apply ceq_mul; [|reflexivity].
        apply ceq_0_mod. change (F_e (sig selector t) = 0). rewrite Hsel by lia.
        destruct (Z.eqb_spec t off); [lia|reflexivity].
Qed.

Section Hashing.
Variable Poseidon : Z -> Z -> Z.

Lemma Hash_ceq h h' c c' :
  h === h' -> c === c' -> Spec.Hash Poseidon h c = Spec.Hash Poseidon h' c'.
Proof. unfold Spec.Hash, F_e, ceq. now intros -> ->. Qed.

Lemma Hash_canonical h c :
  Spec.Hash Poseidon h c mod p = Spec.Hash Poseidon h c.
Proof. unfold Spec.Hash. apply Z.mod_mod. pose proof p_pos. lia. Qed.

Lemma chain_succ maxLength data n :
  0 <= n ->
  chain Poseidon maxLength data (n + 1)
  = Spec.Hash Poseidon (chain Poseidon maxLength data n)
                     (block_value maxLength data n).
Proof.
  intros Hn. unfold chain. rewrite range_succ by exact Hn.
  now rewrite List.fold_left_app.
Qed.

Lemma chain_canonical maxLength data n :
  chain Poseidon maxLength data n mod p = chain Poseidon maxLength data n.
Proof.
  destruct (Z.le_gt_cases n 0) as [Hn|Hn].
  - unfold chain. rewrite range_nonpos by exact Hn. reflexivity.
  - replace n with (n - 1 + 1) by ring. rewrite chain_succ by lia.
  apply Hash_canonical.
Qed.

(** The hashing template determines its result: it is satisfiable
    exactly when every block byte is a byte, and then [hash_result]
    is the chained hash of the block encodings. *)
Lemma SequentialPoseidonHash_spec maxLength chunkCount email_data hash_result :
  1 <= chunkCount ->
  SequentialPoseidonHash Poseidon maxLength chunkCount email_data hash_result
  <->
  (forall c k, 0 <= c < chunkCount -> 0 <= k < 31 ->
   0 <= block_byte maxLength email_data c k mod p <= 255) /\
  hash_result mod p = chain Poseidon maxLength email_data chunkCount.
Proof.
  intros Hcc. split.
  - intros (fe & out & Henc & Hpos & Hres).
  assert (Hfe : forall c, 0 <= c < chunkCount ->
            sig fe c === block_value maxLength email_data c).
  { intros c Hc. destruct (proj1 (EncodeBytesToField_spec _ _) (Henc c Hc))
      as [_ He].
    rewrite (sum_range_ext _
               (fun k => block_byte maxLength email_data c k * 256 ^ k)) in He
      by (intros i Hi; now rewrite sig_map_range).
    exact He. }
  split.
  + intros c k Hc Hk.
    destruct (proj1 (EncodeBytesToField_spec _ _) (Henc c Hc)) as [Hr _].
    specialize (Hr k Hk). now rewrite sig_map_range in Hr.
  + assert (Hout : forall i, 0 <= i -> i < chunkCount ->
              sig out i mod p = chain Poseidon maxLength email_data (i + 1)).
    { intros i Hi. pattern i. apply natlike_ind; [| |exact Hi].
      - intros H0. specialize (Hpos 0 ltac:(lia)). simpl in Hpos.
        rewrite chain_succ by lia. unfold PoseidonComponent, ceq in Hpos.
        rewrite Hpos. apply Hash_ceq; [reflexivity|apply Hfe; lia].
      - intros j Hj IH Hlt. unfold Z.succ in *.
        specialize (Hpos (j + 1) ltac:(lia)).
        destruct (Z.eqb_spec (j + 1) 0) as [?|_]; [lia|].
        replace (j + 1 - 1) with j in Hpos by ring.
        rewrite chain_succ by lia. unfold PoseidonComponent, ceq in Hpos.
        rewrite Hpos. apply Hash_ceq; [|apply Hfe; lia].
        unfold ceq. rewrite IH by lia. symmetry. apply chain_canonical. }
    unfold ceq in Hres. rewrite Hres, Hout by lia.
    f_equal. ring.
  - intros [Hbytes Hres].
  exists (map (block_value maxLength email_data) (range chunkCount)),
         (map (fun i => chain Poseidon maxLength email_data (i + 1))
              (range chunkCount)).
  split; [|split].
  + intros c Hc. apply EncodeBytesToField_spec. split.
    * intros i Hi. rewrite sig_map_range by exact Hi. now apply Hbytes.
    * rewrite sig_map_range by exact Hc.
      rewrite (sum_range_ext _
                 (fun k => block_byte maxLength email_data c k * 256 ^ k))
        by (intros i Hi; now rewrite sig_map_range).
      reflexivity.
  + intros i Hi.
    set (fe := map (block_value maxLength email_data) (range chunkCount)).
    set (out := map (fun i => chain Poseidon maxLength email_data (i + 1))
                    (range chunkCount)).
    assert (Efe : sig fe i = block_value maxLength email_data i)
      by (apply sig_map_range; exact Hi).
    assert (Eout : sig out i = chain Poseidon maxLength email_data (i + 1))
      by (apply (sig_map_range (fun i => chain Poseidon maxLength email_data (i + 1)));
          exact Hi).
    assert (Ein : (if i =? 0 then 0 else sig out (i - 1))
                  = chain Poseidon maxLength email_data i).
    { destruct (Z.eqb_spec i 0) as [->|Hne]; [reflexivity|].
      unfold out.
      rewrite (sig_map_range (fun i => chain Poseidon maxLength email_data (i + 1)))
        by lia.
      f_equal. ring. }
    rewrite Efe, Eout, Ein. unfold PoseidonComponent, ceq.
    rewrite chain_canonical, chain_succ by lia.
    reflexivity.
  + rewrite sig_map_range by lia. unfold ceq.
    rewrite chain_canonical, Hres. f_equal. ring.
Qed.

(** Every element of the buffer passes through a range check. *)
Lemma SequentialPoseidonHash_bytes maxLength chunkCount email_data hash_result :
  1 <= chunkCount -> maxLength <= 31 * chunkCount ->
  SequentialPoseidonHash Poseidon maxLength chunkCount email_data hash_result ->
  forall i, 0 <= i < maxLength -> 0 <= F_e (sig email_data i) <= 255.
Proof.
  intros Hcc Hcover Hsat i Hi.
  apply SequentialPoseidonHash_spec in Hsat as [Hbytes _]; [|exact Hcc].
  pose proof (Z.div_mod i 31 ltac:(lia)) as Hdm.
  pose proof (Z.mod_pos_bound i 31 ltac:(lia)) as Hk.
  assert (Hc : 0 <= i / 31 < chunkCount).
  { split; [apply Z.div_pos; lia|]. apply Z.div_lt_upper_bound; lia. }
  specialize (Hbytes (i / 31) (i mod 31) Hc Hk).
  unfold block_byte in Hbytes.
  replace (i / 31 * 31 + i mod 31) with i in Hbytes by lia.
  destruct (Z.ltb_spec i maxLength); [exact Hbytes|lia].
Qed.

End Hashing.

End CircuitFacts.

(** ** The input builder *)
Module BuilderFacts.
Import Field FieldFacts LoopFacts Circuit Builder.

(** *** Decimal numerals *)

Lemma fromString_toString n : fromString (toString n) = n.
Proof.
  unfold fromString, toString.
  destruct n as [|q|q]; [reflexivity| |].
  - rewrite NilZero.isi.
    + apply (DecimalZ.of_to (Zpos q)).
    + simpl. intros [= E]. now apply (DecimalPos.Unsigned.to_uint_nonnil q).
    + discriminate.
  - rewrite NilZero.isi.
    + apply (DecimalZ.of_to (Zneg q)).
    + discriminate.
    + simpl. intros [= E]. now apply (DecimalPos.Unsigned.to_uint_nonnil q).
Qed.

Lemma toString_inj m n : toString m = toString n -> m = n.
Proof.
  intros E. rewrite <- (fromString_toString m), <- (fromString_toString n).
  now rewrite E.
Qed.

Lemma map_fromString_toString l : map fromString (map toString l) = l.
Proof.
  rewrite List.map_map. rewrite <- (List.map_id l) at 2.
  apply List.map_ext. intros n. apply fromString_toString.
Qed.

(** *** Bytes and the padded buffer *)

Lemma byte_value_is_byte b : is_byte (byte_value b).
Proof.
  unfold is_byte, byte_value. pose proof (Byte.to_N_bounded b). lia.
Qed.

(** The padding loop appends the missing zeros and ends by its
    condition. *)
Lemma push_zeros (M : Z) fuel : forall eml : list Z,
  (Z.to_nat M - length eml <= fuel)%nat ->
  while_loop fuel (fun eml => Z.of_nat (length eml) <? M)
             (fun eml => eml ++ [0]) eml
  = eml ++ replicate (Z.to_nat M - length eml) 0.
Proof.
  induction fuel as [|fuel IH]; intros eml Hfuel; cbn [while_loop].
  - replace (Z.to_nat M - length eml)%nat with 0%nat by lia.
    cbn [replicate]. now rewrite app_nil_r.
  - destruct (Z.ltb_spec (Z.of_nat (length eml)) M) as [Hlt|Hge].
    + rewrite IH by (rewrite length_app; cbn [length]; lia).
      rewrite length_app. cbn [length].
      replace (Z.to_nat M - length eml)%nat
        with (S (Z.to_nat M - (length eml + 1)))%nat by lia.
      cbn [replicate]. now rewrite <- app_assoc.
    + replace (Z.to_nat M - length eml)%nat with 0%nat by lia.
      cbn [replicate]. now rewrite app_nil_r.
Qed.

Lemma padded_closed bytes :
  padded bytes
  = map byte_value (take (Z.to_nat MAX) bytes)
    ++ replicate (Z.to_nat MAX - length (map byte_value (take (Z.to_nat MAX) bytes))) 0.
Proof. unfold padded. apply (push_zeros MAX). lia. Qed.

Lemma padded_length bytes : length (padded bytes) = Z.to_nat MAX.
Proof.
  rewrite padded_closed, length_app, length_replicate, length_map, length_take.
  lia.
Qed.

Lemma padded_bytes bytes : Forall is_byte (padded bytes).
Proof.
  rewrite padded_closed. apply Forall_app. split.
  - apply Forall_fmap, Forall_forall. intros b _. apply byte_value_is_byte.
  - apply Forall_replicate. unfold is_byte. lia.
Qed.

Lemma Buffer_from_bytes a : Forall is_byte a -> Buffer_from a = a.
Proof.
  unfold Buffer_from. induction 1 as [|b a Hb _ IH]; simpl; [reflexivity|].
  unfold is_byte in Hb. rewrite IH, Z.mod_small by lia. reflexivity.
Qed.

Lemma sig_is_byte a i : Forall is_byte a -> is_byte (sig a i).
Proof.
  intros Ha. unfold sig. rewrite nth_lookup.
  destruct (a !! Z.to_nat i) as [b|] eqn:E; simpl.
  - exact (proj1 (Forall_lookup _ _) Ha _ _ E).
  - unfold is_byte. lia.
Qed.

Lemma sig_beyond a i : Z.of_nat (length a) <= i -> sig a i = 0.
Proof. intros Hi. unfold sig. apply nth_overflow. lia. Qed.

(** *** [oneHot] *)

Lemma oneHot_length len pos : length (oneHot len pos) = Z.to_nat len.
Proof.
  unfold oneHot. destruct (_ && _);
    now rewrite ?length_insert, length_replicate.
Qed.

Lemma oneHot_lookup len pos (i : nat) :
  (i < Z.to_nat len)%nat ->
  oneHot len pos !! i
  = Some (if (0 <=? pos) && (pos <? len) && (Z.of_nat i =? pos) then 1 else 0).
Proof.
  intros Hi. unfold oneHot.
  destruct (Z.leb_spec 0 pos), (Z.ltb_spec pos len); simpl;
    try (rewrite lookup_replicate_2 by lia; reflexivity).
  destruct (Z.eqb_spec (Z.of_nat i) pos) as [E|Hne].
  - replace (Z.to_nat pos) with i by lia.
    rewrite list_lookup_insert_eq by (rewrite length_replicate; lia). reflexivity.
  - rewrite list_lookup_insert_ne by lia.
    rewrite lookup_replicate_2 by lia. reflexivity.
Qed.

Lemma oneHot_sig len pos i :
  0 <= i < len ->
  sig (oneHot len pos) i = if (0 <=? pos) && (pos <? len) && (i =? pos) then 1 else 0.
Proof.
  intros Hi. unfold sig. rewrite nth_lookup, oneHot_lookup by lia.
  now rewrite Z2Nat.id by lia.
Qed.

(** *** [indexOf] *)

Lemma starts_with_spec value : forall buf,
  starts_with value buf = true <-> take (length value) buf = value.
Proof.
  induction value as [|v value IH]; intros buf; simpl.
  - rewrite take_0. tauto.
  - destruct buf as [|b buf]; simpl; [split; discriminate|].
    rewrite andb_true_iff, Z.eqb_eq, IH. split.
    + intros [-> ->]. reflexivity.
    + intros [= -> E]. now rewrite E.
Qed.

Lemma occurs_at_0 buf value : occurs_at buf value 0 <-> starts_with value buf = true.
Proof. unfold occurs_at. rewrite drop_0. symmetry. apply starts_with_spec. Qed.

Lemma occurs_at_S b buf value k :
  occurs_at (b :: buf) value (S k) <-> occurs_at buf value k.
Proof. reflexivity. Qed.

Lemma occurs_at_length buf value k :
  occurs_at buf value k -> (k + length value <= length buf)%nat \/ value = [].
Proof.
  unfold occurs_at. intros E.
  assert (H : length (take (length value) (drop k buf)) = length value)
    by now rewrite E.
  rewrite length_take, length_drop in H.
  destruct value as [|v value]; [now right|left].
  rewrite length_cons in *. lia.
Qed.

(** [indexOf_from] returns the offset of the first occurrence, counted
    from [i0], or -1 when there is none. *)
Lemma indexOf_from_spec value : forall buf i0,
  (indexOf_from buf value i0 = -1 /\ forall k, ~ occurs_at buf value k) \/
  (exists k, indexOf_from buf value i0 = i0 + Z.of_nat k /\
             first_occurrence buf value k).
Proof.
  induction buf as [|b buf IH]; intros i0; simpl.
  - destruct (starts_with value []) eqn:E.
    + right. exists 0%nat. split; [lia|]. split; [now apply occurs_at_0|].
      intros j Hj. lia.
    + left. split; [reflexivity|]. intros k Hk.
      assert (occurs_at [] value 0); [|apply occurs_at_0 in H; congruence].
      unfold occurs_at in *. now rewrite drop_nil in *.
  - destruct (starts_with value (b :: buf)) eqn:E.
    + right. exists 0%nat. split; [lia|]. split; [now apply occurs_at_0|].
      intros j Hj. lia.
    + destruct (IH (i0 + 1)) as [[Hr Hno]|(k & Hr & Hk & Hmin)].
      * left. split; [exact Hr|]. intros [|k] Hk.
        -- apply occurs_at_0 in Hk. congruence.
        -- now apply (Hno k).
      * right. exists (S k). split; [lia|]. split; [exact Hk|].
        intros [|j] Hj Hocc.
        -- apply occurs_at_0 in Hocc. congruence.
        -- apply (Hmin j); [lia|exact Hocc].
Qed.

Lemma first_occurrence_unique buf value k1 k2 :
  first_occurrence buf value k1 -> first_occurrence buf value k2 -> k1 = k2.
Proof.
  intros [H1 M1] [H2 M2].
  destruct (Nat.lt_trichotomy k1 k2) as [Hlt|[Heq|Hgt]]; [|exact Heq|].
  - exfalso. exact (M2 _ Hlt H1).
  - exfalso. exact (M1 _ Hgt H2).
Qed.

Lemma indexOf_spec buf value :
  (indexOf buf value = -1 /\ forall k, ~ occurs_at buf value k) \/
  (exists k, indexOf buf value = Z.of_nat k /\ first_occurrence buf value k).
Proof. exact (indexOf_from_spec value buf 0). Qed.

Lemma indexOf_nonneg_iff buf value :
  0 <= indexOf buf value <-> exists k, occurs_at buf value k.
Proof.
  destruct (indexOf_spec buf value) as [[-> Hno]|(k & -> & Hk & _)].
  - split; [lia|]. intros (k & Hk). now apply Hno in Hk.
  - split; [eauto|lia].
Qed.

Lemma indexOf_neg_iff buf value :
  indexOf buf value < 0 <-> forall k, ~ occurs_at buf value k.
Proof.
  destruct (indexOf_spec buf value) as [[-> Hno]|(k & -> & Hk & _)].
  - split; [auto|lia].
  - split; [lia|]. intros Hno. now apply Hno in Hk.
Qed.

Lemma indexOf_first buf value k :
  first_occurrence buf value k -> indexOf buf value = Z.of_nat k.
Proof.
  intros Hk. destruct (indexOf_spec buf value) as [[_ Hno]|(k' & -> & Hk')].
  - destruct Hk as [Hk _]. now apply Hno in Hk.
  - f_equal. eapply first_occurrence_unique; eauto.
Qed.

(** *** [pack31LE] and the hashing loop *)

Lemma pack31LE_sum bytes :
  pack31LE bytes
  = sum_range (fun i => default 0 (bytes !! Z.to_nat i) * 256 ^ i) 31.
Proof.
  unfold pack31LE.
  assert (Hn : (31 - 0 + 1 - 1) / 1 = 31) by reflexivity.
  rewrite (for_loop_count 31 31 1); [|lia|rewrite Hn; lia].
  rewrite Hn.
  rewrite (fold_left_ext _
             (fun '(acc, mul) i =>
                (acc + default 0 (bytes !! Z.to_nat i) * mul, mul * 256))).
  - now rewrite (weighted_fold (fun i => default 0 (bytes !! Z.to_nat i)) 256 31)
      by lia.
  - intros [acc mul] i _. now replace (0 + 1 * i) with i by ring.
Qed.

Lemma slice_lookup (l : list Z) start i :
  0 <= start -> 0 <= i < 31 ->
  default 0 (slice l start (start + 31) !! Z.to_nat i) = sig l (start + i).
Proof.
  intros Hs Hi. unfold slice, sig.
  replace (start + 31 - start) with 31 by ring.
  rewrite lookup_take_lt by lia. rewrite lookup_drop, nth_lookup.
  now replace (Z.to_nat start + Z.to_nat i)%nat with (Z.to_nat (start + i)) by lia.
Qed.

(** On a buffer of [maxLength] elements the builder packs exactly the
    integer that the circuit's block encoder is wired to. *)
Lemma pack31LE_block (l : list Z) c :
  0 <= c ->
  pack31LE (slice l (31 * c) (31 * c + 31))
  = block_value (Z.of_nat (length l)) l c.
Proof.
  intros Hc. rewrite pack31LE_sum. unfold block_value.
  apply sum_range_ext. intros i Hi. f_equal.
  rewrite slice_lookup by lia. unfold block_byte.
  replace (c * 31 + i) with (31 * c + i) by ring.
  destruct (Z.ltb_spec (31 * c + i) (Z.of_nat (length l))); [reflexivity|].
  now apply sig_beyond.
Qed.

Section Hashing.
Variable Poseidon : Z -> Z -> Z.

Lemma commitment_chain eml :
  length eml = Z.to_nat MAX ->
  commitment Poseidon eml = chain Poseidon MAX eml 265.
Proof.
  intros Hlen. unfold commitment.
  assert (Hn : (MAX - 0 + 31 - 1) / 31 = 265) by reflexivity.
  rewrite (for_loop_count (Z.to_nat MAX) MAX 31);
  [|lia|rewrite Hn; unfold MAX; lia].
  rewrite Hn.
  unfold chain. apply fold_left_ext. intros h c Hc. apply in_range in Hc.
  unfold hash_body. replace (0 + 31 * c) with (31 * c) by ring.
  rewrite pack31LE_block by lia. rewrite Hlen.
  now rewrite Z2Nat.id by (unfold MAX; lia).
Qed.

Lemma encode_chunk buffer c :
  Spec.encode (Spec.chunk buffer c) = block_value MAX buffer c.
Proof.
  unfold Spec.encode, block_value. apply sum_range_ext. intros i Hi.
  unfold Spec.chunk. rewrite (sig_map_range _ 31 i) by exact Hi.
  unfold block_byte. now replace (c * 31 + i) with (31 * c + i) by ring.
Qed.

Lemma fold_commitment_chain buffer :
  Spec.fold_commitment Poseidon buffer = chain Poseidon MAX buffer 265.
Proof.
  unfold Spec.fold_commitment, chain.
  assert (Hcc : Spec.CHUNK_COUNT = 265) by reflexivity. rewrite Hcc.
  apply fold_left_ext. intros h c Hc.
  unfold Spec.Hash. now rewrite encode_chunk.
Qed.

End Hashing.

(** *** The literals and the structure of the builder *)

Lemma from_pattern : strBytesAscii fromStr = [70; 114; 111; 109; 58].
Proof. reflexivity. Qed.

Lemma to_pattern : strBytesAscii toStr = [84; 111; 58].
Proof. reflexivity. Qed.

Lemma atg_pattern :
  strBytesAscii atgStr = [64; 103; 109; 97; 105; 108; 46; 99; 111; 109].
Proof. reflexivity. Qed.

Lemma buildCircuitInput_unfold Poseidon bytes :
  buildCircuitInput Poseidon bytes
  = assemble Poseidon (padded bytes)
      (indexOf (padded bytes) (strBytesAscii fromStr))
      (indexOf (padded bytes) (strBytesAscii toStr))
      (indexOf (padded bytes) (strBytesAscii atgStr)).
Proof.
  unfold buildCircuitInput. now rewrite Buffer_from_bytes by apply padded_bytes.
Qed.

Lemma assemble_failure Poseidon eml i1 i2 i3 e :
  assemble Poseidon eml i1 i2 i3 = inl e
  <-> e = Error literals_not_found /\ (i1 < 0 \/ i2 < 0 \/ i3 < 0).
Proof.
  unfold assemble.
  destruct (Z.ltb_spec i1 0), (Z.ltb_spec i2 0), (Z.ltb_spec i3 0); simpl;
    split; try (intros [= <-]; split; [reflexivity|lia]);
    try (intros [-> _]; reflexivity); try discriminate.
  intros [_ H']. lia.
Qed.

Lemma assemble_success Poseidon eml i1 i2 i3 :
  0 <= i1 -> 0 <= i2 -> 0 <= i3 ->
  assemble Poseidon eml i1 i2 i3
  = inr {| eml_commitment := toString (commitment Poseidon eml);
           Builder.eml := map toString eml;
           from_bytes := map toString (strBytesAscii fromStr);
           to_bytes := map toString (strBytesAscii toStr);
           atg_bytes := map toString (strBytesAscii atgStr);
           sel_from := map toString (oneHot MAX i1);
           sel_to := map toString (oneHot MAX i2);
           sel_atg := map toString (oneHot MAX i3) |}.
Proof.
  intros H1 H2 H3. unfold assemble.
  destruct (Z.ltb_spec i1 0), (Z.ltb_spec i2 0), (Z.ltb_spec i3 0);
    try lia. reflexivity.
Qed.

Lemma assemble_inr Poseidon eml i1 i2 i3 input :
  assemble Poseidon eml i1 i2 i3 = inr input ->
  0 <= i1 /\ 0 <= i2 /\ 0 <= i3.
Proof.
  unfold assemble.
  destruct (Z.ltb_spec i1 0), (Z.ltb_spec i2 0), (Z.ltb_spec i3 0);
    simpl; try discriminate. lia.
Qed.

(** A successful build found the first occurrence of each literal and
    assembled the input object from them. *)
Lemma build_success_inv Poseidon bytes input :
  buildCircuitInput Poseidon bytes = inr input ->
  exists k1 k2 k3 : nat,
    first_occurrence (padded bytes) (strBytesAscii fromStr) k1 /\
    first_occurrence (padded bytes) (strBytesAscii toStr) k2 /\
    first_occurrence (padded bytes) (strBytesAscii atgStr) k3 /\
    indexOf (padded bytes) (strBytesAscii fromStr) = Z.of_nat k1 /\
    indexOf (padded bytes) (strBytesAscii toStr) = Z.of_nat k2 /\
    indexOf (padded bytes) (strBytesAscii atgStr) = Z.of_nat k3 /\
    input = {| eml_commitment := toString (commitment Poseidon (padded bytes));
               Builder.eml := map toString (padded bytes);
               from_bytes := map toString (strBytesAscii fromStr);
               to_bytes := map toString (strBytesAscii toStr);
               atg_bytes := map toString (strBytesAscii atgStr);
               sel_from := map toString (oneHot MAX (Z.of_nat k1));
               sel_to := map toString (oneHot MAX (Z.of_nat k2));
               sel_atg := map toString (oneHot MAX (Z.of_nat k3)) |}.
Proof.
  rewrite buildCircuitInput_unfold. intros Hok.
  pose proof (assemble_inr _ _ _ _ _ _ Hok) as (H1 & H2 & H3).
  rewrite assemble_success in Hok by assumption. injection Hok as <-.
  destruct (indexOf_spec (padded bytes) (strBytesAscii fromStr))
    as [[E1 _]|(k1 & E1 & F1)]; [lia|].
  destruct (indexOf_spec (padded bytes) (strBytesAscii toStr))
    as [[E2 _]|(k2 & E2 & F2)]; [lia|].
  destruct (indexOf_spec (padded bytes) (strBytesAscii atgStr))
    as [[E3 _]|(k3 & E3 & F3)]; [lia|].
  exists k1, k2, k3. rewrite E1, E2, E3.
  split; [exact F1|]. split; [exact F2|]. split; [exact F3|].
  repeat (split; [reflexivity|]). reflexivity.
Qed.

(** *** Selectors *)

Lemma occurs_at_lookup buf value k (i : nat) :
  occurs_at buf value k -> (i < length value)%nat ->
  buf !! (k + i)%nat = value !! i.
Proof.
  unfold occurs_at. intros E Hi.
  transitivity (take (length value) (drop k buf) !! i); [|now rewrite E].
  rewrite lookup_take_lt by exact Hi. now rewrite lookup_drop.
Qed.

Lemma occurs_at_sig buf value k i :
  occurs_at buf value k -> 0 <= i < Z.of_nat (length value) ->
  sig buf (Z.of_nat k + i) = sig value i.
Proof.
  intros E Hi. unfold sig. rewrite !nth_lookup.
  rewrite <- (occurs_at_lookup buf value k (Z.to_nat i) E) by lia.
  do 2 f_equal. lia.
Qed.

Lemma oneHot_marks buf pattern k :
  length buf = Z.to_nat MAX -> pattern <> [] ->
  first_occurrence buf pattern k ->
  marks_first_occurrence buf pattern (map toString buf) (map toString pattern)
    (map toString (oneHot MAX (Z.of_nat k))).
Proof.
  intros Hlen Hne Hk. exists k. split; [exact Hk|].
  destruct Hk as [Hocc _].
  assert (Hin : (k + length pattern <= Z.to_nat MAX)%nat).
  { destruct (occurs_at_length _ _ _ Hocc) as [H|H]; [lia|contradiction]. }
  assert (Hpos : (0 < length pattern)%nat) by (destruct pattern; [contradiction|simpl; lia]).
  split; [now rewrite List.length_map, oneHot_length|]. split.
  - intros i Hi.
    rewrite lookup_map, oneHot_lookup by exact Hi. simpl. f_equal.
    destruct (Z.leb_spec 0 (Z.of_nat k)); [|lia].
    destruct (Z.ltb_spec (Z.of_nat k) MAX); [|lia]. simpl.
    destruct (Z.eqb_spec (Z.of_nat i) (Z.of_nat k)), (Nat.eqb_spec i k);
      try lia; reflexivity.
  - rewrite List.length_map, List.skipn_map, List.firstn_map. now rewrite Hocc.
Qed.

Lemma canonical_bit b : F_e (if b : bool then 1 else 0) = if b then 1 else 0.
Proof. now destruct b. Qed.

Lemma oneHot_selects buf pattern k :
  length buf = Z.to_nat MAX -> pattern <> [] ->
  occurs_at buf pattern k ->
  Spec.selected_offset_matches MAX (Z.of_nat (length pattern)) buf pattern
    (oneHot MAX (Z.of_nat k)).
Proof.
  intros Hlen Hne Hocc.
  assert (Hin : (k + length pattern <= Z.to_nat MAX)%nat).
  { destruct (occurs_at_length _ _ _ Hocc) as [H|H]; [lia|contradiction]. }
  assert (Hpos : (0 < length pattern)%nat) by (destruct pattern; [contradiction|simpl; lia]).
  exists (Z.of_nat k). split; [lia|]. split.
  - intros t Ht. rewrite oneHot_sig by exact Ht.
    destruct (Z.leb_spec 0 (Z.of_nat k)); [|lia].
    destruct (Z.ltb_spec (Z.of_nat k) MAX); [|lia]. simpl.
    apply canonical_bit.
  - intros i Hi. rewrite (occurs_at_sig _ _ _ _ Hocc Hi). reflexivity.
Qed.

Lemma oneHot_fits buf pattern k :
  length buf = Z.to_nat MAX -> pattern <> [] ->
  occurs_at buf pattern k ->
  fits_window (Z.of_nat k) (map toString buf) (map toString pattern)
    (map toString (oneHot MAX (Z.of_nat k))).
Proof.
  intros Hlen Hne Hocc. unfold fits_window.
  rewrite !map_fromString_toString, List.length_map.
  assert (Hin : (k + length pattern <= Z.to_nat MAX)%nat).
  { destruct (occurs_at_length _ _ _ Hocc) as [H|H]; [lia|contradiction]. }
  assert (Hpos : (0 < length pattern)%nat) by (destruct pattern; [contradiction|simpl; lia]).
  assert (HM : MAX < p) by reflexivity.
  pose proof (oneHot_selects buf pattern k Hlen Hne Hocc) as Hsel.
  apply CircuitFacts.one_hot_products_selected in Hsel as [Hhot Hprod]; [|lia].
  split; [lia|]. split; [|split; [|split; [exact Hhot|]]].
  - rewrite oneHot_sig by lia.
    destruct (Z.leb_spec 0 (Z.of_nat k)); [|lia].
    destruct (Z.ltb_spec (Z.of_nat k) MAX); [|lia]. simpl.
    now rewrite Z.eqb_refl.
  - intros u Hu. rewrite oneHot_sig by lia.
    destruct (Z.eqb_spec u (Z.of_nat k)); [lia|]. now rewrite andb_false_r.
  - exists 1. split; [|reflexivity].
    apply CircuitFacts.PatternMatcher_spec; [lia|exact HM|].
    split; [reflexivity|]. split; assumption.
Qed.

(** *** Occurrences in the padded buffer and in the input *)

Lemma padded_lookup_input bytes (i : nat) :
  (i < length bytes)%nat -> (i < Z.to_nat MAX)%nat ->
  padded bytes !! i = map byte_value bytes !! i.
Proof.
  intros Hi HM. rewrite padded_closed.
  rewrite lookup_app_l by (rewrite List.length_map, length_take; lia).
  rewrite !lookup_map. now rewrite lookup_take_lt by exact HM.
Qed.

Lemma padded_lookup_padding bytes (i : nat) :
  (length bytes <= i)%nat -> (i < Z.to_nat MAX)%nat -> padded bytes !! i = Some 0.
Proof.
  intros Hi HM. rewrite padded_closed.
  rewrite lookup_app_r by (rewrite List.length_map, length_take; lia).
  apply lookup_replicate_2. rewrite List.length_map, length_take. lia.
Qed.

(** A pattern without zero bytes occurs in the padded buffer exactly where
    it occurs, entirely before the truncation point, in the input. *)
Lemma occurs_at_padded bytes pattern k :
  pattern <> [] -> Forall (fun b => b <> 0) pattern ->
  occurs_at (padded bytes) pattern k
  <-> occurs_at (map byte_value bytes) pattern k /\
      (k + length pattern <= Z.to_nat MAX)%nat.
Proof.
  intros Hne Hnz.
  assert (Hpos : (0 < length pattern)%nat) by (destruct pattern; [contradiction|simpl; lia]).
  split.
  - intros Hocc.
    assert (Hin : (k + length pattern <= Z.to_nat MAX)%nat).
    { destruct (occurs_at_length _ _ _ Hocc) as [H|H]; [|contradiction].
      now rewrite padded_length in H. }
    split; [|exact Hin].
    assert (Hinside : forall i, (i < length pattern)%nat -> (k + i < length bytes)%nat).
    { intros i Hi. destruct (Nat.lt_ge_cases (k + i) (length bytes)) as [?|Hge]; [assumption|].
      exfalso. pose proof (occurs_at_lookup _ _ _ i Hocc Hi) as E.
      rewrite padded_lookup_padding in E by lia.
      symmetry in E. exact (proj1 (Forall_lookup _ _) Hnz _ _ E eq_refl). }
    unfold occurs_at. apply list_eq. intros i.
    destruct (Nat.lt_ge_cases i (length pattern)) as [Hi|Hi].
    + rewrite lookup_take_lt by exact Hi. rewrite lookup_drop.
      rewrite <- (occurs_at_lookup _ _ _ i Hocc Hi).
      symmetry. apply padded_lookup_input; [now apply Hinside|lia].
    + rewrite lookup_take_ge by exact Hi. symmetry. now apply lookup_ge_None.
  - intros [Hocc Hin].
    assert (Hlen : (k + length pattern <= length bytes)%nat).
    { destruct (occurs_at_length _ _ _ Hocc) as [H|H]; [|contradiction].
      now rewrite List.length_map in H. }
    unfold occurs_at. apply list_eq. intros i.
    destruct (Nat.lt_ge_cases i (length pattern)) as [Hi|Hi].
    + rewrite lookup_take_lt by exact Hi. rewrite lookup_drop.
      rewrite <- (occurs_at_lookup _ _ _ i Hocc Hi).
      apply padded_lookup_input; lia.
    + rewrite lookup_take_ge by exact Hi. symmetry. now apply lookup_ge_None.
Qed.

Lemma first_occurrence_padded bytes pattern k :
  pattern <> [] -> Forall (fun b => b <> 0) pattern ->
  first_occurrence (padded bytes) pattern k
  <-> first_occurrence (map byte_value bytes) pattern k /\
      (k + length pattern <= Z.to_nat MAX)%nat.
Proof.
  intros Hne Hnz. unfold first_occurrence. split.
  - intros [Hocc Hmin].
    apply (occurs_at_padded bytes pattern k Hne Hnz) in Hocc as [Hocc Hin].
    split; [split; [exact Hocc|]|exact Hin].
    intros j Hj Hoccj. apply (Hmin j Hj).
    apply (occurs_at_padded bytes pattern j Hne Hnz). split; [exact Hoccj|lia].
  - intros [[Hocc Hmin] Hin]. split.
    + apply (occurs_at_padded bytes pattern k Hne Hnz). now split.
    + intros j Hj Hoccj. apply (Hmin j Hj).
      now apply (occurs_at_padded bytes pattern j Hne Hnz) in Hoccj as [Hoccj _].
Qed.

(** The search over the padded buffer, from the search over the input:
    the first occurrence in the input if it ends within [MAX], else -1. *)
Lemma indexOf_padded bytes pattern :
  pattern <> [] -> Forall (fun b => b <> 0) pattern ->
  indexOf (padded bytes) pattern
  = (let r := indexOf (map byte_value bytes) pattern in
     if (0 <=? r) && (r + Z.of_nat (length pattern) <=? MAX) then r else -1).
Proof.
  intros Hne Hnz. cbv zeta.
  assert (HM : Z.of_nat (Z.to_nat MAX) = MAX) by (unfold MAX; lia).
  destruct (indexOf_spec (map byte_value bytes) pattern)
    as [[-> Hno]|(k & -> & Hk)].
  - simpl. destruct (indexOf_spec (padded bytes) pattern)
      as [[E _]|(j & _ & [Hj _])]; [exact E|].
    apply (occurs_at_padded bytes pattern j Hne Hnz) in Hj as [Hj _].
    now apply Hno in Hj.
  - destruct (Z.leb_spec 0 (Z.of_nat k)); [|lia]. simpl.
    destruct (Z.leb_spec (Z.of_nat k + Z.of_nat (length pattern)) MAX) as [Hfit|Hcut].
    + apply indexOf_first.
      apply (first_occurrence_padded bytes pattern k Hne Hnz). split; [exact Hk|lia].
    + destruct (indexOf_spec (padded bytes) pattern)
        as [[E _]|(j & _ & [Hj _])]; [exact E|].
      apply (occurs_at_padded bytes pattern j Hne Hnz) in Hj as [Hj Hin].
      destruct Hk as [_ Hmin].
      destruct (Nat.lt_ge_cases j k) as [Hlt|Hge]; [now apply Hmin in Hlt|lia].
Qed.

Lemma literal_patterns pattern :
  In pattern [strBytesAscii fromStr; strBytesAscii toStr; strBytesAscii atgStr] ->
  pattern <> [] /\ Forall (fun b => b <> 0) pattern.
Proof.
  intros [<-|[<-|[<-|[]]]]; (split; [discriminate|]);
    vm_compute; repeat constructor; discriminate.
Qed.

(** The three searches of the builder, from searches over the input. *)
Lemma buildCircuitInput_searches Poseidon bytes :
  buildCircuitInput Poseidon bytes
  = assemble Poseidon (padded bytes)
      (let r := indexOf (map byte_value bytes) (strBytesAscii fromStr) in
       if (0 <=? r) && (r + 5 <=? MAX) then r else -1)
      (let r := indexOf (map byte_value bytes) (strBytesAscii toStr) in
       if (0 <=? r) && (r + 3 <=? MAX) then r else -1)
      (let r := indexOf (map byte_value bytes) (strBytesAscii atgStr) in
       if (0 <=? r) && (r + 10 <=? MAX) then r else -1).
Proof.
  rewrite buildCircuitInput_unfold.
  rewrite (indexOf_padded bytes (strBytesAscii fromStr));
    [|apply literal_patterns; simpl; tauto..].
  rewrite (indexOf_padded bytes (strBytesAscii toStr));
    [|apply literal_patterns; simpl; tauto..].
  rewrite (indexOf_padded bytes (strBytesAscii atgStr));
    [|apply literal_patterns; simpl; tauto..].
  reflexivity.
Qed.

(** *** The hashing step of the circuit on the builder's buffer *)

Lemma HashVerification_commitment Poseidon eml email_hash :
  length eml = Z.to_nat MAX -> Forall is_byte eml ->
  HashVerification Poseidon 8192 eml email_hash
  <-> F_e email_hash = commitment Poseidon eml.
Proof.
  intros Hlen Hbytes. rewrite (commitment_chain Poseidon eml Hlen).
  unfold HashVerification. split.
  - intros (hash_result & Hsat & Heq).
    apply CircuitFacts.SequentialPoseidonHash_spec in Hsat as [_ Hres]; [|lia].
    unfold ceq in Heq. unfold F_e. rewrite <- Heq. exact Hres.
  - intros Hres. exists email_hash. split; [|reflexivity].
    apply CircuitFacts.SequentialPoseidonHash_spec; [lia|].
    split; [|exact Hres].
    intros c k Hc Hk. unfold block_byte.
    pose proof p_above_31_bytes as Hp.
    destruct (_ <? _).
    + pose proof (sig_is_byte eml (c * 31 + k) Hbytes) as Hb.
      unfold is_byte in Hb. rewrite Z.mod_small; lia.
    + rewrite Z.mod_0_l; lia.
Qed.

Lemma commitment_canonical Poseidon eml :
  length eml = Z.to_nat MAX -> 0 <= commitment Poseidon eml < p.
Proof.
  intros Hlen. rewrite (commitment_chain Poseidon eml Hlen).
  rewrite <- CircuitFacts.chain_canonical.
  apply Z.mod_pos_bound. exact p_pos.
Qed.

(** *** The hash instance

    Each call of the builder imports the hashing library and builds its
    own Poseidon instance.  Two instances are interchangeable when they
    compute the same field element on every pair of canonical field
    elements; nothing else of an instance reaches the builder's result. *)
Lemma hash_body_instances Poseidon1 Poseidon2 eml off h :
  (forall a b, 0 <= a < p -> 0 <= b < p ->
     Poseidon1 a b mod p = Poseidon2 a b mod p) ->
  hash_body Poseidon1 eml off h = hash_body Poseidon2 eml off h.
Proof.
  intros Hagree. unfold hash_body, F_e.
  apply Hagree; apply Z.mod_pos_bound, p_pos.
Qed.

Lemma commitment_instances Poseidon1 Poseidon2 eml :
  (forall a b, 0 <= a < p -> 0 <= b < p ->
     Poseidon1 a b mod p = Poseidon2 a b mod p) ->
  commitment Poseidon1 eml = commitment Poseidon2 eml.
Proof.
  intros Hagree. unfold commitment. apply for_loop_ext.
  intros off h. now apply hash_body_instances.
Qed.

Lemma assemble_instances Poseidon1 Poseidon2 eml i1 i2 i3 :
  (forall a b, 0 <= a < p -> 0 <= b < p ->
     Poseidon1 a b mod p = Poseidon2 a b mod p) ->
  assemble Poseidon1 eml i1 i2 i3 = assemble Poseidon2 eml i1 i2 i3.
Proof.
  intros Hagree. unfold assemble.
  now rewrite (commitment_instances Poseidon1 Poseidon2 eml Hagree).
Qed.

(** *** The builder on the scenario email *)

Lemma build_succeeds Poseidon bytes :
  contains (padded bytes) (strBytesAscii fromStr) ->
  contains (padded bytes) (strBytesAscii toStr) ->
  contains (padded bytes) (strBytesAscii atgStr) ->
  exists input, buildCircuitInput Poseidon bytes = inr input.
Proof.
  intros H1 H2 H3. apply indexOf_nonneg_iff in H1, H2, H3.
  rewrite buildCircuitInput_unfold, assemble_success by assumption. eauto.
Qed.

Lemma sample_build :
  exists input,
    buildCircuitInput Samples.stand_in_hash Samples.email = inr input.
Proof.
  rewrite buildCircuitInput_searches.
  eexists. apply assemble_success; vm_compute; discriminate.
Qed.

End BuilderFacts.

(* ================================================================== *)
(** * Part III: the properties of the specification *)
(* ================================================================== *)

(** C1.  For every buffer of exactly 8192 bytes, the commitment the
    builder computes is the fold [h_0 = 0], [h_{i+1} = Poseidon(h_i, chunk_i)]
    over the 265 little-endian 31-byte chunks (the last one zero-padded),
    it is a canonical field element, and the circuit's hashing constraint
    on the same buffer is satisfiable for a public [email_hash] exactly when
    [email_hash] is that field element. *)
Theorem commitment_matches_circuit (Poseidon : Z -> Z -> Z) (eml : list Z)
    (email_hash : Z) :
  length eml = Z.to_nat Builder.MAX ->
  Forall Builder.is_byte eml ->
  Builder.commitment Poseidon eml = Spec.fold_commitment Poseidon eml /\
  0 <= Builder.commitment Poseidon eml < Field.p /\
  (Circuit.HashVerification Poseidon 8192 eml email_hash
   <-> email_hash mod Field.p = Builder.commitment Poseidon eml).
Proof.
  intros Hlen Hbytes. split; [|split].
  - rewrite BuilderFacts.fold_commitment_chain.
    apply BuilderFacts.commitment_chain, Hlen.
  - apply BuilderFacts.commitment_canonical, Hlen.
  - apply BuilderFacts.HashVerification_commitment; assumption.
Qed.

Lemma commitment_matches_circuit_witness :
  let eml := Builder.padded Samples.email in
  let h := Builder.commitment Samples.stand_in_hash eml in
  length eml = Z.to_nat Builder.MAX /\
  Forall Builder.is_byte eml /\
  (Circuit.HashVerification Samples.stand_in_hash 8192 eml h <-> h mod Field.p = h).
Proof.
  pose proof (BuilderFacts.padded_length Samples.email) as Hlen.
  pose proof (BuilderFacts.padded_bytes Samples.email) as Hbytes.
  split; [exact Hlen|]. split; [exact Hbytes|].
  exact (proj2 (proj2 (commitment_matches_circuit Samples.stand_in_hash
                         (Builder.padded Samples.email) _ Hlen Hbytes))).
Defined.


(** C2.  For every assignment of the buffer, pattern and selector
    signals, the constraints of [PatternMatcher] hold exactly when the
    selector is boolean at every index, its entries over the valid window
    [0, MAX_LEN - PATTERN_LEN] sum to exactly 1, every entry past the
    window is 0, and [selector[t] * (buffer[t + i] - pattern[i]) = 0] for
    every pattern position [i] and every start [t] of the window (with the
    output [match_found] being 1); and these conditions say that the
    buffer holds the pattern at the single selected offset. *)
Theorem PatternMatcher_characterised (MAX_EMAIL_LEN PATTERN_LEN : Z)
    (email_data pattern selector : list Z) (match_found : Z) :
  1 <= PATTERN_LEN <= MAX_EMAIL_LEN ->
  MAX_EMAIL_LEN < Field.p ->
  (Circuit.PatternMatcher MAX_EMAIL_LEN PATTERN_LEN email_data pattern selector
                          match_found
   <-> Field.F_e match_found = 1 /\
       Spec.one_hot_in_window MAX_EMAIL_LEN PATTERN_LEN selector /\
       Spec.products_vanish MAX_EMAIL_LEN PATTERN_LEN email_data pattern selector)
  /\
  (Spec.one_hot_in_window MAX_EMAIL_LEN PATTERN_LEN selector /\
   Spec.products_vanish MAX_EMAIL_LEN PATTERN_LEN email_data pattern selector
   <-> Spec.selected_offset_matches MAX_EMAIL_LEN PATTERN_LEN email_data pattern
                                    selector).
Proof.
  intros HPL Hp. split.
  - now apply CircuitFacts.PatternMatcher_spec.
  - now apply CircuitFacts.one_hot_products_selected.
Qed.

Lemma PatternMatcher_characterised_witness :
  let eml := Builder.padded Samples.email in
  let pattern := Builder.strBytesAscii Builder.fromStr in
  let selector := Builder.oneHot 8192 0 in
  (1 <= 5 <= 8192 /\ 8192 < Field.p) /\
  (Circuit.PatternMatcher 8192 5 eml pattern selector 1
   <-> Field.F_e 1 = 1 /\ Spec.one_hot_in_window 8192 5 selector /\
       Spec.products_vanish 8192 5 eml pattern selector).
Proof.
  assert (H1 : 1 <= 5 <= 8192) by lia.
  assert (H2 : 8192 < Field.p) by reflexivity.
  split; [split; [exact H1|exact H2]|].
  exact (proj1 (PatternMatcher_characterised 8192 5 _ _ _ 1 H1 H2)).
Defined.


(** C3.  For the value assigned to any position of the buffer, the byte
    range check is satisfiable exactly when the value is one of the field
    elements 0, ..., 255; and an assignment whose buffer holds a value
    outside that range at some position satisfies neither the hashing
    template nor the whole circuit, whatever the other signals are: the
    value is rejected, not reduced to a byte. *)
Theorem byte_range_check (Poseidon : Z -> Z -> Z) (email_data : list Z) (i : Z) :
  0 <= i < 8192 ->
  ((exists is_valid, Circuit.ValidateByteRange (sig email_data i) is_valid)
   <-> 0 <= Field.F_e (sig email_data i) <= 255) /\
  (~ 0 <= Field.F_e (sig email_data i) <= 255 ->
   (forall hash_result,
      ~ Circuit.SequentialPoseidonHash Poseidon 8192 265 email_data hash_result) /\
   (forall email_hash from_header_bytes to_header_bytes gmail_domain_bytes
           from_selector to_selector domain_selector,
      ~ Circuit.main Poseidon email_hash email_data from_header_bytes
          to_header_bytes gmail_domain_bytes from_selector to_selector
          domain_selector)).
Proof.
  intros Hi. split; [apply CircuitFacts.ValidateByteRange_range|].
  intros Hout.
  assert (Hno : forall hash_result,
            ~ Circuit.SequentialPoseidonHash Poseidon 8192 265 email_data hash_result).
  { intros hash_result Hsat. apply Hout.
    apply (CircuitFacts.SequentialPoseidonHash_bytes Poseidon 8192 265 email_data
             hash_result); [lia|lia|exact Hsat|exact Hi]. }
  split; [exact Hno|].
  intros email_hash fb tb gb fs ts ds ((hash_result & Hsat & _) & _).
  exact (Hno hash_result Hsat).
Qed.

Lemma byte_range_check_witness :
  let email_data := [70; 114; 256; 109; 58] in
  0 <= 2 < 8192 /\
  ((exists is_valid, Circuit.ValidateByteRange (sig email_data 2) is_valid)
   <-> 0 <= Field.F_e (sig email_data 2) <= 255) /\
  ~ 0 <= Field.F_e (sig email_data 2) <= 255 /\
  (forall hash_result,
     ~ Circuit.SequentialPoseidonHash Samples.stand_in_hash 8192 265 email_data
         hash_result).
Proof.
  assert (Hi : 0 <= 2 < 8192) by lia.
  assert (Hout : ~ 0 <= Field.F_e (sig [70; 114; 256; 109; 58] 2) <= 255)
    by (vm_compute; intros [_ H]; apply H; reflexivity).
  pose proof (byte_range_check Samples.stand_in_hash [70; 114; 256; 109; 58] 2 Hi)
    as [Hiff Hrej].
  split; [exact Hi|]. split; [exact Hiff|]. split; [exact Hout|].
  exact (proj1 (Hrej Hout)).
Defined.

(** C4, as stated: a failure names the missing pattern.  It does not:
    whatever way of reading a pattern off the error one chooses, it cannot
    be right both for an email that lacks only "To:" and for one that
    lacks only "From:", since the builder raises the same error for both. *)
Lemma build_error_names_no_pattern :
  ~ exists identified : Builder.BuildError -> string,
      forall Poseidon bytes e,
        Builder.buildCircuitInput Poseidon bytes = inl e ->
        In (identified e) [Builder.fromStr; Builder.toStr; Builder.atgStr] /\
        ~ Builder.contains (Builder.padded bytes)
            (Builder.strBytesAscii (identified e)).
Proof.
  intros (identified & H).
  assert (E1 : Builder.buildCircuitInput Samples.stand_in_hash Samples.email_without_To
               = inl (Builder.Error Builder.literals_not_found)).
  { rewrite BuilderFacts.buildCircuitInput_searches.
    apply BuilderFacts.assemble_failure. split; [reflexivity|].
    vm_compute. right. left. reflexivity. }
  assert (E2 : Builder.buildCircuitInput Samples.stand_in_hash Samples.email_without_From
               = inl (Builder.Error Builder.literals_not_found)).
  { rewrite BuilderFacts.buildCircuitInput_searches.
    apply BuilderFacts.assemble_failure. split; [reflexivity|].
    vm_compute. left. reflexivity. }
  destruct (H _ _ _ E1) as [Hin Hno1]. destruct (H _ _ _ E2) as [_ Hno2].
  assert (Hhas : forall bytes pattern,
            In pattern [Builder.strBytesAscii Builder.fromStr;
                        Builder.strBytesAscii Builder.toStr;
                        Builder.strBytesAscii Builder.atgStr] ->
            0 <= (let r := Builder.indexOf (map Builder.byte_value bytes) pattern in
                  if (0 <=? r) && (r + Z.of_nat (length pattern) <=? Builder.MAX)
                  then r else -1) ->
            Builder.contains (Builder.padded bytes) pattern).
  { intros bytes pattern Hpat Hidx.
    apply BuilderFacts.literal_patterns in Hpat as [Hne Hnz].
    apply BuilderFacts.indexOf_nonneg_iff.
    now rewrite BuilderFacts.indexOf_padded. }
  destruct Hin as [E|[E|[E|[]]]]; rewrite <- E in Hno1, Hno2.
  - apply Hno1, Hhas; [simpl; tauto|]. vm_compute. discriminate.
  - apply Hno2, Hhas; [simpl; tauto|]. vm_compute. discriminate.
  - apply Hno1, Hhas; [simpl; tauto|]. vm_compute. discriminate.
Qed.

(** C4, amended.  When the padded buffer lacks at least one of the three
    literals the builder fails with its one fixed error, the same whichever
    literal is missing and whatever the hash function is (the fold is not
    evaluated, no assignment is produced); when the buffer contains all
    three the builder succeeds.  Both implications are equivalences. *)
Theorem build_fails_iff_literal_missing (Poseidon : Z -> Z -> Z) (bytes : list byte) :
  ((~ Builder.contains (Builder.padded bytes) (Builder.strBytesAscii Builder.fromStr) \/
    ~ Builder.contains (Builder.padded bytes) (Builder.strBytesAscii Builder.toStr) \/
    ~ Builder.contains (Builder.padded bytes) (Builder.strBytesAscii Builder.atgStr))
   <-> forall Poseidon',
         Builder.buildCircuitInput Poseidon' bytes
         = inl (Builder.Error Builder.literals_not_found)) /\
  ((Builder.contains (Builder.padded bytes) (Builder.strBytesAscii Builder.fromStr) /\
    Builder.contains (Builder.padded bytes) (Builder.strBytesAscii Builder.toStr) /\
    Builder.contains (Builder.padded bytes) (Builder.strBytesAscii Builder.atgStr))
   <-> exists input, Builder.buildCircuitInput Poseidon bytes = inr input) /\
  (forall e, Builder.buildCircuitInput Poseidon bytes = inl e ->
             e = Builder.Error Builder.literals_not_found).
Proof.
  pose proof (BuilderFacts.indexOf_nonneg_iff (Builder.padded bytes)) as Hfound.
  unfold Builder.contains.
  split; [|split].
  - split.
    + intros Hmiss Poseidon'. rewrite BuilderFacts.buildCircuitInput_unfold.
      apply BuilderFacts.assemble_failure. split; [reflexivity|].
      rewrite <- !Hfound in Hmiss. lia.
    + intros Hfail. specialize (Hfail Poseidon).
      rewrite BuilderFacts.buildCircuitInput_unfold in Hfail.
      apply BuilderFacts.assemble_failure in Hfail as [_ Hneg].
      rewrite <- !Hfound. lia.
  - split.
    + intros (H1 & H2 & H3). now apply BuilderFacts.build_succeeds.
    + intros (input & Hok). rewrite BuilderFacts.buildCircuitInput_unfold in Hok.
      apply BuilderFacts.assemble_inr in Hok as (H1 & H2 & H3).
      rewrite <- !Hfound. auto.
  - intros e He. rewrite BuilderFacts.buildCircuitInput_unfold in He.
    now apply BuilderFacts.assemble_failure in He as [-> _].
Qed.



(** C10.  Whenever the builder emits an assignment, the offset it found
    for each pattern of length [L] lies in [0, MAX - L]; the selector, read
    back as numbers, has its single 1 at that offset, is 0 at every index
    from [MAX - L + 1] on, is one-hot in the valid window, and satisfies
    the circuit's pattern matcher together with the emitted buffer and
    pattern. *)
Theorem emitted_selectors_fit_window (Poseidon : Z -> Z -> Z)
    (bytes : list byte) (input : Builder.CircuitInput) :
  Builder.buildCircuitInput Poseidon bytes = inr input ->
  Builder.fits_window
    (Builder.indexOf (Builder.padded bytes) (Builder.strBytesAscii Builder.fromStr))
    (Builder.eml input) (Builder.from_bytes input) (Builder.sel_from input) /\
  Builder.fits_window
    (Builder.indexOf (Builder.padded bytes) (Builder.strBytesAscii Builder.toStr))
    (Builder.eml input) (Builder.to_bytes input) (Builder.sel_to input) /\
  Builder.fits_window
    (Builder.indexOf (Builder.padded bytes) (Builder.strBytesAscii Builder.atgStr))
    (Builder.eml input) (Builder.atg_bytes input) (Builder.sel_atg input).
Proof.
  intros Hok.
  apply BuilderFacts.build_success_inv in Hok
    as (k1 & k2 & k3 & [F1 _] & [F2 _] & [F3 _] & -> & -> & -> & ->).
  pose proof (BuilderFacts.padded_length bytes) as Hlen.
  cbn [Builder.eml Builder.from_bytes Builder.to_bytes Builder.atg_bytes
       Builder.sel_from Builder.sel_to Builder.sel_atg].
  split; [|split]; apply BuilderFacts.oneHot_fits;
    try assumption; discriminate.
Qed.


Lemma emitted_selectors_fit_window_witness :
  exists input,
    Builder.buildCircuitInput Samples.stand_in_hash Samples.email = inr input /\
    Builder.fits_window
      (Builder.indexOf (Builder.padded Samples.email)
                       (Builder.strBytesAscii Builder.atgStr))
      (Builder.eml input) (Builder.atg_bytes input) (Builder.sel_atg input).
Proof.
  destruct BuilderFacts.sample_build as [input E].
  exists input. split; [exact E|].
  exact (proj2 (proj2 (emitted_selectors_fit_window _ _ _ E))).
Defined.

(** C6.  For every raw input the builder first forms a buffer of exactly
    [MAX] entries, the first [MAX] input bytes followed by zeros; the
    search and the hash both run on that buffer, whose contents are what
    the assignment carries.  Hence, for each of the three patterns: an
    occurrence at offset 0 or at the last valid offset of the buffer is
    found, inside the valid window; and when every occurrence in the raw
    input reaches past the truncation point the pattern counts as absent
    and the build fails. *)
Theorem build_works_on_padded_buffer (Poseidon : Z -> Z -> Z) (bytes : list byte) :
  (length (Builder.padded bytes) = Z.to_nat Builder.MAX /\
   Builder.padded bytes
   = map Builder.byte_value (take (Z.to_nat Builder.MAX) bytes)
     ++ replicate (Z.to_nat Builder.MAX - length bytes) 0) /\
  (Builder.buildCircuitInput Poseidon bytes
   = Builder.assemble Poseidon (Builder.padded bytes)
       (Builder.indexOf (Builder.padded bytes) (Builder.strBytesAscii Builder.fromStr))
       (Builder.indexOf (Builder.padded bytes) (Builder.strBytesAscii Builder.toStr))
       (Builder.indexOf (Builder.padded bytes) (Builder.strBytesAscii Builder.atgStr)) /\
   forall input, Builder.buildCircuitInput Poseidon bytes = inr input ->
     Builder.eml input = map Builder.toString (Builder.padded bytes) /\
     Builder.eml_commitment input
     = Builder.toString (Builder.commitment Poseidon (Builder.padded bytes))) /\
  (forall pattern,
     In pattern [Builder.strBytesAscii Builder.fromStr;
                 Builder.strBytesAscii Builder.toStr;
                 Builder.strBytesAscii Builder.atgStr] ->
     (Builder.occurs_at (Builder.padded bytes) pattern 0 ->
      Builder.indexOf (Builder.padded bytes) pattern = 0) /\
     (Builder.occurs_at (Builder.padded bytes) pattern
        (Z.to_nat Builder.MAX - length pattern) ->
      0 <= Builder.indexOf (Builder.padded bytes) pattern
        <= Builder.MAX - Z.of_nat (length pattern)) /\
     ((forall k, Builder.occurs_at (map Builder.byte_value bytes) pattern k ->
                 (Z.to_nat Builder.MAX < k + length pattern)%nat) ->
      Builder.indexOf (Builder.padded bytes) pattern = -1 /\
      forall Poseidon',
        Builder.buildCircuitInput Poseidon' bytes
        = inl (Builder.Error Builder.literals_not_found))).
Proof.
  split; [split|split; [split|]].
  - apply BuilderFacts.padded_length.
  - rewrite BuilderFacts.padded_closed, List.length_map, length_take.
    do 2 f_equal. lia.
  - apply BuilderFacts.buildCircuitInput_unfold.
  - intros input Hok.
    apply BuilderFacts.build_success_inv in Hok
      as (k1 & k2 & k3 & _ & _ & _ & _ & _ & _ & ->).
    split; reflexivity.
  - intros pattern Hin.
    destruct (BuilderFacts.literal_patterns pattern Hin) as [Hne Hnz].
    split; [|split].
    + intros Hocc.
      apply (BuilderFacts.indexOf_first _ _ 0%nat).
      split; [exact Hocc|]. intros j Hj. lia.
    + intros Hocc.
      destruct (BuilderFacts.indexOf_spec (Builder.padded bytes) pattern)
        as [[_ Hno]|(k & -> & Hk & Hmin)]; [now apply Hno in Hocc|].
      destruct (Nat.le_gt_cases k (Z.to_nat Builder.MAX - length pattern))
        as [Hle|Hgt]; [|now apply Hmin in Hgt].
      destruct (BuilderFacts.occurs_at_length _ _ _ Hocc) as [Hl|?]; [|contradiction].
      rewrite BuilderFacts.padded_length in Hl.
      assert (Z.of_nat (Z.to_nat Builder.MAX) = Builder.MAX) by (unfold Builder.MAX; lia).
      lia.
    + intros Hpast.
      assert (Habsent : forall k, ~ Builder.occurs_at (Builder.padded bytes) pattern k).
      { intros k Hk. apply BuilderFacts.occurs_at_padded in Hk as [Hk Hin']; try assumption.
        apply Hpast in Hk. lia. }
      assert (Hidx : Builder.indexOf (Builder.padded bytes) pattern = -1).
      { destruct (BuilderFacts.indexOf_spec (Builder.padded bytes) pattern)
          as [[E _]|(k & _ & [Hk _])]; [exact E|now apply Habsent in Hk]. }
      split; [exact Hidx|].
      intros Poseidon'. rewrite BuilderFacts.buildCircuitInput_unfold.
      apply BuilderFacts.assemble_failure. split; [reflexivity|].
      destruct Hin as [<-|[<-|[<-|[]]]]; rewrite Hidx; lia.
Qed.

(** The boundary of C6 on concrete inputs: "To:" written at the last
    valid offset 8189 is found there; written one byte later it is cut by
    the truncation and not found. *)
Example pattern_at_last_valid_offset :
  Builder.indexOf
    (Builder.padded (repeat "x"%byte (Z.to_nat 8189) ++ Samples.bytes_of "To:"))
    (Builder.strBytesAscii Builder.toStr) = 8189.
Proof.
  rewrite BuilderFacts.indexOf_padded;
    [vm_compute; reflexivity|discriminate|vm_compute; repeat constructor; discriminate].
Qed.

Example pattern_cut_by_truncation :
  Builder.indexOf
    (Builder.padded (repeat "x"%byte (Z.to_nat 8190) ++ Samples.bytes_of "To:"))
    (Builder.strBytesAscii Builder.toStr) = -1.
Proof.
  rewrite BuilderFacts.indexOf_padded;
    [vm_compute; reflexivity|discriminate|vm_compute; repeat constructor; discriminate].
Qed.




(** ** The registry *)
Module RegistryFacts.
Import Registry.

(** The flag decoder accepts exactly the one-character strings "0" and
    "1", and returns the character code minus 48. *)
Lemma decode_flag_inr newValue lengthReason rangeReason v :
  decode_flag newValue lengthReason rangeReason = inr v ->
  exists c, newValue = String c EmptyString /\
            v = Z.of_N (N_of_ascii c) - 48 /\
            (v = 0 \/ v = 1) /\
            (newValue = "0"%string \/ newValue = "1"%string).
Proof.
  unfold decode_flag.
  destruct newValue as [|c [|c' rest]]; simpl; try discriminate.
  unfold uint8_sub. destruct (Z.ltb_spec (Z.of_N (N_of_ascii c)) 48); [discriminate|].
  destruct (Z.eqb_spec (Z.of_N (N_of_ascii c) - 48) 0) as [E0|N0]; simpl.
  - intros [= <-]. exists c. repeat split; auto.
    left. f_equal. apply (f_equal Z.to_N) in E0.
    assert (E : N_of_ascii c = 48%N) by lia.
    rewrite <- (ascii_N_embedding c), E. reflexivity.
  - destruct (Z.eqb_spec (Z.of_N (N_of_ascii c) - 48) 1) as [E1|N1]; [|discriminate].
    intros [= <-]. exists c. repeat split; auto.
    right. f_equal.
    assert (E : N_of_ascii c = 49%N) by lia.
    rewrite <- (ascii_N_embedding c), E. reflexivity.
Qed.

Lemma decode_flag_accepts lengthReason rangeReason :
  decode_flag "0" lengthReason rangeReason = inr 0 /\
  decode_flag "1" lengthReason rangeReason = inr 1.
Proof. split; reflexivity. Qed.

Lemma identity_at_finish st ens ts identifier fieldName newValue identity st' ev :
  finish st ens ts identifier fieldName newValue identity = inr (st', ev) ->
  identity_at st' identifier = set_timestamp ts identity.
Proof.
  unfold finish. intros [= <- _]. unfold identity_at. simpl.
  now rewrite lookup_insert_eq.
Qed.

(** The two numeric branches of [updateField]. *)
Lemma updateField_flag st ts identifier fieldName newValue :
  fieldName = "age"%string \/ fieldName = "ofacStatus"%string ->
  exists lengthReason rangeReason,
    updateField st ts identifier fieldName newValue
    = if negb (exists_ (identity_at st identifier))
      then inl (RequireFailed "Identity does not exist")
      else match decode_flag newValue lengthReason rangeReason with
           | inl r => inl r
           | inr v =>
               finish st (ensToIdentifier st) ts identifier fieldName newValue
                 (if same_string fieldName "age"
                  then set_age v (identity_at st identifier)
                  else set_ofacStatus v (identity_at st identifier))
           end.
Proof.
  intros [-> | ->]; do 2 eexists; unfold updateField;
    destruct (exists_ (identity_at st identifier)); simpl; try reflexivity;
    destruct (decode_flag newValue _ _); reflexivity.
Qed.

End RegistryFacts.

(** C9, as stated: a non-digit input corrupts the stored value.  It does
    not: on a registry whose entry "id-1" has age 1, updating "age" with
    "x" fails the range requirement and with "!" underflows the checked
    subtraction; both calls revert and the stored age is still 1. *)
Lemma non_digit_flag_is_rejected :
  Registry.updateField Samples.registry 1700000100 "id-1" "age" "x"
  = inl (Registry.RequireFailed "Age must be 0 or 1") /\
  Registry.updateField Samples.registry 1700000100 "id-1" "age" "!"
  = inl (Registry.Panic 17) /\
  Registry.age
    (Registry.identity_at
       (Registry.storage_after Samples.registry
          (Registry.updateField Samples.registry 1700000100 "id-1" "age" "x"))
       "id-1") = 1 /\
  Registry.age (Registry.identity_at Samples.registry "id-1") = 1.
Proof. repeat split; vm_compute; reflexivity. Qed.

(** C9, amended.  In the [age] and [ofacStatus] branches of [updateField]
    the flag is decoded from a one-character string as its character code
    minus 48; the call succeeds only for the strings "0" and "1", storing 0
    or 1, and every other input (a non-digit, a digit above 1, a string of
    another length) makes it revert, leaving the storage and so the stored
    value as they were. *)
Theorem flag_update_decodes_or_reverts (st : Registry.Storage)
    (block_timestamp : Z) (identifier fieldName newValue : string) :
  fieldName = "age"%string \/ fieldName = "ofacStatus"%string ->
  (forall st' ev,
     Registry.updateField st block_timestamp identifier fieldName newValue
     = inr (st', ev) ->
     exists c, newValue = String c EmptyString /\
       Registry.flag fieldName (Registry.identity_at st' identifier)
       = Z.of_N (N_of_ascii c) - 48 /\
       (Registry.flag fieldName (Registry.identity_at st' identifier) = 0 \/
        Registry.flag fieldName (Registry.identity_at st' identifier) = 1) /\
       (newValue = "0"%string \/ newValue = "1"%string)) /\
  (newValue <> "0"%string -> newValue <> "1"%string ->
   (exists r,
      Registry.updateField st block_timestamp identifier fieldName newValue = inl r) /\
   Registry.storage_after st
     (Registry.updateField st block_timestamp identifier fieldName newValue) = st) /\
  (Registry.exists_ (Registry.identity_at st identifier) = true ->
   newValue = "0"%string \/ newValue = "1"%string ->
   exists st' ev,
     Registry.updateField st block_timestamp identifier fieldName newValue
     = inr (st', ev)).
Proof.
  intros Hfield.
  destruct (RegistryFacts.updateField_flag st block_timestamp identifier fieldName
              newValue Hfield) as (r1 & r2 & ->).
  split; [|split].
  - intros st' ev.
    destruct (Registry.exists_ (Registry.identity_at st identifier)); simpl;
      [|discriminate].
    destruct (Registry.decode_flag newValue r1 r2) as [r|v] eqn:Hd; [discriminate|].
    intros Hfin. apply RegistryFacts.identity_at_finish in Hfin.
    apply RegistryFacts.decode_flag_inr in Hd as (c & -> & Hv & Hrange & Hlit).
    exists c. split; [reflexivity|]. rewrite Hfin.
    assert (Hflag : Registry.flag fieldName
                      (Registry.set_timestamp block_timestamp
                         (if Registry.same_string fieldName "age"
                          then Registry.set_age v (Registry.identity_at st identifier)
                          else Registry.set_ofacStatus v
                                 (Registry.identity_at st identifier))) = v).
    { unfold Registry.flag. destruct Hfield as [-> | ->]; reflexivity. }
    rewrite Hflag. auto.
  - intros H0 H1.
    destruct (Registry.exists_ (Registry.identity_at st identifier)); simpl;
      [|split; [eexists|]; reflexivity].
    destruct (Registry.decode_flag newValue r1 r2) as [r|v] eqn:Hd;
      [split; [eexists|]; reflexivity|].
    apply RegistryFacts.decode_flag_inr in Hd as (c & _ & _ & _ & [Hl|Hl]);
      contradiction.
  - intros -> Hlit. simpl.
    destruct (RegistryFacts.decode_flag_accepts r1 r2) as [E0 E1].
    destruct Hlit as [-> | ->]; rewrite ?E0, ?E1; unfold Registry.finish; eauto.
Qed.

Lemma flag_update_decodes_or_reverts_witness :
  ("ofacStatus"%string = "age"%string \/ "ofacStatus"%string = "ofacStatus"%string) /\
  exists st' ev,
    Registry.updateField Samples.registry 1700000100 "id-1" "ofacStatus" "1"
    = inr (st', ev).
Proof.
  assert (Hfield : "ofacStatus"%string = "age"%string \/
                   "ofacStatus"%string = "ofacStatus"%string)
    by (right; reflexivity).
  split; [exact Hfield|].
  apply (proj2 (proj2 (flag_update_decodes_or_reverts Samples.registry 1700000100
                         "id-1" "ofacStatus" "1" Hfield))).
  - vm_compute. reflexivity.
  - right. reflexivity.
Defined.

(* ================================================================== *)
(** * Part IV: further properties of the code *)
(* ================================================================== *)

(** ** The circuit and the input builder *)
Module CoverageFacts.
Import Field FieldFacts LoopFacts Circuit CircuitFacts Builder BuilderFacts.

(** The digits of a positional sum are recovered by division. *)
Lemma digit_extract (f : Z -> Z) (b : Z) (n : nat) :
  1 < b -> (forall j, 0 <= j < Z.of_nat n -> 0 <= f j < b) ->
  forall i, 0 <= i < Z.of_nat n ->
    (sum_range (fun j => f j * b ^ j) (Z.of_nat n) / b ^ i) mod b = f i.
Proof.
  intros Hb. induction n as [|n IH]; intros Hf i Hi; [lia|].
  rewrite Nat2Z.inj_succ, <- Z.add_1_r, sum_range_succ by lia.
  assert (Hlow : 0 <= sum_range (fun j => f j * b ^ j) (Z.of_nat n) < b ^ Z.of_nat n).
  { apply digits_bound; [lia|lia|]. intros j Hj. apply Hf. lia. }
  destruct (Z.eq_dec i (Z.of_nat n)) as [->|Hne].
  - rewrite Z.div_add by (apply Z.pow_nonzero; lia).
    rewrite Z.div_small by exact Hlow. simpl.
    apply Z.mod_small, Hf. lia.
  - assert (Hsplit : f (Z.of_nat n) * b ^ Z.of_nat n
                     = (f (Z.of_nat n) * b ^ (Z.of_nat n - i - 1) * b) * b ^ i).
    { assert (Hpow : b ^ Z.of_nat n = b ^ (Z.of_nat n - i - 1) * b * b ^ i).
      { rewrite (Z.mul_comm (b ^ (Z.of_nat n - i - 1)) b).
        rewrite <- Z.pow_succ_r, <- Z.pow_add_r by lia. f_equal. lia. }
      rewrite Hpow. ring. }
    rewrite Hsplit, Z.div_add by (apply Z.pow_nonzero; lia).
    rewrite Z.add_mod, Z.mod_mul, Z.add_0_r, Z.mod_mod by lia.
    apply IH; [|lia]. intros j Hj. apply Hf. lia.
Qed.

(** A one-hot vector at an offset where the pattern stands selects it. *)
Lemma oneHot_selected_offset MAX_LEN PATTERN_LEN data pattern k :
  1 <= PATTERN_LEN <= MAX_LEN ->
  0 <= k <= MAX_LEN - PATTERN_LEN ->
  (forall i, 0 <= i < PATTERN_LEN -> sig data (k + i) === sig pattern i) ->
  Spec.selected_offset_matches MAX_LEN PATTERN_LEN data pattern (oneHot MAX_LEN k).
Proof.
  intros HL Hk Hm. exists k. split; [exact Hk|]. split; [|exact Hm].
  intros t Ht. rewrite oneHot_sig by exact Ht.
  destruct (Z.leb_spec 0 k); [|lia]. destruct (Z.ltb_spec k MAX_LEN); [|lia].
  simpl. apply canonical_bit.
Qed.

Lemma PatternMatch_at MAX_LEN PATTERN_LEN data pattern k :
  1 <= PATTERN_LEN <= MAX_LEN -> MAX_LEN < p ->
  0 <= k <= MAX_LEN - PATTERN_LEN ->
  (forall i, 0 <= i < PATTERN_LEN -> sig data (k + i) === sig pattern i) ->
  PatternMatch MAX_LEN PATTERN_LEN data pattern (oneHot MAX_LEN k).
Proof.
  intros HL Hp Hk Hm. exists 1. split; [|reflexivity].
  apply PatternMatcher_spec; [exact HL|exact Hp|]. split; [reflexivity|].
  apply one_hot_products_selected; [exact HL|].
  now apply oneHot_selected_offset.
Qed.

(** A satisfied matcher points at an offset where the pattern stands. *)
Lemma PatternMatch_offset MAX_LEN PATTERN_LEN data pattern selector :
  1 <= PATTERN_LEN <= MAX_LEN -> MAX_LEN < p ->
  PatternMatch MAX_LEN PATTERN_LEN data pattern selector ->
  Spec.selected_offset_matches MAX_LEN PATTERN_LEN data pattern selector.
Proof.
  intros HL Hp (mf & Hpm & _).
  apply PatternMatcher_spec in Hpm as (_ & Hhot & Hprod); [|exact HL|exact Hp].
  apply one_hot_products_selected; [exact HL|]. split; assumption.
Qed.

Lemma sum_range_all_zero f n :
  (forall i, 0 <= i < n -> f i = 0) -> sum_range f n = 0.
Proof.
  intros H. destruct (Z.le_gt_cases 0 n) as [Hn|Hn].
  - pose proof (sum_range_bounds f n 0 Hn) as Hb.
    assert (forall i, 0 <= i < n -> 0 <= f i <= 0) by (intros i Hi; rewrite H; lia).
    specialize (Hb H0). lia.
  - unfold sum_range. rewrite range_nonpos by lia. reflexivity.
Qed.

End CoverageFacts.

Module BindingFacts.
Import Field FieldFacts LoopFacts Circuit CircuitFacts Builder BuilderFacts.
Import CoverageFacts.

Lemma block_byte_is_byte (data : list Z) c k :
  Forall is_byte data -> is_byte (block_byte MAX data c k).
Proof.
  intros H. unfold block_byte.
  destruct (c * 31 + k <? MAX); [now apply sig_is_byte|]. unfold is_byte. lia.
Qed.

Lemma block_value_small (data : list Z) c :
  Forall is_byte data -> 0 <= block_value MAX data c < 256 ^ 31.
Proof.
  intros H. unfold block_value. apply digits_bound; [lia|lia|].
  intros k Hk. pose proof (block_byte_is_byte data c k H) as Hb.
  unfold is_byte in Hb. lia.
Qed.

Lemma block_value_byte (data : list Z) c k :
  Forall is_byte data -> 0 <= k < 31 ->
  (block_value MAX data c / 256 ^ k) mod 256 = block_byte MAX data c k.
Proof.
  intros H Hk. unfold block_value.
  apply (digit_extract (block_byte MAX data c) 256 31); [lia| |lia].
  intros j Hj. pose proof (block_byte_is_byte data c j H) as Hb.
  unfold is_byte in Hb. lia.
Qed.

(** Two lists of the same length that differ, differ at some index. *)
Lemma differ_at (a b : list Z) :
  length a = length b -> a <> b ->
  exists i : nat, (i < length a)%nat /\ a !! i <> b !! i.
Proof.
  revert b. induction a as [|x a IH]; intros [|y b] Hlen Hne; simpl in *;
    try discriminate; [contradiction|].
  destruct (Z.eq_dec x y) as [->|Hxy].
  - destruct (IH b) as (i & Hi & Hd); [lia|congruence|].
    exists (S i). split; [lia|exact Hd].
  - exists 0%nat. split; [lia|]. simpl. congruence.
Qed.

(** Two byte buffers of [MAX] entries that differ, differ in the value
    of some block. *)
Lemma differ_in_block (a b : list Z) :
  length a = Z.to_nat MAX -> length b = Z.to_nat MAX ->
  Forall is_byte a -> Forall is_byte b -> a <> b ->
  exists c, 0 <= c < 265 /\ block_value MAX a c <> block_value MAX b c.
Proof.
  intros Ha Hb Hba Hbb Hne.
  destruct (differ_at a b) as (i & Hi & Hd); [congruence|exact Hne|].
  assert (HM : Z.of_nat (length a) = 8192).
  { rewrite Ha. apply Z2Nat.id. unfold MAX. lia. }
  assert (HMb : Z.of_nat (length b) = 8192).
  { rewrite Hb. apply Z2Nat.id. unfold MAX. lia. }
  clear Ha Hb.
  assert (Hi8 : 0 <= Z.of_nat i < 8192) by lia.
  set (c := Z.of_nat i / 31). set (k := Z.of_nat i mod 31).
  assert (Hik : c * 31 + k = Z.of_nat i).
  { unfold c, k. pose proof (Z.div_mod (Z.of_nat i) 31). lia. }
  assert (Hk : 0 <= k < 31) by (unfold k; apply Z.mod_pos_bound; lia).
  assert (Hc : 0 <= c < 265).
  { unfold c. split; [apply Z.div_pos; lia|].
    apply Z.div_lt_upper_bound; lia. }
  exists c. split; [exact Hc|]. intros Heq.
  pose proof (block_value_byte a c k Hba Hk) as Ea.
  pose proof (block_value_byte b c k Hbb Hk) as Eb.
  rewrite Heq, Eb in Ea. unfold block_byte in Ea. rewrite Hik in Ea.
  destruct (Z.ltb_spec (Z.of_nat i) MAX) as [_|Hge]; [|unfold MAX in Hge; lia].
  unfold sig in Ea. rewrite Nat2Z.id, !nth_lookup in Ea.
  destruct (a !! i) as [x|] eqn:Eai; [|apply lookup_ge_None in Eai; lia].
  destruct (b !! i) as [y|] eqn:Ebi;
    [|apply lookup_ge_None in Ebi; lia].
  simpl in Ea. congruence.
Qed.

Section Collisions.
Variable Poseidon : Z -> Z -> Z.

Lemma chain_range (data : list Z) n : 0 <= chain Poseidon MAX data n < p.
Proof. rewrite <- chain_canonical. apply Z.mod_pos_bound, p_pos. Qed.

Lemma block_value_range (data : list Z) c :
  Forall is_byte data -> 0 <= block_value MAX data c < p.
Proof.
  intros H. pose proof (block_value_small data c H) as Hv.
  pose proof p_above_31_bytes as Hp. split; [apply Hv|].
  eapply Z.lt_trans; [apply Hv|exact Hp].
Qed.

Lemma chain_step (data : list Z) (n : nat) :
  Forall is_byte data ->
  chain Poseidon MAX data (Z.of_nat (S n))
  = Poseidon (chain Poseidon MAX data (Z.of_nat n))
             (block_value MAX data (Z.of_nat n)) mod p.
Proof.
  intros H. rewrite Nat2Z.inj_succ, <- Z.add_1_r, chain_succ by apply Nat2Z.is_nonneg.
  unfold Spec.Hash, F_e.
  rewrite chain_canonical.
  now rewrite (Z.mod_small _ _ (block_value_range data (Z.of_nat n) H)).
Qed.

(** Equal chained hashes over buffers with a differing block yield a
    collision: look at the last step whose inputs differ. *)
Lemma chain_collision (a b : list Z) :
  Forall is_byte a -> Forall is_byte b ->
  forall n : nat,
    chain Poseidon MAX a (Z.of_nat n) = chain Poseidon MAX b (Z.of_nat n) ->
    (exists c, 0 <= c < Z.of_nat n /\ block_value MAX a c <> block_value MAX b c) ->
    Spec.collision Poseidon.
Proof.
  intros Hba Hbb. induction n as [|n IH]; intros Heq (c & Hc & Hd); [lia|].
  rewrite !chain_step in Heq by assumption.
  assert (Hpair : (chain Poseidon MAX a (Z.of_nat n) = chain Poseidon MAX b (Z.of_nat n) /\
                   block_value MAX a (Z.of_nat n) = block_value MAX b (Z.of_nat n)) \/
                  (chain Poseidon MAX a (Z.of_nat n), block_value MAX a (Z.of_nat n))
                  <> (chain Poseidon MAX b (Z.of_nat n), block_value MAX b (Z.of_nat n))).
  { destruct (Z.eq_dec (chain Poseidon MAX a (Z.of_nat n))
                       (chain Poseidon MAX b (Z.of_nat n))) as [Hh|Hh];
      [|right; congruence].
    destruct (Z.eq_dec (block_value MAX a (Z.of_nat n))
                       (block_value MAX b (Z.of_nat n))) as [Hv|Hv];
      [left; split; assumption|right; congruence]. }
  destruct Hpair as [[Hh Hv] | Hne].
  - apply IH; [exact Hh|]. exists c. split; [|exact Hd].
    destruct (Z.eq_dec c (Z.of_nat n)) as [->|]; [contradiction|lia].
  - exists (chain Poseidon MAX a (Z.of_nat n)), (block_value MAX a (Z.of_nat n)),
           (chain Poseidon MAX b (Z.of_nat n)), (block_value MAX b (Z.of_nat n)).
    split; [split; [apply chain_range|now apply block_value_range]|].
    split; [split; [apply chain_range|now apply block_value_range]|].
    split; [exact Hne|exact Heq].
Qed.

End Collisions.
End BindingFacts.

Module PaddingFacts.
Import Builder BuilderFacts.

(** The buffer keeps the first [MAX] bytes only, and pads with the byte
    that a trailing zero byte of the input is. *)
Lemma padded_truncates bytes extra :
  (Z.to_nat MAX <= length bytes)%nat -> padded (bytes ++ extra) = padded bytes.
Proof.
  intros H. rewrite !padded_closed. now rewrite take_app_le by exact H.
Qed.

Lemma padded_zero_tail bytes (n : nat) :
  (length bytes + n <= Z.to_nat MAX)%nat ->
  padded (bytes ++ replicate n x00) = padded bytes.
Proof.
  intros H. rewrite !padded_closed.
  rewrite !take_ge by (rewrite ?length_app, ?length_replicate; lia).
  rewrite List.map_app, length_app, !List.length_map, length_replicate.
  rewrite <- app_assoc. f_equal.
  assert (Hz : map byte_value (replicate n x00) = replicate n 0).
  { clear H. induction n as [|n IH]; simpl; [reflexivity|]. now rewrite IH. }
  rewrite Hz, <- replicate_add. f_equal. lia.
Qed.

End PaddingFacts.

Module PackFacts.
Import LoopFacts Builder BuilderFacts.

Lemma lookup_is_byte (bytes : list Z) (i : nat) :
  Forall is_byte bytes -> is_byte (default 0 (bytes !! i)).
Proof.
  intros H. destruct (bytes !! i) as [x|] eqn:E; simpl.
  - exact (proj1 (Forall_lookup _ _) H i x E).
  - unfold is_byte. lia.
Qed.

Lemma pack31LE_ext (a b : list Z) :
  (forall i : nat, (i < 31)%nat -> default 0 (a !! i) = default 0 (b !! i)) ->
  pack31LE a = pack31LE b.
Proof.
  intros H. rewrite !pack31LE_sum. apply sum_range_ext.
  intros i Hi. rewrite (H (Z.to_nat i)) by lia. reflexivity.
Qed.

End PackFacts.

Module AgreementFacts.
Import Field FieldFacts LoopFacts Circuit CircuitFacts Builder BuilderFacts.
Import CoverageFacts.

(** Entries equal to the pattern's, read one by one, make an occurrence. *)
Lemma occurs_at_of_sig (buf pattern : list Z) (k : nat) :
  (k + length pattern <= length buf)%nat ->
  (forall i, 0 <= i < Z.of_nat (length pattern) ->
     sig buf (Z.of_nat k + i) = sig pattern i) ->
  occurs_at buf pattern k.
Proof.
  intros Hfit Hsig. unfold occurs_at. apply list_eq. intros i.
  destruct (Nat.lt_ge_cases i (length pattern)) as [Hlt|Hge].
  - rewrite lookup_take_lt, lookup_drop by exact Hlt.
    specialize (Hsig (Z.of_nat i) ltac:(lia)).
    unfold sig in Hsig. rewrite !nth_lookup in Hsig.
    replace (Z.to_nat (Z.of_nat k + Z.of_nat i)) with (k + i)%nat in Hsig by lia.
    rewrite Nat2Z.id in Hsig.
    destruct (buf !! (k + i)%nat) as [x|] eqn:Ex;
      [|apply lookup_ge_None in Ex; lia].
    destruct (pattern !! i) as [y|] eqn:Ey;
      [|apply lookup_ge_None in Ey; lia].
    simpl in Hsig. congruence.
  - rewrite lookup_take_ge by exact Hge.
    symmetry. now apply lookup_ge_None.
Qed.

Lemma PatternMatch_contains (buf pattern selector : list Z) :
  length buf = Z.to_nat MAX -> Forall is_byte buf ->
  pattern <> [] -> (length pattern <= 31)%nat -> Forall is_byte pattern ->
  PatternMatch 8192 (Z.of_nat (length pattern)) buf pattern selector ->
  contains buf pattern.
Proof.
  intros Hlen Hbuf Hne Hshort Hpat Hpm.
  assert (Hp : 8192 < p) by reflexivity.
  assert (HL : Z.of_nat (length buf) = 8192).
  { rewrite Hlen. apply Z2Nat.id. unfold MAX. lia. }
  clear Hlen.
  assert (Hpos : (0 < length pattern)%nat)
    by (destruct pattern; [contradiction|simpl; lia]).
  apply PatternMatch_offset in Hpm as (offset & Hoff & _ & Hm); [|lia|exact Hp].
  exists (Z.to_nat offset). apply occurs_at_of_sig; [lia|].
  intros i Hi. rewrite Z2Nat.id by lia.
  apply ceq_small; [| |apply Hm; exact Hi].
  - pose proof (sig_is_byte buf (offset + i) Hbuf) as Hb.
    unfold is_byte in Hb. pose proof p_above_31_bytes. lia.
  - pose proof (sig_is_byte pattern i Hpat) as Hb.
    unfold is_byte in Hb. pose proof p_above_31_bytes. lia.
Qed.

Lemma literal_bytes pattern :
  In pattern [strBytesAscii fromStr; strBytesAscii toStr; strBytesAscii atgStr] ->
  Forall is_byte pattern.
Proof.
  unfold is_byte. intros [<- | [<- | [<- | []]]];
    rewrite ?from_pattern, ?to_pattern, ?atg_pattern; repeat constructor; lia.
Qed.

Lemma occurrence_matches (buf pattern : list Z) (k : nat) :
  length buf = Z.to_nat MAX -> pattern <> [] ->
  occurs_at buf pattern k ->
  PatternMatch 8192 (Z.of_nat (length pattern)) buf pattern (oneHot 8192 (Z.of_nat k)).
Proof.
  intros Hlen Hne Hocc.
  assert (Hp : 8192 < p) by reflexivity.
  assert (HL : Z.of_nat (length buf) = 8192).
  { rewrite Hlen. apply Z2Nat.id. unfold MAX. lia. }
  clear Hlen.
  assert (Hpos : (0 < length pattern)%nat)
    by (destruct pattern; [contradiction|simpl; lia]).
  assert (Hin : (k + length pattern <= length buf)%nat).
  { destruct (occurs_at_length _ _ _ Hocc) as [H|H]; [exact H|contradiction]. }
  apply PatternMatch_at; [lia|exact Hp|lia|].
  intros i Hi. rewrite (occurs_at_sig _ _ _ _ Hocc Hi). apply ceq_refl.
Qed.

End AgreementFacts.

Import CoverageFacts BindingFacts.




(** X2.  The builder succeeds on an input exactly when the circuit has a
    satisfying assignment over the padded buffer with the three literals as
    its pattern inputs: the builder refuses no email that could be proved,
    and emits no assignment for one that could not. *)
Theorem circuit_accepts_literals_iff_build_succeeds (Poseidon : Z -> Z -> Z)
    (bytes : list byte) :
  (exists input, Builder.buildCircuitInput Poseidon bytes = inr input)
  <-> exists email_hash from_selector to_selector domain_selector,
        Circuit.main Poseidon email_hash (Builder.padded bytes)
          (Builder.strBytesAscii Builder.fromStr)
          (Builder.strBytesAscii Builder.toStr)
          (Builder.strBytesAscii Builder.atgStr)
          from_selector to_selector domain_selector.
Proof.
  pose proof (BuilderFacts.padded_length bytes) as Hlen.
  pose proof (BuilderFacts.padded_bytes bytes) as Hbytes.
  split.
  - intros [input Hok].
    apply BuilderFacts.build_success_inv in Hok
      as (k1 & k2 & k3 & [F1 _] & [F2 _] & [F3 _] & _).
    exists (Builder.commitment Poseidon (Builder.padded bytes)),
           (Builder.oneHot 8192 (Z.of_nat k1)),
           (Builder.oneHot 8192 (Z.of_nat k2)),
           (Builder.oneHot 8192 (Z.of_nat k3)).
    unfold Circuit.main, Circuit.EmailHeaderVerifier.
    split; [|split; [|split]].
    + apply BuilderFacts.HashVerification_commitment; [exact Hlen|exact Hbytes|].
      apply Z.mod_small, BuilderFacts.commitment_canonical, Hlen.
    + exact (AgreementFacts.occurrence_matches _ (Builder.strBytesAscii Builder.fromStr)
               k1 Hlen ltac:(discriminate) F1).
    + exact (AgreementFacts.occurrence_matches _ (Builder.strBytesAscii Builder.toStr)
               k2 Hlen ltac:(discriminate) F2).
    + exact (AgreementFacts.occurrence_matches _ (Builder.strBytesAscii Builder.atgStr)
               k3 Hlen ltac:(discriminate) F3).
  - intros (email_hash & sf & st & sg & _ & H1 & H2 & H3).
    apply BuilderFacts.build_succeeds.
    + apply (AgreementFacts.PatternMatch_contains _ _ sf Hlen Hbytes);
        [discriminate|simpl; lia|apply AgreementFacts.literal_bytes; simpl; auto|exact H1].
    + apply (AgreementFacts.PatternMatch_contains _ _ st Hlen Hbytes);
        [discriminate|simpl; lia|apply AgreementFacts.literal_bytes; simpl; auto|exact H2].
    + apply (AgreementFacts.PatternMatch_contains _ _ sg Hlen Hbytes);
        [discriminate|simpl; lia|apply AgreementFacts.literal_bytes; simpl; auto|exact H3].
Qed.


(** X3.  The three patterns are private inputs of the main component and no
    constraint ties them to the literals: every buffer of 8192 bytes has a
    satisfying assignment, with its own commitment as the public hash, its
    own first 5, 3 and 10 bytes as the patterns and the selectors at offset
    0. The circuit alone therefore establishes the commitment, and that
    whatever patterns the prover chose occur in the buffer. *)
Theorem main_accepts_any_byte_buffer (Poseidon : Z -> Z -> Z) (email_data : list Z) :
  length email_data = Z.to_nat Builder.MAX ->
  Forall Builder.is_byte email_data ->
  Circuit.main Poseidon (Builder.commitment Poseidon email_data) email_data
    (take 5 email_data) (take 3 email_data) (take 10 email_data)
    (Builder.oneHot 8192 0) (Builder.oneHot 8192 0) (Builder.oneHot 8192 0).
Proof.
  intros Hlen Hbytes.
  assert (Hp : 8192 < Field.p) by reflexivity.
  assert (Htake : forall (n : nat) i, 0 <= i < Z.of_nat n ->
            sig email_data (0 + i) === sig (take n email_data) i).
  { intros n i Hi. simpl. unfold sig.
    rewrite !nth_lookup, lookup_take_lt by lia.
    apply FieldFacts.ceq_refl. }
  unfold Circuit.main, Circuit.EmailHeaderVerifier.
  split; [|split; [|split]].
  - apply BuilderFacts.HashVerification_commitment; [exact Hlen|exact Hbytes|].
    apply Z.mod_small, BuilderFacts.commitment_canonical, Hlen.
  - apply PatternMatch_at; [lia|exact Hp|lia|]. intros i Hi. apply (Htake 5%nat). lia.
  - apply PatternMatch_at; [lia|exact Hp|lia|]. intros i Hi. apply (Htake 3%nat). lia.
  - apply PatternMatch_at; [lia|exact Hp|lia|]. intros i Hi. apply (Htake 10%nat). lia.
Qed.

Lemma main_accepts_any_byte_buffer_witness :
  let email_data := replicate (Z.to_nat Builder.MAX) 0 in
  ~ Builder.contains email_data (Builder.strBytesAscii Builder.fromStr) /\
  Circuit.main Samples.stand_in_hash
    (Builder.commitment Samples.stand_in_hash email_data) email_data
    (take 5 email_data) (take 3 email_data) (take 10 email_data)
    (Builder.oneHot 8192 0) (Builder.oneHot 8192 0) (Builder.oneHot 8192 0).
Proof.
  intros email_data. split.
  - intros [k Hk]. unfold Builder.occurs_at in Hk.
    assert (H0 : (take (length (Builder.strBytesAscii Builder.fromStr))
                    (drop k email_data)) !! 0%nat = Some 70).
    { rewrite Hk. reflexivity. }
    rewrite lookup_take_lt in H0 by (simpl; lia).
    rewrite lookup_drop in H0. unfold email_data in H0.
    apply lookup_replicate in H0 as [H0 _]. discriminate.
  - apply main_accepts_any_byte_buffer.
    + apply length_replicate.
    + apply Forall_replicate. unfold Builder.is_byte. lia.
Defined.


(** X4.  For 1 <= PATTERN_LEN <= MAX_EMAIL_LEN < 2^32 (an array length), a
    pattern matcher with its output constrained to 1 accepts the one-hot
    selector of every window offset at which the buffer holds the pattern,
    not only of the first one; and some selector is accepted exactly when
    the pattern occurs at some offset of the window. *)
Theorem PatternMatch_accepts_any_occurrence (MAX_EMAIL_LEN PATTERN_LEN : Z)
    (email_data pattern : list Z) :
  1 <= PATTERN_LEN <= MAX_EMAIL_LEN ->
  MAX_EMAIL_LEN < 2 ^ 32 ->
  (forall k,
     0 <= k <= MAX_EMAIL_LEN - PATTERN_LEN ->
     (forall i, 0 <= i < PATTERN_LEN ->
        sig email_data (k + i) === sig pattern i) ->
     Circuit.PatternMatch MAX_EMAIL_LEN PATTERN_LEN email_data pattern
       (Builder.oneHot MAX_EMAIL_LEN k)) /\
  ((exists selector,
      Circuit.PatternMatch MAX_EMAIL_LEN PATTERN_LEN email_data pattern selector)
   <-> exists k,
         0 <= k <= MAX_EMAIL_LEN - PATTERN_LEN /\
         forall i, 0 <= i < PATTERN_LEN ->
           sig email_data (k + i) === sig pattern i).
Proof.
  intros HL Hlen.
  assert (Hp : MAX_EMAIL_LEN < Field.p)
    by (eapply Z.lt_trans; [exact Hlen|reflexivity]).
  split.
  - intros k Hk Hm. now apply PatternMatch_at.
  - split.
    + intros [selector H]. apply PatternMatch_offset in H as (k & Hk & _ & Hm);
        [|exact HL|exact Hp]. eauto.
    + intros (k & Hk & Hm). exists (Builder.oneHot MAX_EMAIL_LEN k).
      now apply PatternMatch_at.
Qed.

Lemma PatternMatch_accepts_any_occurrence_witness :
  let email_data := [84; 111; 58; 32; 84; 111; 58; 32] in
  let pattern := [84; 111; 58] in
  Circuit.PatternMatch 8 3 email_data pattern (Builder.oneHot 8 0) /\
  Circuit.PatternMatch 8 3 email_data pattern (Builder.oneHot 8 4).
Proof.
  intros email_data pattern.
  assert (HL : 1 <= 3 <= 8) by lia.
  assert (Hp : 8 < 2 ^ 32) by reflexivity.
  pose proof (proj1 (PatternMatch_accepts_any_occurrence 8 3 email_data pattern HL Hp))
    as H.
  split; apply H; try lia; intros i Hi;
    assert (Hi' : i = 0 \/ i = 1 \/ i = 2) by lia;
    destruct Hi' as [-> | [-> | ->]]; reflexivity.
Defined.


(** X5.  For 1 <= PATTERN_LEN <= MAX_EMAIL_LEN < 2^32, a selector built by
    [oneHot] for a position outside the valid window [0, MAX_EMAIL_LEN -
    PATTERN_LEN] (the all-zero vector included) does not satisfy the pattern
    matcher, whatever the buffer, the pattern and the output signal. *)
Theorem selector_outside_window_is_rejected (MAX_EMAIL_LEN PATTERN_LEN pos : Z)
    (email_data pattern : list Z) (match_found : Z) :
  1 <= PATTERN_LEN <= MAX_EMAIL_LEN ->
  MAX_EMAIL_LEN < 2 ^ 32 ->
  ~ 0 <= pos <= MAX_EMAIL_LEN - PATTERN_LEN ->
  ~ Circuit.PatternMatcher MAX_EMAIL_LEN PATTERN_LEN email_data pattern
      (Builder.oneHot MAX_EMAIL_LEN pos) match_found.
Proof.
  intros HL Hlen Hout H.
  assert (Hp : MAX_EMAIL_LEN < Field.p)
    by (eapply Z.lt_trans; [exact Hlen|reflexivity]).
  apply CircuitFacts.PatternMatcher_spec in H as (_ & (_ & Hsum & _) & _);
    [|exact HL|exact Hp].
  rewrite sum_range_all_zero in Hsum; [discriminate|].
  intros t Ht. rewrite BuilderFacts.oneHot_sig by lia.
  destruct (Z.eqb_spec t pos) as [->|Hne]; [lia|].
  now rewrite andb_false_r.
Qed.

Lemma selector_outside_window_is_rejected_witness :
  (1 <= 5 <= 8192 /\ 8192 < 2 ^ 32 /\ ~ 0 <= 8190 <= 8192 - 5) /\
  ~ Circuit.PatternMatcher 8192 5 (Builder.padded Samples.email)
      (Builder.strBytesAscii Builder.fromStr) (Builder.oneHot 8192 8190) 1.
Proof.
  assert (HL : 1 <= 5 <= 8192) by lia.
  assert (Hp : 8192 < 2 ^ 32) by reflexivity.
  assert (Hout : ~ 0 <= 8190 <= 8192 - 5) by lia.
  split; [auto|].
  exact (selector_outside_window_is_rejected 8192 5 8190 _ _ 1 HL Hp Hout).
Defined.


(** X6.  When the constraints of [EncodeBytesToField] hold, the field
    element is below 256^31, which is below the field modulus, and each of
    the 31 input bytes is recovered from it as the digit (field_element /
    256^i) mod 256: the packing loses nothing, so two byte arrays with the
    same field element are equal. *)
Theorem EncodeBytesToField_decodes (byte_array : list Z) (field_element : Z) :
  Circuit.EncodeBytesToField byte_array field_element ->
  0 <= Field.F_e field_element < 256 ^ 31 /\
  256 ^ 31 < Field.p /\
  forall i, 0 <= i < 31 ->
    Field.F_e (sig byte_array i) = (Field.F_e field_element / 256 ^ i) mod 256.
Proof.
  intros H. apply CircuitFacts.EncodeBytesToField_spec in H as [Hb Hv].
  set (f := fun j => Field.F_e (sig byte_array j)).
  assert (Hf : forall j, 0 <= j < 31 -> 0 <= f j < 256).
  { intros j Hj. specialize (Hb j Hj). unfold f, Field.F_e. lia. }
  assert (Hsum : 0 <= sum_range (fun j => f j * 256 ^ j) 31 < 256 ^ 31).
  { apply CircuitFacts.digits_bound; [lia|lia|exact Hf]. }
  assert (Hval : Field.F_e field_element = sum_range (fun j => f j * 256 ^ j) 31).
  { unfold Field.F_e. rewrite Hv.
    transitivity (sum_range (fun j => f j * 256 ^ j) 31 mod Field.p).
    - apply CircuitFacts.sum_range_ceq; [lia|]. intros j Hj.
      apply FieldFacts.ceq_mul; [|apply FieldFacts.ceq_refl].
      apply FieldFacts.ceq_sym, FieldFacts.ceq_mod.
    - apply Z.mod_small. pose proof FieldFacts.p_above_31_bytes. lia. }
  split; [rewrite Hval; exact Hsum|]. split; [exact FieldFacts.p_above_31_bytes|].
  intros i Hi. rewrite Hval.
  symmetry. apply (digit_extract f 256 31); [lia| |lia].
  intros j Hj. apply Hf. lia.
Qed.

Lemma EncodeBytesToField_decodes_witness :
  let byte_array := [70; 114; 111; 109; 58] in
  let field_element := 70 + 114 * 256 + 111 * 256 ^ 2 + 109 * 256 ^ 3 + 58 * 256 ^ 4 in
  Circuit.EncodeBytesToField byte_array field_element /\
  Field.F_e (sig byte_array 3) = (Field.F_e field_element / 256 ^ 3) mod 256.
Proof.
  intros byte_array field_element.
  assert (H : Circuit.EncodeBytesToField byte_array field_element).
  { apply CircuitFacts.EncodeBytesToField_spec. split; [|reflexivity].
    intros i Hi.
    assert (Hb : Builder.is_byte (sig byte_array i)).
    { apply BuilderFacts.sig_is_byte. unfold byte_array, Builder.is_byte.
      repeat constructor; lia. }
    unfold Builder.is_byte in Hb. rewrite Z.mod_small; [exact Hb|].
    pose proof FieldFacts.p_above_31_bytes. lia. }
  split; [exact H|].
  apply (proj2 (proj2 (EncodeBytesToField_decodes byte_array field_element H))).
  lia.
Defined.


(** X7.  The constraints of [BooleanConstraint] hold exactly when the output
    is the input, as field elements, and the input is the field element 0 or
    1. *)
Theorem BooleanConstraint_characterised (value result : Z) :
  Circuit.BooleanConstraint value result
  <-> Field.F_e result = Field.F_e value /\
      (Field.F_e value = 0 \/ Field.F_e value = 1).
Proof.
  unfold Circuit.BooleanConstraint, Field.F_e.
  rewrite FieldFacts.ceq_boolean. unfold Field.ceq.
  split; intros [H1 H2]; (split; [exact H1|]); congruence.
Qed.


(** X8.  The commitment binds the buffer as far as the hash is collision
    free: two different buffers of 8192 bytes with the same commitment
    exhibit two different pairs of canonical field elements on which the
    Poseidon instance takes the same value. *)
Theorem commitment_collision_gives_hash_collision (Poseidon : Z -> Z -> Z)
    (eml1 eml2 : list Z) :
  length eml1 = Z.to_nat Builder.MAX -> Forall Builder.is_byte eml1 ->
  length eml2 = Z.to_nat Builder.MAX -> Forall Builder.is_byte eml2 ->
  eml1 <> eml2 ->
  Builder.commitment Poseidon eml1 = Builder.commitment Poseidon eml2 ->
  Spec.collision Poseidon.
Proof.
  intros Hl1 Hb1 Hl2 Hb2 Hne Heq.
  rewrite !BuilderFacts.commitment_chain in Heq by assumption.
  apply (chain_collision Poseidon eml1 eml2 Hb1 Hb2 265%nat Heq).
  destruct (differ_in_block eml1 eml2 Hl1 Hl2 Hb1 Hb2 Hne) as (c & Hc & Hd).
  exists c. split; [lia|exact Hd].
Qed.

Lemma commitment_collision_gives_hash_collision_witness :
  let eml1 := 0 :: replicate 30 0 ++ 31 :: replicate (Z.to_nat 8160) 0 in
  let eml2 := 1 :: replicate 30 0 ++ 0 :: replicate (Z.to_nat 8160) 0 in
  eml1 <> eml2 /\
  Builder.commitment Samples.stand_in_hash eml1
  = Builder.commitment Samples.stand_in_hash eml2 /\
  Spec.collision Samples.stand_in_hash.
Proof.
  intros eml1 eml2.
  assert (Hne : eml1 <> eml2) by discriminate.
  assert (Heq : Builder.commitment Samples.stand_in_hash eml1
                = Builder.commitment Samples.stand_in_hash eml2)
    by (vm_compute; reflexivity).
  split; [exact Hne|]. split; [exact Heq|].
  apply (commitment_collision_gives_hash_collision Samples.stand_in_hash eml1 eml2).
  - vm_compute. reflexivity.
  - unfold eml1, Builder.is_byte. constructor; [lia|].
    apply Forall_app. split; [apply Forall_replicate; lia|].
    constructor; [lia|]. apply Forall_replicate. lia.
  - vm_compute. reflexivity.
  - unfold eml2, Builder.is_byte. constructor; [lia|].
    apply Forall_app. split; [apply Forall_replicate; lia|].
    constructor; [lia|]. apply Forall_replicate. lia.
  - exact Hne.
  - exact Heq.
Defined.


(** X9.  The builder's outcome depends on the first 8192 bytes only, and
    does not tell an input from the same input followed by zero bytes (while
    the total stays within 8192 bytes): such inputs get the same commitment
    and the same assignment. *)
Theorem build_ignores_tail_and_zero_padding (Poseidon : Z -> Z -> Z)
    (bytes : list byte) :
  (forall extra,
     (Z.to_nat Builder.MAX <= length bytes)%nat ->
     Builder.buildCircuitInput Poseidon (bytes ++ extra)
     = Builder.buildCircuitInput Poseidon bytes) /\
  (forall n : nat,
     (length bytes + n <= Z.to_nat Builder.MAX)%nat ->
     Builder.buildCircuitInput Poseidon (bytes ++ replicate n x00)
     = Builder.buildCircuitInput Poseidon bytes).
Proof.
  split.
  - intros extra H. rewrite !BuilderFacts.buildCircuitInput_unfold.
    now rewrite (PaddingFacts.padded_truncates bytes extra H).
  - intros n H. rewrite !BuilderFacts.buildCircuitInput_unfold.
    now rewrite (PaddingFacts.padded_zero_tail bytes n H).
Qed.

Lemma build_ignores_tail_and_zero_padding_witness :
  Samples.email ++ [x00; x00; x00] <> Samples.email /\
  Builder.buildCircuitInput Samples.stand_in_hash (Samples.email ++ [x00; x00; x00])
  = Builder.buildCircuitInput Samples.stand_in_hash Samples.email.
Proof.
  split.
  - intros H. apply (f_equal length) in H. vm_compute in H. discriminate.
  - apply (proj2 (build_ignores_tail_and_zero_padding Samples.stand_in_hash
                    Samples.email) 3%nat).
    apply Nat2Z.inj_le. rewrite Z2Nat.id by (unfold Builder.MAX; lia).
    vm_compute. discriminate.
Defined.


(** X10.  For a list of bytes, [pack31LE] yields a number below 256^31,
    unchanged by the reduction to a field element; byte i of the list, or 0
    past its end, is recovered as the digit (pack / 256^i) mod 256 for i <
    31; entries from index 31 on are ignored; and appended zeros do not
    change the result. *)
Theorem pack31LE_round_trip (bytes : list Z) :
  Forall Builder.is_byte bytes ->
  0 <= Builder.pack31LE bytes < 256 ^ 31 /\
  Field.F_e (Builder.pack31LE bytes) = Builder.pack31LE bytes /\
  (forall i, 0 <= i < 31 ->
     (Builder.pack31LE bytes / 256 ^ i) mod 256
     = default 0 (bytes !! Z.to_nat i)) /\
  Builder.pack31LE (take 31 bytes) = Builder.pack31LE bytes /\
  (forall n : nat,
     Builder.pack31LE (bytes ++ replicate n 0) = Builder.pack31LE bytes).
Proof.
  intros Hb.
  set (f := fun i : Z => default 0 (bytes !! Z.to_nat i)).
  assert (Hf : forall j, 0 <= j < 31 -> 0 <= f j < 256).
  { intros j _. pose proof (PackFacts.lookup_is_byte bytes (Z.to_nat j) Hb) as H.
    unfold Builder.is_byte in H. unfold f. lia. }
  assert (Hsum : Builder.pack31LE bytes = sum_range (fun i => f i * 256 ^ i) 31)
    by apply BuilderFacts.pack31LE_sum.
  assert (Hrange : 0 <= Builder.pack31LE bytes < 256 ^ 31).
  { rewrite Hsum. apply CircuitFacts.digits_bound; [lia|lia|exact Hf]. }
  split; [exact Hrange|]. split; [|split; [|split]].
  - unfold Field.F_e. apply Z.mod_small. split; [apply Hrange|].
    eapply Z.lt_trans; [apply Hrange|exact FieldFacts.p_above_31_bytes].
  - intros i Hi. rewrite Hsum.
    apply (digit_extract f 256 31); [lia| |lia]. intros j Hj. apply Hf. lia.
  - apply PackFacts.pack31LE_ext. intros i Hi. now rewrite lookup_take_lt by exact Hi.
  - intros n. apply PackFacts.pack31LE_ext. intros i _.
    destruct (Nat.lt_ge_cases i (length bytes)) as [Hlt|Hge].
    + now rewrite lookup_app_l by exact Hlt.
    + rewrite lookup_app_r by exact Hge.
      rewrite (proj2 (lookup_ge_None bytes i) Hge). simpl.
      destruct (replicate n 0 !! (i - length bytes)%nat) as [x|] eqn:E;
        [|reflexivity].
      apply lookup_replicate in E as [-> _]. reflexivity.
Qed.

Lemma pack31LE_round_trip_witness :
  let bytes := [70; 114; 111; 109; 58] in
  Builder.pack31LE bytes = 250944123462 /\
  (Builder.pack31LE bytes / 256 ^ 4) mod 256 = 58 /\
  (Builder.pack31LE bytes / 256 ^ 5) mod 256 = 0.
Proof.
  intros bytes.
  assert (Hb : Forall Builder.is_byte bytes).
  { unfold bytes, Builder.is_byte. repeat constructor; lia. }
  destruct (pack31LE_round_trip bytes Hb) as (_ & _ & Hd & _).
  split; [reflexivity|]. split.
  - rewrite (Hd 4) by lia. reflexivity.
  - rewrite (Hd 5) by lia. reflexivity.
Defined.


(** X11.  For a length that [new Array] accepts (0 <= length < 2^32),
    [oneHot] returns that many entries; for 0 <= pos < length they are 1 at
    pos and 0 elsewhere; for any other pos the vector is all zeros and
    nothing is signalled. *)
Theorem oneHot_marks_only_in_range (length pos : Z) :
  0 <= length < 2 ^ 32 ->
  List.length (Builder.oneHot length pos) = Z.to_nat length /\
  (0 <= pos < length ->
   forall i, 0 <= i < length ->
     sig (Builder.oneHot length pos) i = if i =? pos then 1 else 0) /\
  (~ 0 <= pos < length ->
   Builder.oneHot length pos = replicate (Z.to_nat length) 0).
Proof.
  intros Hlen. split; [apply BuilderFacts.oneHot_length|]. split.
  - intros Hpos i Hi. rewrite BuilderFacts.oneHot_sig by exact Hi.
    destruct (Z.leb_spec 0 pos); [|lia]. destruct (Z.ltb_spec pos length); [|lia].
    reflexivity.
  - intros Hout. unfold Builder.oneHot.
    destruct (Z.leb_spec 0 pos); [|reflexivity].
    destruct (Z.ltb_spec pos length); [lia|reflexivity].
Qed.

Lemma oneHot_marks_only_in_range_witness :
  Builder.oneHot 4 2 = [0; 0; 1; 0] /\
  Builder.oneHot 4 4 = [0; 0; 0; 0] /\
  Builder.oneHot 4 (-1) = replicate (Z.to_nat 4) 0.
Proof.
  assert (H4 : 0 <= 4 < 2 ^ 32) by lia.
  split; [reflexivity|]. split; [reflexivity|].
  apply (proj2 (proj2 (oneHot_marks_only_in_range 4 (-1) H4))). lia.
Defined.


(** ** The registry *)
Module RegistryInvariants.
Import Registry.

(** Reading the storage after a write. *)
Lemma identity_at_insert st identifier d ens ids identifier' :
  identity_at {| identities := <[identifier := d]> (identities st);
                 ensToIdentifier := ens; allIdentifiers := ids |} identifier'
  = if decide (identifier = identifier') then d else identity_at st identifier'.
Proof.
  unfold identity_at. simpl. rewrite lookup_insert.
  destruct (decide (identifier = identifier')); reflexivity.
Qed.

Lemma getIdentity_at st identifier :
  getIdentity st identifier
  = if exists_ (identity_at st identifier) then inr (identity_at st identifier)
    else inl (RequireFailed "Identity does not exist").
Proof. reflexivity. Qed.

Lemma ensToIdentifier_at_insert st ids ens e identifier e' :
  ensToIdentifier_at {| identities := ids; ensToIdentifier := <[e := identifier]> ens;
                        allIdentifiers := allIdentifiers st |} e'
  = if decide (e = e') then identifier else default EmptyString (ens !! e').
Proof.
  unfold ensToIdentifier_at. simpl. rewrite lookup_insert.
  destruct (decide (e = e')); reflexivity.
Qed.

(** A [require] lets the rest run exactly when its condition holds. *)
Lemma require_inr {A} condition reason (rest : Revert + A) x :
  require condition reason rest = inr x <-> condition = true /\ rest = inr x.
Proof. unfold require. destruct condition; split; intros H; try tauto; try discriminate. destruct H; discriminate. Qed.

Lemma flag_test v : ((v =? 0) || (v =? 1)) = true <-> v = 0 \/ v = 1.
Proof. rewrite orb_true_iff, !Z.eqb_eq. tauto. Qed.

Lemma bytes_length_pos s : (0 <? bytes_length s) = true <-> s <> EmptyString.
Proof.
  unfold bytes_length. destruct s as [|c s]; simpl String.length.
  - split; [discriminate|congruence].
  - split; [discriminate|]. intros _. apply Z.ltb_lt. lia.
Qed.

Lemma same_string_eq a b : same_string a b = true <-> a = b.
Proof. unfold same_string. apply String.eqb_eq. Qed.

(** The invariant holds at deployment and is kept by every step. *)
Lemma consistent_deployed : consistent deployed.
Proof.
  split; unfold deployed, identity_at; simpl; intros; rewrite ?lookup_empty in *; simpl in *;
    try (split; [discriminate|tauto]); try constructor; try tauto; try discriminate; auto.
Qed.

Lemma step_consistent st id st' : consistent st -> step st id st' -> consistent st'.
Proof.
  intros [Hex Hnd Hne Hbl Hfl Hens] Hstep.
  destruct Hstep as [d Hfresh Hid Hd Hbin | d Hold Hd Hbin | d Hold Hd Hname Hbin].
  - split; simpl.
    + intros id'. rewrite identity_at_insert, in_app_iff. simpl.
      destruct (decide (id = id')) as [->|Hneq].
      * split; auto.
      * rewrite Hex. split; [tauto|]. intros [H|[H|[]]]; congruence.
    + apply NoDup_ListNoDup, NoDup_app. repeat split.
      * now apply NoDup_ListNoDup.
      * intros x Hx. rewrite list_elem_of_singleton. intros ->.
        apply list_elem_of_In, Hex in Hx. congruence.
      * apply NoDup_singleton.
    + intros id'. rewrite in_app_iff. simpl. intros [H|[<-|[]]]; auto.
    + intros id'. rewrite identity_at_insert.
      destruct (decide (id = id')) as [->|Hneq]; [congruence|].
      intros H. rewrite lookup_insert_ne by assumption. auto.
    + intros id'. rewrite identity_at_insert.
      destruct (decide (id = id')); auto.
    + intros e id'. rewrite lookup_insert, identity_at_insert.
      destruct (decide (mainENSId d = e)) as [<-|He].
      * intros [= <-] _. rewrite decide_True by reflexivity. auto.
      * intros Hl Hn. destruct (Hens _ _ Hl Hn) as [H1 H2].
        destruct (decide (id = id')) as [->|]; [congruence|auto].
  - split; simpl.
    + intros id'. rewrite identity_at_insert.
      destruct (decide (id = id')) as [->|Hneq]; [|apply Hex].
      rewrite <- Hex. tauto.
    + assumption.
    + assumption.
    + intros id'. rewrite identity_at_insert.
      destruct (decide (id = id')) as [->|Hneq]; [congruence|].
      intros H. rewrite lookup_insert_ne by assumption. auto.
    + intros id'. rewrite identity_at_insert.
      destruct (decide (id = id')) as [->|]; auto.
    + intros e id'. rewrite lookup_insert, identity_at_insert.
      destruct (decide (mainENSId d = e)) as [<-|He].
      * intros [= <-] _. rewrite decide_True by reflexivity. auto.
      * rewrite lookup_delete.
        destruct (decide (mainENSId (identity_at st id) = e)) as [<-|He']; [discriminate|].
        intros Hl Hn. destruct (Hens _ _ Hl Hn) as [H1 H2].
        destruct (decide (id = id')) as [->|]; [congruence|auto].
  - split; simpl.
    + intros id'. rewrite identity_at_insert.
      destruct (decide (id = id')) as [->|Hneq]; [|apply Hex].
      rewrite <- Hex. tauto.
    + assumption.
    + assumption.
    + intros id'. rewrite identity_at_insert.
      destruct (decide (id = id')) as [->|Hneq]; [congruence|].
      intros H. rewrite lookup_insert_ne by assumption. auto.
    + intros id'. rewrite identity_at_insert.
      destruct (decide (id = id')) as [->|]; auto.
    + intros e id' Hl Hn. rewrite identity_at_insert.
      destruct (Hens _ _ Hl Hn) as [H1 H2].
      destruct (decide (id = id')) as [->|]; [|auto].
      split; congruence.
Qed.

(** What a call that does not revert required and wrote. *)
Lemma createIdentity_inr st sender ts identifier ensId email organization isHuman
    age ofacStatus publicInput proof st' ev :
  createIdentity st sender ts identifier ensId email organization isHuman age
    ofacStatus publicInput proof = inr (st', ev)
  <-> ((age = 0 \/ age = 1) /\ (ofacStatus = 0 \/ ofacStatus = 1) /\
       exists_ (identity_at st identifier) = false /\
       identifier <> EmptyString /\ ensId <> EmptyString) /\
      st' = {| identities :=
                 <[identifier := {| mainENSId := ensId;
                                    connectedEmail := email;
                                    Registry.organization := organization;
                                    Registry.isHuman := isHuman;
                                    Registry.age := age;
                                    Registry.ofacStatus := ofacStatus;
                                    Registry.publicInput := publicInput;
                                    Registry.proof := proof;
                                    timestamp := ts;
                                    exists_ := true |}]> (identities st);
               ensToIdentifier := <[ensId := identifier]> (ensToIdentifier st);
               allIdentifiers := allIdentifiers st ++ [identifier] |} /\
      ev = IdentityCreated identifier ensId email sender.
Proof.
  unfold createIdentity, validAge, validOFAC.
  rewrite !require_inr, !flag_test, !bytes_length_pos, negb_true_iff.
  split.
  - intros (? & ? & ? & ? & ? & [= <- <-]). tauto.
  - intros ((? & ? & ? & ? & ?) & -> & ->). tauto.
Qed.

Lemma updateIdentity_inr st sender ts identifier ensId email organization isHuman
    age ofacStatus publicInput proof st' ev :
  updateIdentity st sender ts identifier ensId email organization isHuman age
    ofacStatus publicInput proof = inr (st', ev)
  <-> ((age = 0 \/ age = 1) /\ (ofacStatus = 0 \/ ofacStatus = 1) /\
       exists_ (identity_at st identifier) = true) /\
      st' = {| identities :=
                 <[identifier := {| mainENSId := ensId;
                                    connectedEmail := email;
                                    Registry.organization := organization;
                                    Registry.isHuman := isHuman;
                                    Registry.age := age;
                                    Registry.ofacStatus := ofacStatus;
                                    Registry.publicInput := publicInput;
                                    Registry.proof := proof;
                                    timestamp := ts;
                                    exists_ := exists_ (identity_at st identifier) |}]>
                   (identities st);
               ensToIdentifier :=
                 if negb (same_string (mainENSId (identity_at st identifier)) ensId)
                 then <[ensId := identifier]>
                        (delete (mainENSId (identity_at st identifier))
                                (ensToIdentifier st))
                 else ensToIdentifier st;
               allIdentifiers := allIdentifiers st |} /\
      ev = IdentityUpdated identifier ensId sender.
Proof.
  unfold updateIdentity, validAge, validOFAC, onlyIdentityOwner.
  rewrite !require_inr, !flag_test.
  split.
  - intros (? & ? & ? & [= <- <-]). tauto.
  - intros ((? & ? & ?) & -> & ->). tauto.
Qed.

Lemma updateNumericField_inr st ts identifier fieldName newValue st' ev :
  updateNumericField st ts identifier fieldName newValue = inr (st', ev)
  <-> (exists_ (identity_at st identifier) = true /\
       (newValue = 0 \/ newValue = 1) /\
       (fieldName = "age"%string \/ fieldName = "ofacStatus"%string)) /\
      st' = {| identities :=
                 <[identifier :=
                     set_timestamp ts
                       (if same_string fieldName "age"
                        then set_age newValue (identity_at st identifier)
                        else set_ofacStatus newValue (identity_at st identifier))]>
                   (identities st);
               ensToIdentifier := ensToIdentifier st;
               allIdentifiers := allIdentifiers st |} /\
      ev = DataFieldUpdated identifier fieldName (encodePacked_uint8 newValue).
Proof.
  unfold updateNumericField, onlyIdentityOwner, Outcome.
  rewrite !require_inr, !flag_test.
  destruct (same_string fieldName "age") eqn:Ea;
    [|destruct (same_string fieldName "ofacStatus") eqn:Eo].
  - apply same_string_eq in Ea as ->. unfold finish. split.
    + intros (? & ? & [= <- <-]). tauto.
    + intros ((? & ? & ?) & -> & ->). tauto.
  - apply same_string_eq in Eo as ->. unfold finish. split.
    + intros (? & ? & [= <- <-]). tauto.
    + intros ((? & ? & ?) & -> & ->). tauto.
  - split.
    + intros (_ & _ & [=]).
    + intros ((_ & _ & [-> | ->]) & _); discriminate.
Qed.

Lemma decode_flag_digit newValue r1 r2 v :
  decode_flag newValue r1 r2 = inr v ->
  newValue = "0"%string /\ v = 0 \/ newValue = "1"%string /\ v = 1.
Proof.
  intros H. pose proof (RegistryFacts.decode_flag_inr _ _ _ _ H)
    as (c & -> & Hv & _ & [Hl | Hl]); injection Hl as ->; simpl in Hv; auto.
Qed.

Ltac field_branch E c :=
  apply same_string_eq in E as ->; unfold finish; intros [= <- <-];
  split; [reflexivity|split; [reflexivity|right; split; [assumption|]]];
  eexists; split; [c|reflexivity].

Lemma updateField_inr st ts identifier fieldName newValue st' ev :
  updateField st ts identifier fieldName newValue = inr (st', ev) ->
  exists_ (identity_at st identifier) = true /\
  ev = DataFieldUpdated identifier fieldName newValue /\
  ((fieldName = "mainENSId"%string /\
    st' = {| identities :=
               <[identifier :=
                   set_timestamp ts (set_mainENSId newValue (identity_at st identifier))]>
                 (identities st);
             ensToIdentifier :=
               <[newValue := identifier]>
                 (delete (mainENSId (identity_at st identifier)) (ensToIdentifier st));
             allIdentifiers := allIdentifiers st |}) \/
   (fieldName <> "mainENSId"%string /\
    exists d, field_written fieldName newValue (identity_at st identifier) d /\
      st' = {| identities := <[identifier := set_timestamp ts d]> (identities st);
               ensToIdentifier := ensToIdentifier st;
               allIdentifiers := allIdentifiers st |})).
Proof.
  unfold updateField.
  destruct (exists_ (identity_at st identifier)) eqn:Hex; simpl; [|discriminate].
  destruct (same_string fieldName "mainENSId") eqn:E1.
  { apply same_string_eq in E1 as ->. unfold finish. intros [= <- <-]. auto. }
  assert (Hn : fieldName <> "mainENSId"%string).
  { intros ->. discriminate. }
  destruct (same_string fieldName "connectedEmail") eqn:E2.
  { field_branch E2 ltac:(now apply write_connectedEmail). }
  destruct (same_string fieldName "organization") eqn:E3.
  { field_branch E3 ltac:(now apply write_organization). }
  destruct (same_string fieldName "isHuman") eqn:E4.
  { field_branch E4 ltac:(now apply write_isHuman). }
  destruct (same_string fieldName "age") eqn:E5.
  { destruct (decode_flag newValue _ _) as [r|v] eqn:Hd; [discriminate|].
    apply decode_flag_digit in Hd.
    field_branch E5 ltac:(apply write_age; [reflexivity|eassumption]). }
  destruct (same_string fieldName "ofacStatus") eqn:E6.
  { destruct (decode_flag newValue _ _) as [r|v] eqn:Hd; [discriminate|].
    apply decode_flag_digit in Hd.
    field_branch E6 ltac:(apply write_ofacStatus; [reflexivity|eassumption]). }
  destruct (same_string fieldName "publicInput") eqn:E7.
  { field_branch E7 ltac:(now apply write_publicInput). }
  destruct (same_string fieldName "proof") eqn:E8.
  { field_branch E8 ltac:(now apply write_proof). }
  discriminate.
Qed.

Lemma field_written_keeps fieldName newValue d d' :
  field_written fieldName newValue d d' ->
  mainENSId d' = mainENSId d /\ exists_ d' = exists_ d /\
  timestamp d' = timestamp d /\
  (binary_flags d -> binary_flags d').
Proof.
  unfold binary_flags.
  destruct 1; simpl; repeat split; try tauto; intros; try tauto;
    destruct H0 as [[_ ->]|[_ ->]]; simpl; tauto.
Qed.

(** Every transaction either leaves the storage as it was or takes one of
    the three steps, at the identifier its call names. *)
Lemma execute_step st tx :
  execute st tx = st \/ step st (call_identifier (tx_call tx)) (execute st tx).
Proof.
  unfold execute.
  destruct (tx_call tx) as [id e em org h a o pi pr | id e em org h a o pi pr
                            | id f v | id f v].
  - destruct (createIdentity _ _ _ _ _ _ _ _ _ _ _ _) as [r|[st' ev]] eqn:H;
      [left; reflexivity|right]. simpl.
    apply createIdentity_inr in H as ((Ha & Ho & Hfresh & Hid & He) & -> & _).
    apply (step_create st id
             {| mainENSId := e; connectedEmail := em; organization := org;
                isHuman := h; age := a; ofacStatus := o; publicInput := pi;
                proof := pr; timestamp := tx_timestamp tx; exists_ := true |});
      try assumption; try reflexivity. split; assumption.
  - destruct (updateIdentity _ _ _ _ _ _ _ _ _ _ _ _) as [r|[st' ev]] eqn:H;
      [left; reflexivity|right]. simpl.
    apply updateIdentity_inr in H as ((Ha & Ho & Hex) & -> & _).
    destruct (same_string (mainENSId (identity_at st id)) e) eqn:E; simpl.
    + apply same_string_eq in E.
      apply step_write; simpl; try assumption; try congruence.
      intros _. split; assumption.
    + apply (step_rename st id
               {| mainENSId := e; connectedEmail := em; organization := org;
                  isHuman := h; age := a; ofacStatus := o; publicInput := pi;
                  proof := pr; timestamp := tx_timestamp tx;
                  exists_ := exists_ (identity_at st id) |});
        simpl; try assumption. intros _. split; assumption.
  - destruct (updateField _ _ _ _ _) as [r|[st' ev]] eqn:H;
      [left; reflexivity|right]. simpl.
    apply updateField_inr in H as (Hex & _ & [[_ ->] | (_ & d & Hw & ->)]).
    + apply (step_rename st id
               (set_timestamp (tx_timestamp tx) (set_mainENSId v (identity_at st id))));
        simpl; auto.
    + apply field_written_keeps in Hw as (H1 & H2 & _ & H4).
      apply step_write; simpl; try congruence. exact H4.
  - destruct (updateNumericField _ _ _ _ _) as [r|[st' ev]] eqn:H;
      [left; reflexivity|right]. simpl.
    apply updateNumericField_inr in H as ((Hex & Hv & Hf) & -> & _).
    apply step_write; try assumption.
    + destruct (same_string f "age"); simpl; assumption.
    + destruct (same_string f "age"); reflexivity.
    + unfold binary_flags. destruct (same_string f "age"); simpl; tauto.
Qed.

Lemma execute_consistent st tx : consistent st -> consistent (execute st tx).
Proof.
  intros H. destruct (execute_step st tx) as [-> | Hs]; [assumption|].
  eapply step_consistent; eassumption.
Qed.

Lemma fold_execute_consistent txs : forall st,
  consistent st -> consistent (fold_left execute txs st).
Proof.
  induction txs as [|tx txs IH]; intros st H; simpl; [assumption|].
  apply IH, execute_consistent, H.
Qed.

Lemma run_consistent txs : consistent (run txs).
Proof. apply fold_execute_consistent, consistent_deployed. Qed.

(** A step deletes no identity and only appends to the list. *)
Lemma step_keeps st id st' :
  step st id st' ->
  (forall identifier, exists_ (identity_at st identifier) = true ->
                      exists_ (identity_at st' identifier) = true) /\
  exists more, allIdentifiers st' = allIdentifiers st ++ more.
Proof.
  destruct 1 as [d Hfresh Hid Hd Hbin | d Hold Hd Hbin | d Hold Hd Hname Hbin];
    (split; [intros id' H; rewrite identity_at_insert;
             destruct (decide (id = id')); [assumption|exact H] | simpl]).
  - eexists; reflexivity.
  - exists []. now rewrite app_nil_r.
  - exists []. now rewrite app_nil_r.
Qed.

Lemma fold_execute_keeps txs : forall st,
  (forall identifier, exists_ (identity_at st identifier) = true ->
     exists_ (identity_at (fold_left execute txs st) identifier) = true) /\
  exists more, allIdentifiers (fold_left execute txs st) = allIdentifiers st ++ more.
Proof.
  induction txs as [|tx txs IH]; intros st; simpl.
  - split; [auto|]. exists []. now rewrite app_nil_r.
  - destruct (IH (execute st tx)) as [IH1 [more IH2]].
    destruct (execute_step st tx) as [E | Hs].
    + rewrite E in *. split; [assumption|]. eauto.
    + apply step_keeps in Hs as [H1 [more' H2]]. split; [auto|].
      exists (more' ++ more). now rewrite IH2, H2, app_assoc.
Qed.

(** A step leaves the other identities alone, and every ENS name other
    than the old and the new name of the identity it writes. *)
Lemma step_frame st id st' :
  step st id st' ->
  (forall identifier, identifier <> id ->
     identity_at st' identifier = identity_at st identifier) /\
  (forall ensId,
     ensId <> mainENSId (identity_at st id) ->
     ensId <> mainENSId (identity_at st' id) ->
     ensToIdentifier st' !! ensId = ensToIdentifier st !! ensId).
Proof.
  destruct 1 as [d Hfresh Hid Hd Hbin | d Hold Hd Hbin | d Hold Hd Hname Hbin];
    (split; [intros id' Hne; rewrite identity_at_insert;
             destruct (decide (id = id')); [congruence|reflexivity]|]);
    intros e He He'; rewrite identity_at_insert, decide_True in He' by reflexivity;
    simpl.
  - now rewrite lookup_insert_ne by congruence.
  - rewrite lookup_insert_ne by congruence. now rewrite lookup_delete_ne by congruence.
  - reflexivity.
Qed.

Ltac settle_reasons :=
  repeat split; intros;
  repeat match goal with
         | H : _ /\ _ |- _ => destruct H
         | H : ex _ |- _ => destruct H
         end;
  try discriminate; try contradiction; try congruence; eauto 10.

End RegistryInvariants.
Import Registry RegistryInvariants.

(** X12.  In every storage the contract reaches from deployment, the listed
    identifiers are exactly the identifiers whose identity exists, each is
    listed once, none is the empty string, and an identity that does not
    exist reads as the all-zero struct. *)
Theorem registry_lists_existing_identities (txs : list Registry.Transaction) :
  (forall identifier,
     Registry.identityExists (Registry.run txs) identifier = true
     <-> In identifier (Registry.getAllIdentifiers (Registry.run txs))) /\
  List.NoDup (Registry.getAllIdentifiers (Registry.run txs)) /\
  (forall identifier,
     In identifier (Registry.getAllIdentifiers (Registry.run txs)) ->
     identifier <> EmptyString) /\
  (forall identifier,
     Registry.identityExists (Registry.run txs) identifier = false ->
     Registry.identity_at (Registry.run txs) identifier = Registry.no_identity).
Proof.
  destruct (run_consistent txs) as [Hex Hnd Hne Hbl _ _].
  repeat split; try assumption; try apply Hex.
  intros id H. unfold identity_at. now rewrite (Hbl id H).
Qed.


(** X13.  In every reachable storage, an identity returned by [getIdentity]
    or [getIdentityByENS] has age and ofacStatus in {0, 1}: every path that
    writes a flag validates it. *)
Theorem stored_flags_are_binary (txs : list Registry.Transaction)
    (name : string) (d : Registry.IdentityData) :
  Registry.getIdentity (Registry.run txs) name = inr d \/
  Registry.getIdentityByENS (Registry.run txs) name = inr d ->
  (Registry.age d = 0 \/ Registry.age d = 1) /\
  (Registry.ofacStatus d = 0 \/ Registry.ofacStatus d = 1).
Proof.
  pose proof (flags_binary _ (run_consistent txs)) as Hfl.
  unfold getIdentity, getIdentityByENS.
  intros [H | H]; apply require_inr in H as [_ [= <-]]; apply Hfl.
Qed.

Lemma stored_flags_are_binary_witness :
  let txs := [ {| Registry.tx_sender := 7; Registry.tx_timestamp := 100;
                  Registry.tx_call :=
                    Registry.CreateIdentity "id-1" "alice.eth" "alice@gmail.com"
                      "NULL" true 1 0 EmptyString EmptyString |};
               {| Registry.tx_sender := 8; Registry.tx_timestamp := 101;
                  Registry.tx_call := Registry.UpdateNumericField "id-1" "age" 2 |};
               {| Registry.tx_sender := 8; Registry.tx_timestamp := 102;
                  Registry.tx_call := Registry.UpdateField "id-1" "ofacStatus" "1" |} ] in
  exists d,
    Registry.getIdentity (Registry.run txs) "id-1" = inr d /\
    (Registry.age d = 0 \/ Registry.age d = 1) /\
    (Registry.ofacStatus d = 0 \/ Registry.ofacStatus d = 1).
Proof.
  intros txs. eexists. split; [vm_compute; reflexivity|].
  apply (stored_flags_are_binary txs "id-1"). left. vm_compute. reflexivity.
Defined.


(** X14.  In every reachable storage, when [getIdentityByENS] returns an
    identity for an ENS name, that identity exists, its mainENSId is this
    name, the name is registered, and [getIdentity] on the identifier the
    name maps to returns the same identity. *)
Theorem ens_lookup_is_sound (txs : list Registry.Transaction)
    (ensId : string) (d : Registry.IdentityData) :
  Registry.getIdentityByENS (Registry.run txs) ensId = inr d ->
  Registry.exists_ d = true /\
  Registry.mainENSId d = ensId /\
  Registry.ensIsRegistered (Registry.run txs) ensId = true /\
  Registry.getIdentity (Registry.run txs)
    (Registry.getIdentifierByENS (Registry.run txs) ensId) = inr d.
Proof.
  pose proof (ens_sound _ (run_consistent txs)) as Hens.
  unfold getIdentityByENS, getIdentity, ensIsRegistered, getIdentifierByENS.
  intros H. apply require_inr in H as [Hlen [= <-]].
  pose proof Hlen as Hne. apply bytes_length_pos in Hne.
  assert (Hl : ensToIdentifier (run txs) !! ensId
               = Some (ensToIdentifier_at (run txs) ensId)).
  { unfold ensToIdentifier_at in *.
    destruct (ensToIdentifier (run txs) !! ensId); [reflexivity|].
    simpl in Hne. congruence. }
  destruct (Hens _ _ Hl Hne) as [H1 H2].
  repeat split; try assumption. now rewrite H1.
Qed.

Lemma ens_lookup_is_sound_witness :
  let txs := [ {| Registry.tx_sender := 7; Registry.tx_timestamp := 100;
                  Registry.tx_call :=
                    Registry.CreateIdentity "id-1" "alice.eth" "alice@gmail.com"
                      "NULL" true 1 0 EmptyString EmptyString |};
               {| Registry.tx_sender := 7; Registry.tx_timestamp := 101;
                  Registry.tx_call :=
                    Registry.UpdateField "id-1" "mainENSId" "alice2.eth" |} ] in
  exists d,
    Registry.getIdentityByENS (Registry.run txs) "alice2.eth" = inr d /\
    Registry.exists_ d = true /\
    Registry.mainENSId d = "alice2.eth"%string.
Proof.
  intros txs. eexists. split; [vm_compute; reflexivity|].
  split; apply (ens_lookup_is_sound txs "alice2.eth"); vm_compute; reflexivity.
Defined.


(** X15.  An identity that exists keeps existing through any sequence of
    transactions; the list of identifiers only grows at its end; and
    [createIdentity] for that identifier reverts ever after. *)
Theorem identity_is_never_deleted (st : Registry.Storage)
    (txs : list Registry.Transaction) (identifier : string) :
  Registry.identityExists st identifier = true ->
  Registry.identityExists (fold_left Registry.execute txs st) identifier = true /\
  (exists more,
     Registry.getAllIdentifiers (fold_left Registry.execute txs st)
     = Registry.getAllIdentifiers st ++ more) /\
  (forall sender ts ensId email organization isHuman age ofacStatus publicInput proof,
     exists r,
       Registry.createIdentity (fold_left Registry.execute txs st) sender ts
         identifier ensId email organization isHuman age ofacStatus publicInput
         proof = inl r).
Proof.
  intros Hex. destruct (fold_execute_keeps txs st) as [H1 H2].
  specialize (H1 identifier Hex).
  split; [exact H1|split; [exact H2|]]. intros.
  destruct (createIdentity _ _ _ _ _ _ _ _ _ _ _ _) as [r|[st' ev]] eqn:H;
    [eauto|].
  apply createIdentity_inr in H as ((_ & _ & Hfresh & _) & _).
  unfold identityExists in H1. congruence.
Qed.

Lemma identity_is_never_deleted_witness :
  let txs := [ {| Registry.tx_sender := 9; Registry.tx_timestamp := 1700000200;
                  Registry.tx_call :=
                    Registry.UpdateIdentity "id-1" EmptyString EmptyString
                      EmptyString false 0 0 EmptyString EmptyString |} ] in
  Registry.identityExists Samples.registry "id-1" = true /\
  Registry.identityExists (fold_left Registry.execute txs Samples.registry) "id-1"
  = true.
Proof.
  intros txs.
  assert (H : Registry.identityExists Samples.registry "id-1" = true)
    by (vm_compute; reflexivity).
  split; [exact H|].
  apply (identity_is_never_deleted Samples.registry txs "id-1" H).
Defined.


(** X16.  A transaction leaves every identity other than the one its call
    names as it was, and changes the identifier of no ENS name other than
    the names this identity carried before and carries after. *)
Theorem call_touches_one_identity (st : Registry.Storage) (tx : Registry.Transaction) :
  (forall identifier,
     identifier <> Registry.call_identifier (Registry.tx_call tx) ->
     Registry.getIdentity (Registry.execute st tx) identifier
     = Registry.getIdentity st identifier /\
     Registry.identityExists (Registry.execute st tx) identifier
     = Registry.identityExists st identifier) /\
  (forall ensId,
     ensId <> Registry.mainENSId
                (Registry.identity_at st (Registry.call_identifier (Registry.tx_call tx))) ->
     ensId <> Registry.mainENSId
                (Registry.identity_at (Registry.execute st tx)
                   (Registry.call_identifier (Registry.tx_call tx))) ->
     Registry.getIdentifierByENS (Registry.execute st tx) ensId
     = Registry.getIdentifierByENS st ensId).
Proof.
  destruct (execute_step st tx) as [E | Hs].
  - rewrite E. split; intros; [split|]; reflexivity.
  - apply step_frame in Hs as [H1 H2]. split.
    + intros id Hne. rewrite !getIdentity_at. unfold identityExists.
      now rewrite (H1 id Hne).
    + intros e He He'. unfold getIdentifierByENS, ensToIdentifier_at.
      now rewrite (H2 e He He').
Qed.


(** X17.  When two identities carry the same ENS name and one of them
    changes its name through [updateField], the name's entry is deleted
    although the other identity still carries it: that identity is
    unchanged, but its name is no longer registered and [getIdentityByENS]
    on it reverts. *)
Theorem ens_change_unregisters_shared_name (st : Registry.Storage) (ts : Z)
    (id1 id2 newValue : string) :
  id1 <> id2 ->
  Registry.identityExists st id1 = true ->
  Registry.mainENSId (Registry.identity_at st id2)
  = Registry.mainENSId (Registry.identity_at st id1) ->
  newValue <> Registry.mainENSId (Registry.identity_at st id1) ->
  exists st' ev,
    Registry.updateField st ts id1 "mainENSId" newValue = inr (st', ev) /\
    Registry.identity_at st' id2 = Registry.identity_at st id2 /\
    Registry.ensIsRegistered st'
      (Registry.mainENSId (Registry.identity_at st' id2)) = false /\
    Registry.getIdentityByENS st'
      (Registry.mainENSId (Registry.identity_at st' id2))
    = inl (Registry.RequireFailed "No identity found for this ENS").
Proof.
  intros Hne Hex Hsame Hnew. unfold identityExists in Hex.
  unfold updateField. rewrite Hex. simpl. unfold finish.
  do 2 eexists. split; [reflexivity|].
  assert (Hid : forall ens ids,
            identity_at {| identities :=
                             <[id1 := set_timestamp ts
                                        (set_mainENSId newValue (identity_at st id1))]>
                               (identities st);
                           ensToIdentifier := ens; allIdentifiers := ids |} id2
            = identity_at st id2).
  { intros. rewrite identity_at_insert. now rewrite decide_False by assumption. }
  rewrite Hid. split; [reflexivity|].
  assert (Hslot : forall ids,
            ensToIdentifier_at
              {| identities := ids;
                 ensToIdentifier :=
                   <[newValue := id1]>
                     (delete (mainENSId (identity_at st id1)) (ensToIdentifier st));
                 allIdentifiers := allIdentifiers st |}
              (mainENSId (identity_at st id2)) = EmptyString).
  { intros. rewrite ensToIdentifier_at_insert, Hsame.
    rewrite decide_False by assumption. now rewrite lookup_delete_eq. }
  unfold ensIsRegistered, getIdentityByENS. rewrite Hslot. split; reflexivity.
Qed.

Lemma ens_change_unregisters_shared_name_witness :
  let create identifier :=
    {| Registry.tx_sender := 7; Registry.tx_timestamp := 100;
       Registry.tx_call :=
         Registry.CreateIdentity identifier "team.eth" "a@gmail.com" "NULL"
           true 1 0 EmptyString EmptyString |} in
  let st := Registry.run [create "id-1"%string; create "id-2"%string] in
  Registry.getIdentifierByENS st "team.eth" = "id-2"%string /\
  exists st' ev,
    Registry.updateField st 200 "id-1" "mainENSId" "solo.eth" = inr (st', ev) /\
    Registry.identity_at st' "id-2" = Registry.identity_at st "id-2" /\
    Registry.ensIsRegistered st'
      (Registry.mainENSId (Registry.identity_at st' "id-2")) = false /\
    Registry.getIdentityByENS st'
      (Registry.mainENSId (Registry.identity_at st' "id-2"))
    = inl (Registry.RequireFailed "No identity found for this ENS").
Proof.
  intros create st. split; [vm_compute; reflexivity|].
  apply (ens_change_unregisters_shared_name st 200 "id-1" "id-2" "solo.eth").
  - discriminate.
  - vm_compute. reflexivity.
  - vm_compute. reflexivity.
  - vm_compute. discriminate.
Defined.


(** X18.  With flags in {0, 1}, a fresh non-empty identifier and a non-empty
    ENS name (registered already or not), [createIdentity] succeeds and
    emits IdentityCreated; afterwards [getIdentity] and [getIdentityByENS]
    return exactly the submitted data stamped with the block time, the ENS
    name maps to the identifier, and the identifier is the last of one more
    listed identifiers. *)
Theorem createIdentity_round_trip (st : Registry.Storage) (sender ts : Z)
    (identifier ensId email organization : string) (isHuman : bool)
    (age ofacStatus : Z) (publicInput proof : string) :
  age = 0 \/ age = 1 ->
  ofacStatus = 0 \/ ofacStatus = 1 ->
  Registry.identityExists st identifier = false ->
  identifier <> EmptyString ->
  ensId <> EmptyString ->
  let created :=
    {| Registry.mainENSId := ensId;
       Registry.connectedEmail := email;
       Registry.organization := organization;
       Registry.isHuman := isHuman;
       Registry.age := age;
       Registry.ofacStatus := ofacStatus;
       Registry.publicInput := publicInput;
       Registry.proof := proof;
       Registry.timestamp := ts;
       Registry.exists_ := true |} in
  exists st',
    Registry.createIdentity st sender ts identifier ensId email organization
      isHuman age ofacStatus publicInput proof
    = inr (st', Registry.IdentityCreated identifier ensId email sender) /\
    Registry.getIdentity st' identifier = inr created /\
    Registry.getIdentityByENS st' ensId = inr created /\
    Registry.getIdentifierByENS st' ensId = identifier /\
    Registry.ensIsRegistered st' ensId = true /\
    Registry.identityExists st' identifier = true /\
    Registry.getAllIdentifiers st' = Registry.getAllIdentifiers st ++ [identifier] /\
    Registry.getTotalIdentities st' = Registry.getTotalIdentities st + 1.
Proof.
  intros Ha Ho Hfresh Hid He created.
  eexists. split.
  { apply createIdentity_inr. repeat split; assumption. }
  assert (Hslot : forall ids,
            ensToIdentifier_at
              {| identities := ids;
                 ensToIdentifier := <[ensId := identifier]> (ensToIdentifier st);
                 allIdentifiers := allIdentifiers st ++ [identifier] |} ensId
            = identifier).
  { intros. unfold ensToIdentifier_at. simpl. now rewrite lookup_insert_eq. }
  assert (Hlen : (0 <? bytes_length identifier) = true)
    by now apply bytes_length_pos.
  unfold getIdentityByENS, getIdentifierByENS, ensIsRegistered, identityExists.
  rewrite getIdentity_at, Hslot, Hlen, identity_at_insert.
  rewrite decide_True by reflexivity. simpl.
  repeat split; try reflexivity.
  unfold getTotalIdentities. simpl. rewrite length_app. simpl. lia.
Qed.

Lemma createIdentity_round_trip_witness :
  exists st',
    Registry.createIdentity Samples.registry 7 1700000400 "id-2" "alice.eth"
      "bob@gmail.com" "NULL" false 0 1 "signal" "pi"
    = inr (st', Registry.IdentityCreated "id-2" "alice.eth" "bob@gmail.com" 7) /\
    Registry.getIdentifierByENS st' "alice.eth" = "id-2"%string /\
    Registry.getTotalIdentities st' = 2.
Proof.
  destruct (createIdentity_round_trip Samples.registry 7 1700000400 "id-2"
              "alice.eth" "bob@gmail.com" "NULL" false 0 1 "signal" "pi")
    as (st' & H1 & _ & _ & H4 & _ & _ & _ & H8).
  - left. reflexivity.
  - right. reflexivity.
  - vm_compute. reflexivity.
  - discriminate.
  - discriminate.
  - exists st'. repeat split; assumption.
Defined.


(** X19.  Given [uint8] flags (0..255), [createIdentity] succeeds exactly
    when the flags are in {0, 1}, the identifier is fresh and neither the
    identifier nor the ENS name is empty; otherwise it reverts with the
    reason of the first check that fails, in the order age, ofacStatus,
    existence, identifier, ENS name. *)
Theorem createIdentity_revert_reasons (st : Registry.Storage) (sender ts : Z)
    (identifier ensId email organization : string) (isHuman : bool)
    (age ofacStatus : Z) (publicInput proof : string) :
  0 <= age <= 255 ->
  0 <= ofacStatus <= 255 ->
  let outcome :=
    Registry.createIdentity st sender ts identifier ensId email organization
      isHuman age ofacStatus publicInput proof in
  let reverts_with reason := outcome = inl (Registry.RequireFailed reason) in
  ((exists st' ev, outcome = inr (st', ev))
   <-> (age = 0 \/ age = 1) /\ (ofacStatus = 0 \/ ofacStatus = 1) /\
       Registry.identityExists st identifier = false /\
       identifier <> EmptyString /\ ensId <> EmptyString) /\
  (reverts_with "Age must be 0 or 1"%string <-> ~ (age = 0 \/ age = 1)) /\
  (reverts_with "OFAC status must be 0 or 1"%string
   <-> (age = 0 \/ age = 1) /\ ~ (ofacStatus = 0 \/ ofacStatus = 1)) /\
  (reverts_with "Identity already exists"%string
   <-> (age = 0 \/ age = 1) /\ (ofacStatus = 0 \/ ofacStatus = 1) /\
       Registry.identityExists st identifier = true) /\
  (reverts_with "Identifier cannot be empty"%string
   <-> (age = 0 \/ age = 1) /\ (ofacStatus = 0 \/ ofacStatus = 1) /\
       Registry.identityExists st identifier = false /\
       identifier = EmptyString) /\
  (reverts_with "ENS ID cannot be empty"%string
   <-> (age = 0 \/ age = 1) /\ (ofacStatus = 0 \/ ofacStatus = 1) /\
       Registry.identityExists st identifier = false /\
       identifier <> EmptyString /\ ensId = EmptyString).
Proof.
  intros _ _ outcome reverts_with. subst outcome reverts_with.
  unfold createIdentity, validAge, validOFAC, require, identityExists.
  set (A := age = 0 \/ age = 1). set (O := ofacStatus = 0 \/ ofacStatus = 1).
  assert (Ha : {A} + {~ A}).
  { destruct ((age =? 0) || (age =? 1)) eqn:E; [left|right];
      [now apply flag_test|]. intros H. apply flag_test in H. congruence. }
  assert (Ho : {O} + {~ O}).
  { destruct ((ofacStatus =? 0) || (ofacStatus =? 1)) eqn:E; [left|right];
      [now apply flag_test|]. intros H. apply flag_test in H. congruence. }
  assert (Hta : forall b, (b = true <-> A) -> A -> b = true) by (intros ? [_ H]; exact H).
  assert (Hfa : forall b, (b = true <-> A) -> ~ A -> b = false).
  { intros [|] [H _] Hn; [destruct (Hn (H eq_refl))|reflexivity]. }
  assert (Hto : forall b, (b = true <-> O) -> O -> b = true) by (intros ? [_ H]; exact H).
  assert (Hfo : forall b, (b = true <-> O) -> ~ O -> b = false).
  { intros [|] [H _] Hn; [destruct (Hn (H eq_refl))|reflexivity]. }
  destruct Ha as [Ha | Ha];
    [rewrite (Hta _ (flag_test age) Ha) | rewrite (Hfa _ (flag_test age) Ha); settle_reasons].
  destruct Ho as [Ho | Ho];
    [rewrite (Hto _ (flag_test ofacStatus) Ho)
    | rewrite (Hfo _ (flag_test ofacStatus) Ho); settle_reasons].
  destruct (exists_ (identity_at st identifier)); simpl; [settle_reasons|].
  destruct identifier as [|c identifier]; [settle_reasons|].
  destruct ensId as [|c' ensId]; settle_reasons.
Qed.

Lemma createIdentity_revert_reasons_witness :
  Registry.createIdentity Samples.registry 7 1700000600 "id-1" EmptyString
    "x@gmail.com" "NULL" true 1 2 EmptyString EmptyString
  = inl (Registry.RequireFailed "OFAC status must be 0 or 1") /\
  Registry.createIdentity Samples.registry 7 1700000600 "id-1" EmptyString
    "x@gmail.com" "NULL" true 1 0 EmptyString EmptyString
  = inl (Registry.RequireFailed "Identity already exists").
Proof.
  assert (Hr : forall v : Z, v = 0 \/ v = 1 \/ v = 2 -> 0 <= v <= 255) by lia.
  split.
  - apply (proj1 (proj2 (proj2 (createIdentity_revert_reasons Samples.registry 7
                                  1700000600 "id-1" EmptyString "x@gmail.com" "NULL"
                                  true 1 2 EmptyString EmptyString
                                  (Hr 1 ltac:(auto)) (Hr 2 ltac:(auto)))))).
    split; [right; reflexivity|]. intros [H | H]; discriminate.
  - apply (proj1 (proj2 (proj2 (proj2 (createIdentity_revert_reasons Samples.registry 7
                                  1700000600 "id-1" EmptyString "x@gmail.com" "NULL"
                                  true 1 0 EmptyString EmptyString
                                  (Hr 1 ltac:(auto)) (Hr 0 ltac:(auto))))))).
    split; [right; reflexivity|]. split; [left; reflexivity|].
    vm_compute. reflexivity.
Defined.


(** X20.  [onlyIdentityOwner] checks existence only: after any account
    created an identity, [updateIdentity] sent by any account with flags in
    {0, 1} succeeds, and afterwards [getIdentity] returns the new data
    stamped with the new block time, the new ENS name maps to the
    identifier, and the old name, when different, is no longer registered.
    *)
Theorem any_account_can_overwrite_identity (st : Registry.Storage)
    (creator ts : Z) (identifier ensId email organization : string)
    (isHuman : bool) (age ofacStatus : Z) (publicInput proof : string)
    (st1 : Registry.Storage) (ev1 : Registry.IdentityEvent)
    (updater ts' : Z) (ensId' email' organization' : string) (isHuman' : bool)
    (age' ofacStatus' : Z) (publicInput' proof' : string) :
  Registry.createIdentity st creator ts identifier ensId email organization
    isHuman age ofacStatus publicInput proof = inr (st1, ev1) ->
  age' = 0 \/ age' = 1 ->
  ofacStatus' = 0 \/ ofacStatus' = 1 ->
  exists st2,
    Registry.updateIdentity st1 updater ts' identifier ensId' email'
      organization' isHuman' age' ofacStatus' publicInput' proof'
    = inr (st2, Registry.IdentityUpdated identifier ensId' updater) /\
    Registry.getIdentity st2 identifier
    = inr {| Registry.mainENSId := ensId';
             Registry.connectedEmail := email';
             Registry.organization := organization';
             Registry.isHuman := isHuman';
             Registry.age := age';
             Registry.ofacStatus := ofacStatus';
             Registry.publicInput := publicInput';
             Registry.proof := proof';
             Registry.timestamp := ts';
             Registry.exists_ := true |} /\
    Registry.getIdentifierByENS st2 ensId' = identifier /\
    (ensId' <> ensId -> Registry.ensIsRegistered st2 ensId = false).
Proof.
  intros Hc Ha Ho.
  apply createIdentity_inr in Hc as ((_ & _ & _ & Hid & He) & -> & _).
  set (st1 := {| identities := _; ensToIdentifier := _; allIdentifiers := _ |}).
  assert (H1 : identity_at st1 identifier
               = {| mainENSId := ensId; connectedEmail := email;
                    Registry.organization := organization;
                    Registry.isHuman := isHuman; Registry.age := age;
                    Registry.ofacStatus := ofacStatus;
                    Registry.publicInput := publicInput;
                    Registry.proof := proof; timestamp := ts; exists_ := true |}).
  { unfold st1. rewrite identity_at_insert. now rewrite decide_True by reflexivity. }
  assert (H2 : ensToIdentifier st1 !! ensId = Some identifier).
  { unfold st1. simpl. now rewrite lookup_insert_eq. }
  clearbody st1. eexists. split.
  { apply updateIdentity_inr. rewrite H1. simpl. repeat split; assumption. }
  rewrite ?H1. simpl.
  rewrite getIdentity_at, identity_at_insert, decide_True by reflexivity. simpl.
  split; [reflexivity|].
  unfold getIdentifierByENS, ensIsRegistered, ensToIdentifier_at. simpl.
  destruct (same_string ensId ensId') eqn:E; simpl.
  - apply same_string_eq in E as <-. rewrite H2.
    split; [reflexivity|congruence].
  - rewrite lookup_insert_eq. split; [reflexivity|]. intros Hne.
    rewrite lookup_insert_ne by assumption. now rewrite lookup_delete_eq.
Qed.

Lemma any_account_can_overwrite_identity_witness :
  exists st1 st2,
    Registry.createIdentity Registry.deployed 7 100 "id-1" "alice.eth"
      "alice@gmail.com" "NULL" true 1 0 EmptyString EmptyString
    = inr (st1, Registry.IdentityCreated "id-1" "alice.eth" "alice@gmail.com" 7) /\
    Registry.updateIdentity st1 8 200 "id-1" "mallory.eth" "mallory@gmail.com"
      "X" false 0 1 EmptyString EmptyString
    = inr (st2, Registry.IdentityUpdated "id-1" "mallory.eth" 8) /\
    Registry.ensIsRegistered st2 "alice.eth" = false.
Proof.
  eexists.
  assert (Hc : Registry.createIdentity Registry.deployed 7 100 "id-1" "alice.eth"
                 "alice@gmail.com" "NULL" true 1 0 EmptyString EmptyString
               = inr (_, Registry.IdentityCreated "id-1" "alice.eth"
                           "alice@gmail.com" 7))
    by reflexivity.
  destruct (any_account_can_overwrite_identity _ _ _ _ _ _ _ _ _ _ _ _ _ _
              8 200 "mallory.eth" "mallory@gmail.com" "X" false 0 1
              EmptyString EmptyString Hc)
    as (st2 & H1 & _ & _ & H4).
  - left. reflexivity.
  - right. reflexivity.
  - exists st2. split; [exact Hc|]. split; [exact H1|]. apply H4. discriminate.
Defined.


(** X21.  On an existing identity, [updateField] with the name of one of the
    five text fields succeeds, sets that field to the new value and the
    timestamp to the block time, and leaves the other text fields and the
    flags as they were; with the name isHuman it sets the flag to true
    exactly when the value is the string "true"; with a name that is none of
    the eight fields it reverts with "Invalid field name". *)
Theorem updateField_writes_the_named_field (st : Registry.Storage) (ts : Z)
    (identifier fieldName newValue : string) :
  Registry.identityExists st identifier = true ->
  (In fieldName ["mainENSId"; "connectedEmail"; "organization"; "publicInput";
                 "proof"]%string ->
   exists st' d,
     Registry.updateField st ts identifier fieldName newValue
     = inr (st', Registry.DataFieldUpdated identifier fieldName newValue) /\
     Registry.getIdentity st' identifier = inr d /\
     Registry.text_field fieldName d = newValue /\
     (forall other, other <> fieldName ->
        Registry.text_field other d
        = Registry.text_field other (Registry.identity_at st identifier)) /\
     Registry.isHuman d = Registry.isHuman (Registry.identity_at st identifier) /\
     Registry.age d = Registry.age (Registry.identity_at st identifier) /\
     Registry.ofacStatus d = Registry.ofacStatus (Registry.identity_at st identifier) /\
     Registry.timestamp d = ts) /\
  (fieldName = "isHuman"%string ->
   exists st' d,
     Registry.updateField st ts identifier fieldName newValue
     = inr (st', Registry.DataFieldUpdated identifier fieldName newValue) /\
     Registry.getIdentity st' identifier = inr d /\
     (Registry.isHuman d = true <-> newValue = "true"%string) /\
     (forall other,
        Registry.text_field other d
        = Registry.text_field other (Registry.identity_at st identifier)) /\
     Registry.age d = Registry.age (Registry.identity_at st identifier) /\
     Registry.ofacStatus d = Registry.ofacStatus (Registry.identity_at st identifier) /\
     Registry.timestamp d = ts) /\
  (~ In fieldName ["mainENSId"; "connectedEmail"; "organization"; "isHuman";
                   "age"; "ofacStatus"; "publicInput"; "proof"]%string ->
   Registry.updateField st ts identifier fieldName newValue
   = inl (Registry.RequireFailed "Invalid field name")).
Proof.
  unfold identityExists. intros Hex.
  assert (Hget : forall d ens ids,
            exists_ d = true ->
            getIdentity {| identities := <[identifier := d]> (identities st);
                           ensToIdentifier := ens; allIdentifiers := ids |}
              identifier = inr d).
  { intros d ens ids Hd. rewrite getIdentity_at, identity_at_insert.
    rewrite decide_True by reflexivity. now rewrite Hd. }
  assert (Hother : forall f g : string, g <> f -> same_string g f = false).
  { intros f g Hne. destruct (same_string g f) eqn:E; [|reflexivity].
    apply same_string_eq in E. contradiction. }
  split; [|split].
  - intros Hin. unfold updateField. rewrite Hex. simpl negb. cbv iota.
    simpl in Hin.
    destruct Hin as [<- | [<- | [<- | [<- | [<- | []]]]]]; simpl; unfold finish;
      do 2 eexists; (split; [reflexivity|]);
      (split; [apply Hget; exact Hex|]); simpl;
      (split; [reflexivity|]);
      (split; [|repeat split; reflexivity]);
      intros other Hne; unfold text_field; simpl;
      rewrite (Hother _ _ Hne); reflexivity.
  - intros ->. unfold updateField. rewrite Hex. simpl. unfold finish.
    do 2 eexists. split; [reflexivity|]. split; [apply Hget; exact Hex|].
    simpl. split; [apply same_string_eq|]. repeat split; reflexivity.
  - intros Hnot. unfold updateField. rewrite Hex. simpl negb. cbv iota.
    simpl in Hnot.
    repeat match goal with
           | |- context [same_string fieldName ?c] =>
               rewrite (Hother c fieldName) by (intros ->; tauto)
           end.
    reflexivity.
Qed.

Lemma updateField_writes_the_named_field_witness :
  exists st' d,
    Registry.updateField Samples.registry 1700000500 "id-1" "organization" "ACME"
    = inr (st', Registry.DataFieldUpdated "id-1" "organization" "ACME") /\
    Registry.getIdentity st' "id-1" = inr d /\
    Registry.organization d = "ACME"%string /\
    Registry.connectedEmail d = "alice@gmail.com"%string.
Proof.
  assert (Hex : Registry.identityExists Samples.registry "id-1" = true)
    by (vm_compute; reflexivity).
  destruct (proj1 (updateField_writes_the_named_field Samples.registry 1700000500
                     "id-1" "organization" "ACME" Hex))
    as (st' & d & H1 & H2 & H3 & H4 & _).
  - simpl. auto.
  - exists st', d. split; [exact H1|]. split; [exact H2|]. split; [exact H3|].
    apply (H4 "connectedEmail"%string). discriminate.
Defined.


(** X22.  For the fields age and ofacStatus and a value in {0, 1},
    [updateNumericField] leaves the storage that [updateField] leaves when
    given the digit of the value; the two differ in the logged value only:
    [updateNumericField] logs the one-byte string whose byte is the number
    itself, which [updateField], given it back, rejects with an arithmetic
    panic. *)
Theorem numeric_update_agrees_with_text_update (st : Registry.Storage) (ts : Z)
    (identifier fieldName : string) (newValue : Z) :
  fieldName = "age"%string \/ fieldName = "ofacStatus"%string ->
  newValue = 0 \/ newValue = 1 ->
  Registry.committed st
    (Registry.updateNumericField st ts identifier fieldName newValue)
  = Registry.committed st
      (Registry.updateField st ts identifier fieldName (Registry.flag_digit newValue)) /\
  (Registry.identityExists st identifier = true ->
   exists st',
     Registry.updateNumericField st ts identifier fieldName newValue
     = inr (st', Registry.DataFieldUpdated identifier fieldName
                   (Registry.encodePacked_uint8 newValue)) /\
     Registry.updateField st ts identifier fieldName (Registry.flag_digit newValue)
     = inr (st', Registry.DataFieldUpdated identifier fieldName
                   (Registry.flag_digit newValue)) /\
     Registry.flag fieldName (Registry.identity_at st' identifier) = newValue /\
     forall ts',
       Registry.updateField st' ts' identifier fieldName
         (Registry.encodePacked_uint8 newValue)
       = inl (Registry.Panic 17)).
Proof.
  intros Hf Hv.
  assert (Hnum : forall s t,
            exists_ (identity_at s identifier) = true ->
            updateNumericField s t identifier fieldName newValue
            = finish s (ensToIdentifier s) t identifier fieldName
                (encodePacked_uint8 newValue)
                (if same_string fieldName "age"
                 then set_age newValue (identity_at s identifier)
                 else set_ofacStatus newValue (identity_at s identifier))).
  { intros s t Hex. unfold updateNumericField, onlyIdentityOwner, require.
    rewrite Hex. destruct Hv as [-> | ->], Hf as [-> | ->]; reflexivity. }
  assert (Htxt : forall s t,
            exists_ (identity_at s identifier) = true ->
            updateField s t identifier fieldName (flag_digit newValue)
            = finish s (ensToIdentifier s) t identifier fieldName
                (flag_digit newValue)
                (if same_string fieldName "age"
                 then set_age newValue (identity_at s identifier)
                 else set_ofacStatus newValue (identity_at s identifier))).
  { intros s t Hex. unfold updateField. rewrite Hex.
    destruct Hv as [-> | ->], Hf as [-> | ->]; reflexivity. }
  assert (Hraw : forall s t,
            exists_ (identity_at s identifier) = true ->
            updateField s t identifier fieldName (encodePacked_uint8 newValue)
            = inl (Panic 17)).
  { intros s t Hex. unfold updateField. rewrite Hex.
    destruct Hv as [-> | ->], Hf as [-> | ->]; reflexivity. }
  split.
  - destruct (exists_ (identity_at st identifier)) eqn:Hex.
    + rewrite (Hnum _ _ Hex), (Htxt _ _ Hex). reflexivity.
    + unfold updateNumericField, onlyIdentityOwner, require, updateField.
      rewrite Hex. reflexivity.
  - unfold identityExists. intros Hex.
    rewrite (Hnum _ _ Hex), (Htxt _ _ Hex). unfold finish.
    eexists. split; [reflexivity|]. split; [reflexivity|].
    assert (Hd : identity_at
                   {| identities :=
                        <[identifier :=
                            set_timestamp ts
                              (if same_string fieldName "age"
                               then set_age newValue (identity_at st identifier)
                               else set_ofacStatus newValue (identity_at st identifier))]>
                          (identities st);
                      ensToIdentifier := ensToIdentifier st;
                      allIdentifiers := allIdentifiers st |} identifier
                 = set_timestamp ts
                     (if same_string fieldName "age"
                      then set_age newValue (identity_at st identifier)
                      else set_ofacStatus newValue (identity_at st identifier))).
    { rewrite identity_at_insert. now rewrite decide_True by reflexivity. }
    split.
    + rewrite Hd. unfold flag. destruct Hf as [-> | ->]; reflexivity.
    + intros ts'. apply Hraw. rewrite Hd.
      destruct (same_string fieldName "age"); exact Hex.
Qed.

Lemma numeric_update_agrees_with_text_update_witness :
  Registry.committed Samples.registry
    (Registry.updateNumericField Samples.registry 1700000300 "id-1" "ofacStatus" 1)
  = Registry.committed Samples.registry
      (Registry.updateField Samples.registry 1700000300 "id-1" "ofacStatus" "1").
Proof.
  apply (numeric_update_agrees_with_text_update Samples.registry 1700000300
           "id-1" "ofacStatus" 1).
  - right. reflexivity.
  - right. reflexivity.
Defined.

